(** * Embedded Pi agent runner: stream interpreter and run orchestrator

    A shallow embedding of [src/agents/pi-embedded-runner.ts] and of the
    stream interpreter [subscribeEmbeddedPiSession] that it wires in.

    - JavaScript strings are lists of UTF-16 code units ([N]).
    - Regular expression literals are values of a small regex syntax run by
      a backtracking matcher.
    - The closure variables of [subscribeEmbeddedPiSession] become a record
      that the event handler threads through; what the handler sends to
      observers is collected in an ordered list of emissions.
    - [ACTIVE_EMBEDDED_RUNS] is a finite map from session ids to handles.
    - Functions of other modules of the repository
      ([splitMediaFromOutput], [formatToolAggregate], the tool debouncer,
      ...) are the fields of the class [Collaborators].
    - A run's local variables and the session it talks to are entries of a
      world keyed by run, so that a handle in the registry and the run
      that made it see the same variables; what happens while the run
      awaits is a list of events. *)

From Stdlib Require Import NArith ZArith List Bool Lia.
From stdpp Require Import base option list strings gmap.

Import ListNotations.
Local Open Scope N_scope.

(* ===================================================================== *)
(** ** JavaScript strings *)
(* ===================================================================== *)

Module Js.

(** A string value is a sequence of UTF-16 code units. *)
Definition str := list N.

(** Code units of an ASCII literal of the source. *)
Definition lit (s : String.string) : str :=
  map Ascii.N_of_ascii (String.list_ascii_of_string s).

(** [!text] on a string: only the empty string is falsy. *)
Definition truthy (s : str) : bool :=
  match s with [] => false | _ :: _ => true end.

(** WhiteSpace and LineTerminator code points: the class [\s] of a regular
    expression, and what [String.prototype.trim] removes. *)
Definition isWhiteSpace (c : N) : bool :=
  (c =? 9) || (c =? 10) || (c =? 11) || (c =? 12) || (c =? 13) || (c =? 32)
  || (c =? 160) || (c =? 5760) || ((8192 <=? c) && (c <=? 8202))
  || (c =? 8232) || (c =? 8233) || (c =? 8239) || (c =? 8287)
  || (c =? 12288) || (c =? 65279).

Fixpoint trimStart (s : str) : str :=
  match s with
  | c :: s' => if isWhiteSpace c then trimStart s' else s
  | [] => []
  end.

Definition trimEnd (s : str) : str := rev (trimStart (rev s)).

Definition trim (s : str) : str := trimEnd (trimStart s).

(** [toLowerCase] on the ASCII range; the strings it is applied to here are
    matches of the tag expressions, which hold ASCII letters, [<], [/], [>]
    and white space only. *)
Definition toLowerCase (s : str) : str :=
  map (fun c => if (65 <=? c) && (c <=? 90) then c + 32 else c) s.

(** [s.includes(c)] for a one-unit needle. *)
Definition includes (c : N) (s : str) : bool := existsb (N.eqb c) s.

(* --------------------------------------------------------------------- *)
(** *** Regular expressions *)

(** The syntax needed by the literals of the source. *)
Inductive regex : Type :=
| Eps                         (* empty pattern *)
| Chr (p : N)                 (* one pattern character *)
| SpaceStar                   (* \s*  (greedy) *)
| Opt (r : regex)             (* r?   (greedy) *)
| Seq (r1 r2 : regex).

(** Canonicalize of the [i] flag without [u]: upper-casing, where a code
    unit above 127 never canonicalizes into the ASCII range. All pattern
    characters of the source are ASCII, so only the ASCII part matters. *)
Definition canonicalize (c : N) : N :=
  if (97 <=? c) && (c <=? 122) then c - 32 else c.

(** [\s*] followed by the continuation [k]: longest run first, then
    backtracking. *)
Fixpoint spaces (k : str -> option str) (s : str) : option str :=
  match s with
  | c :: s' =>
      if isWhiteSpace c then
        match spaces k s' with
        | Some rest => Some rest
        | None => k s
        end
      else k s
  | [] => k []
  end.

(** Backtracking matcher in continuation style: [rmatch r k s] matches [r]
    at the head of [s] and hands what is left to [k]; the result is the
    text after the whole match. *)
Fixpoint rmatch (r : regex) (k : str -> option str) (s : str) : option str :=
  match r with
  | Eps => k s
  | Chr p =>
      match s with
      | c :: s' => if canonicalize c =? canonicalize p then k s' else None
      | [] => None
      end
  | SpaceStar => spaces k s
  | Opt r' =>
      match rmatch r' k s with
      | Some rest => Some rest
      | None => k s
      end
  | Seq r1 r2 => rmatch r1 (rmatch r2 k) s
  end.

Definition matchAt (r : regex) (s : str) : option str := rmatch r Some s.

(** [r.exec(s)] for a non-sticky expression at [lastIndex = 0]: the
    leftmost match, as (text before, matched text, text after). The
    [index] of the match is the length of the first component. *)
Fixpoint exec (r : regex) (s : str) : option (str * str * str) :=
  match matchAt r s with
  | Some rest => Some ([], take (length s - length rest)%nat s, rest)
  | None =>
      match s with
      | [] => None
      | c :: s' =>
          match exec r s' with
          | Some (pre, m, post) => Some (c :: pre, m, post)
          | None => None
          end
      end
  end.

Definition test (r : regex) (s : str) : bool :=
  match exec r s with Some _ => true | None => false end.

(** [s.replace(r, "")] for an expression without the [g] flag: the first
    match is removed. *)
Definition replaceFirst (r : regex) (s : str) : str :=
  match exec r s with
  | Some (pre, _, post) => pre ++ post
  | None => s
  end.

(** [s.matchAll(r)] for a [g] expression whose matches are never empty:
    every match with the text between the end of the previous match and its
    start, and the text after the last match. The loop runs once per match,
    so [length s] rounds are enough (see [matchAll_unfold]). *)
Fixpoint matchAll_aux (fuel : nat) (r : regex) (s : str)
  : list (str * str) * str :=
  match fuel with
  | O => ([], s)
  | S fuel' =>
      match exec r s with
      | None => ([], s)
      | Some (pre, m, post) =>
          let '(ms, tl) := matchAll_aux fuel' r post in
          ((pre, m) :: ms, tl)
      end
  end.

Definition matchAll (r : regex) (s : str) : list (str * str) * str :=
  matchAll_aux (length s) r s.

(** A pattern word such as [think]. *)
Fixpoint word (w : str) : regex :=
  match w with
  | [] => Eps
  | c :: w' => Seq (Chr c) (word w')
  end.

Fixpoint seq (rs : list regex) : regex :=
  match rs with
  | [] => Eps
  | r :: rs' => Seq r (seq rs')
  end.

End Js.

Notation "'js' s" := (Js.lit s%string) (at level 10, s at level 0, only parsing).


(* ===================================================================== *)
(** ** JavaScript values (tool results) *)
(* ===================================================================== *)

(** The values a tool result is made of. An object is the list of its own
    properties in enumeration order, each key once. The only numbers that
    occur are string lengths. *)
#[warnings="-register-all"]
Inductive value : Type :=
| VUndefined
| VNull
| VBool (b : bool)
| VNum (n : N)
| VStr (s : Js.str)
| VArr (items : list value)
| VObj (props : list (Js.str * value)).

Module Obj.

Definition t := list (Js.str * value).

(** [o.k]; a missing property reads as [undefined], which callers see as
    [None]. *)
Fixpoint get (k : Js.str) (o : t) : option value :=
  match o with
  | [] => None
  | (k', v) :: o' => if decide (k' = k) then Some v else get k o'
  end.

(** [{ ...o, k: v }]: an existing property keeps its place and takes the
    new value, a new property goes last. *)
Fixpoint set (k : Js.str) (v : value) (o : t) : t :=
  match o with
  | [] => [(k, v)]
  | (k', v') :: o' =>
      if decide (k' = k) then (k, v) :: o' else (k', v') :: set k v o'
  end.

(** [delete o.k] (on a copy). *)
Fixpoint delete (k : Js.str) (o : t) : t :=
  match o with
  | [] => []
  | (k', v') :: o' =>
      if decide (k' = k) then delete k o' else (k', v') :: delete k o'
  end.

End Obj.

(* ===================================================================== *)
(** ** Text helpers of the stream interpreter *)
(* ===================================================================== *)

Import Js.

Definition LT : N := 60.      (* < *)
Definition GT : N := 62.      (* > *)
Definition SLASH : N := 47.   (* / *)

(** [/<\s*\/?\s*think(?:ing)?\s*>/gi] *)
Definition THINKING_TAG_RE : regex :=
  seq [Chr LT; SpaceStar; Opt (Chr SLASH); SpaceStar; word (js "think");
       Opt (word (js "ing")); SpaceStar; Chr GT].

(** [/<\s*think(?:ing)?\s*>/i] *)
Definition THINKING_OPEN_RE : regex :=
  seq [Chr LT; SpaceStar; word (js "think"); Opt (word (js "ing"));
       SpaceStar; Chr GT].

(** [/<\s*\/\s*think(?:ing)?\s*>/i] *)
Definition THINKING_CLOSE_RE : regex :=
  seq [Chr LT; SpaceStar; Chr SLASH; SpaceStar; word (js "think");
       Opt (word (js "ing")); SpaceStar; Chr GT].

(** [/<\s*final\s*>/i] *)
Definition FINAL_START_RE : regex :=
  seq [Chr LT; SpaceStar; word (js "final"); SpaceStar; Chr GT].

(** [/<\s*\/\s*final\s*>/i] *)
Definition FINAL_END_RE : regex :=
  seq [Chr LT; SpaceStar; Chr SLASH; SpaceStar; word (js "final");
       SpaceStar; Chr GT].

Definition TOOL_RESULT_MAX_CHARS : N := 8000.

(** [s.length], in code units. *)
Definition strlen (s : str) : N := N.of_nat (length s).

(** The suffix [\n…(truncated)…]; U+2026 is one code unit. *)
Definition TRUNCATED_SUFFIX : str :=
  [10; 8230] ++ js "(truncated)" ++ [8230].

Definition truncateToolText (text : str) : str :=
  if strlen text <=? TOOL_RESULT_MAX_CHARS then text
  else take (N.to_nat TOOL_RESULT_MAX_CHARS) text ++ TRUNCATED_SUFFIX.

(** [typeof v === "string" ? v : undefined] on a property read. *)
Definition asString (v : option value) : option str :=
  match v with
  | Some (VStr s) => Some s
  | _ => None
  end.

(** The callback of [content.map] in [sanitizeToolResult]. Items that are
    falsy or not objects are returned as they are; an array item has no
    [type] property and falls through to the last [return]. *)
Definition sanitizeToolItem (item : value) : value :=
  match item with
  | VObj entry =>
      let type := asString (Obj.get (js "type") entry) in
      match (if decide (type = Some (js "text"))
             then asString (Obj.get (js "text") entry) else None) with
      | Some text =>
          VObj (Obj.set (js "text") (VStr (truncateToolText text)) entry)
      | None =>
          if decide (type = Some (js "image")) then
            let data := asString (Obj.get (js "data") entry) in
            let bytes :=
              match data with
              | Some d => if truthy d then VNum (strlen d) else VUndefined
              | None => VUndefined
              end in
            let cleaned := Obj.delete (js "data") entry in
            VObj (Obj.set (js "omitted") (VBool true)
                    (Obj.set (js "bytes") bytes cleaned))
          else item
      end
  | _ => item
  end.

Definition sanitizeToolResult (result : value) : value :=
  match result with
  | VObj record =>
      match Obj.get (js "content") record with
      | Some (VArr content) =>
          let sanitized := map sanitizeToolItem content in
          VObj (Obj.set (js "content") (VArr sanitized) record)
      | _ => result
      end
  | _ => result
  end.

(** The loop of [stripThinkingSegments] over the matches: [gap] is
    [text.slice(lastIndex, idx)] and [m] is [match[0]]. *)
Definition thinkingStep (acc : str * bool) (seg : str * str) : str * bool :=
  let '(result, inThinking) := acc in
  let '(gap, m) := seg in
  let result := if inThinking then result else result ++ gap in
  let tag := toLowerCase m in
  (result, negb (includes SLASH tag)).

Definition stripThinkingSegments (text : str) : str :=
  if negb (truthy text) || negb (test THINKING_TAG_RE text) then text
  else
    let '(ms, tl) := matchAll THINKING_TAG_RE text in
    let '(result, inThinking) := fold_left thinkingStep ms ([], false) in
    if inThinking then result else result ++ tl.

Definition stripUnpairedThinkingTags (text : str) : str :=
  if negb (truthy text) then text
  else
    let hasOpen := test THINKING_OPEN_RE text in
    let hasClose := test THINKING_CLOSE_RE text in
    if hasOpen && hasClose then text
    else if negb hasOpen then replaceFirst THINKING_CLOSE_RE text
    else if negb hasClose then replaceFirst THINKING_OPEN_RE text
    else text.

(** Local providers sometimes emit malformed tags; normalize before
    filtering. *)
Definition sanitizeFinalText (text : str) : str :=
  if negb (truthy text) then text
  else
    let hasStart := test FINAL_START_RE text in
    let hasEnd := test FINAL_END_RE text in
    if hasStart && negb hasEnd then replaceFirst FINAL_START_RE text
    else if negb hasStart && hasEnd then replaceFirst FINAL_END_RE text
    else text.

(** [None] is the [undefined] result. *)
Definition extractFinalText (text : str) : option str :=
  let cleaned := sanitizeFinalText text in
  match exec FINAL_START_RE cleaned with
  | None => None
  | Some (_, _, afterStart) =>
      match exec FINAL_END_RE afterStart with
      | Some (upToEnd, _, _) => Some upToEnd
      | None => Some afterStart
      end
  end.

(** The two derived texts of the [message_update] handler. *)
Definition cleanedOf (enforceFinalTag : bool) (deltaBuffer : str) : str :=
  if enforceFinalTag
  then stripThinkingSegments (stripUnpairedThinkingTags deltaBuffer)
  else stripThinkingSegments deltaBuffer.

Definition nextOf (enforceFinalTag : bool) (cleaned : str) : str :=
  if enforceFinalTag
  then match extractFinalText cleaned with
       | Some t => trim t
       | None => trim cleaned
       end
  else trim cleaned.

(* ===================================================================== *)
(** ** The stream interpreter: [subscribeEmbeddedPiSession] *)
(* ===================================================================== *)

(** An agent message as far as this module looks into it: its role; the
    rest is read by collaborators only. *)
Record AgentMessage : Type := {
  role : str;
  body : value;
}.

(** Functions imported from other modules of the repository. The tool
    debouncer ([createToolDebouncer]) is kept abstract: [debouncerPush] and
    [debouncerFlush] return the new buffer and the (tool name, metas)
    batches handed to the callback during the call. What the debouncer
    emits from its own timer between two events is not part of the
    model. *)
Class Collaborators : Type := {
  inferToolMetaFromArgs : str -> value -> option str;
  formatToolAggregate : str -> option (list str) -> str;
  splitMediaFromOutput : str -> str * option (list str);
  extractAssistantText : AgentMessage -> str;
  formatAssistantErrorText : AgentMessage -> option str;
  Debouncer : Type;
  debouncerNew : Debouncer;
  debouncerPush : str -> option str -> Debouncer ->
                  Debouncer * list (str * list str);
  debouncerFlush : Debouncer -> Debouncer * list (str * list str);
}.

Inductive BlockReplyBreak : Type := BreakTextEnd | BreakMessageEnd.

Inductive VerboseLevel : Type := VerboseOff | VerboseOn.

#[global] Instance BlockReplyBreak_eq_dec : EqDecision BlockReplyBreak.
Proof. solve_decision. Defined.

#[global] Instance VerboseLevel_eq_dec : EqDecision VerboseLevel.
Proof. solve_decision. Defined.

(** The parameters of a subscription. An observer is present or not; what
    it is sent is recorded as an [emission]. [shouldEmitToolResult] is the
    answer of the caller's predicate when one is supplied. *)
Record SubscribeParams : Type := {
  runId : str;
  verboseLevel : option VerboseLevel;
  shouldEmitToolResult : option bool;
  onToolResult : bool;
  onBlockReply : bool;
  blockReplyBreak : option BlockReplyBreak;
  onPartialReply : bool;
  onAgentEvent : bool;
  enforceFinalTag : bool;
}.

(** [AgentEvent], decoded by [evt.type]. *)
Inductive AgentEvent : Type :=
| tool_execution_start (toolName toolCallId : str) (args : value)
| tool_execution_update (toolName toolCallId : str) (partialResult : value)
| tool_execution_end (toolName toolCallId : str) (isError : bool)
                     (result : value)
| message_update (message : option AgentMessage)
                 (assistantMessageEvent : value)
| message_end (message : option AgentMessage)
| agent_start
| auto_compaction_start
| auto_compaction_end (willRetry : bool)
| agent_end
| other_event (type : str).

(** What the handler hands to the outside, in order. *)
Inductive emission : Type :=
| EmitAgentEvent (run stream : str) (data : value) (* emitAgentEvent(...) *)
| OnAgentEvent (stream : str) (data : value)       (* params.onAgentEvent *)
| OnPartialReply (text : str) (mediaUrls : option (list str))
| OnBlockReply (text : str) (mediaUrls : option (list str))
| OnToolResult (text : str) (mediaUrls : option (list str))
| CompactionRetryResolved (promise : nat).         (* compactionRetryResolve() *)

(** The Assistant Text Accumulator. *)
Record Accumulator : Type := {
  assistantTexts : list str;
  deltaBuffer : str;
  lastStreamedAssistant : option str;
  lastBlockReplyText : option str;
  assistantTextBaseline : nat;
}.

(** The Tool Call Record set. *)
Record ToolRecords : Type := {
  toolMetas : list (str * option str);
  toolMetaById : gmap str (option str);
}.

(** The compaction state. Promises are told apart by a number; the promise
    and its resolver are set and cleared together in the source but are two
    variables there, and two fields here. *)
Record Compaction : Type := {
  compactionInFlight : bool;
  pendingCompactionRetry : nat;
  compactionRetryResolve : option nat;
  compactionRetryPromise : option nat;
  promisesCreated : nat;
}.

Section Interpreter.

Context `{Collaborators}.

(** The closure state of one subscription. *)
Record Interp : Type := {
  acc : Accumulator;
  tools : ToolRecords;
  compaction : Compaction;
  toolDebouncer : Debouncer;
}.

Definition emptyAccumulator : Accumulator :=
  {| assistantTexts := []; deltaBuffer := []; lastStreamedAssistant := None;
     lastBlockReplyText := None; assistantTextBaseline := 0 |}.

Definition emptyToolRecords : ToolRecords :=
  {| toolMetas := []; toolMetaById := ∅ |}.

Definition initialInterp : Interp :=
  {| acc := emptyAccumulator;
     tools := emptyToolRecords;
     compaction := {| compactionInFlight := false;
                      pendingCompactionRetry := 0;
                      compactionRetryResolve := None;
                      compactionRetryPromise := None;
                      promisesCreated := 0 |};
     toolDebouncer := debouncerNew |}.

Definition ensureCompactionPromise (c : Compaction) : Compaction :=
  match compactionRetryPromise c with
  | Some _ => c
  | None =>
      let id := promisesCreated c in
      {| compactionInFlight := compactionInFlight c;
         pendingCompactionRetry := pendingCompactionRetry c;
         compactionRetryResolve := Some id;
         compactionRetryPromise := Some id;
         promisesCreated := S id |}
  end.

Definition noteCompactionRetry (c : Compaction) : Compaction :=
  ensureCompactionPromise
    {| compactionInFlight := compactionInFlight c;
       pendingCompactionRetry := pendingCompactionRetry c + 1;
       compactionRetryResolve := compactionRetryResolve c;
       compactionRetryPromise := compactionRetryPromise c;
       promisesCreated := promisesCreated c |}.

(** [compactionRetryResolve?.()] and the two assignments after it. *)
Definition resolveAndClear (c : Compaction) : Compaction * list emission :=
  ({| compactionInFlight := compactionInFlight c;
      pendingCompactionRetry := pendingCompactionRetry c;
      compactionRetryResolve := None;
      compactionRetryPromise := None;
      promisesCreated := promisesCreated c |},
   match compactionRetryResolve c with
   | Some id => [CompactionRetryResolved id]
   | None => []
   end).

Definition resolveCompactionRetry (c : Compaction)
  : Compaction * list emission :=
  match pendingCompactionRetry c with
  | O => (c, [])
  | S n =>
      let c' := {| compactionInFlight := compactionInFlight c;
                   pendingCompactionRetry := n;
                   compactionRetryResolve := compactionRetryResolve c;
                   compactionRetryPromise := compactionRetryPromise c;
                   promisesCreated := promisesCreated c |} in
      if Nat.eqb n 0 && negb (compactionInFlight c') then resolveAndClear c'
      else (c', [])
  end.

Definition maybeResolveCompactionWait (c : Compaction)
  : Compaction * list emission :=
  if Nat.eqb (pendingCompactionRetry c) 0 && negb (compactionInFlight c)
  then resolveAndClear c
  else (c, []).

(** [mediaUrls?.length ? mediaUrls : undefined] *)
Definition nonEmptyUrls (mediaUrls : option (list str)) : option (list str) :=
  match mediaUrls with
  | Some (u :: us) => Some (u :: us)
  | _ => None
  end.

(** [cleanedText || (mediaUrls && mediaUrls.length > 0)] *)
Definition hasTextOrMedia (cleanedText : str) (mediaUrls : option (list str))
  : bool :=
  truthy cleanedText || bool_decide (is_Some (nonEmptyUrls mediaUrls)).

(** The callback given to [createToolDebouncer], run on each batch. *)
Definition debouncerCallback (p : SubscribeParams)
    (batch : str * list str) : list emission :=
  if negb (onPartialReply p) then []
  else
    let text := formatToolAggregate (fst batch) (Some (snd batch)) in
    let '(cleanedText, mediaUrls) := splitMediaFromOutput text in
    [OnPartialReply cleanedText (nonEmptyUrls mediaUrls)].

Definition runDebouncer (p : SubscribeParams)
    (r : Debouncer * list (str * list str)) : Debouncer * list emission :=
  (fst r, concat (map (debouncerCallback p) (snd r))).

Definition resetForCompactionRetry (p : SubscribeParams) (st : Interp)
  : Interp * list emission :=
  let '(d, out) := runDebouncer p (debouncerFlush (toolDebouncer st)) in
  ({| acc := emptyAccumulator;
      tools := emptyToolRecords;
      compaction := compaction st;
      toolDebouncer := d |}, out).

Definition optStr (o : option str) : value :=
  match o with Some s => VStr s | None => VUndefined end.

Definition optUrls (o : option (list str)) : value :=
  match o with Some us => VArr (map VStr us) | None => VUndefined end.

Definition withAcc (st : Interp) (a : Accumulator) : Interp :=
  {| acc := a; tools := tools st; compaction := compaction st;
     toolDebouncer := toolDebouncer st |}.

Definition withCompaction (st : Interp) (c : Compaction) : Interp :=
  {| acc := acc st; tools := tools st; compaction := c;
     toolDebouncer := toolDebouncer st |}.

Definition withTools (st : Interp) (t : ToolRecords) : Interp :=
  {| acc := acc st; tools := t; compaction := compaction st;
     toolDebouncer := toolDebouncer st |}.

Definition withDebouncer (st : Interp) (d : Debouncer) : Interp :=
  {| acc := acc st; tools := tools st; compaction := compaction st;
     toolDebouncer := d |}.

(** [{ text: cleanedText, mediaUrls: mediaUrls?.length ? mediaUrls :
    undefined }] as event data. *)
Definition assistantData (cleanedText : str) (mediaUrls : option (list str))
  : value :=
  VObj [(js "text", VStr cleanedText);
        (js "mediaUrls", optUrls (nonEmptyUrls mediaUrls))].

Definition onToolStart (p : SubscribeParams) (st : Interp)
    (toolName toolCallId : str) (args : value) : Interp * list emission :=
  let meta := inferToolMetaFromArgs toolName args in
  let t := {| toolMetas := toolMetas (tools st);
              toolMetaById := <[toolCallId := meta]> (toolMetaById (tools st)) |} in
  (withTools st t,
   [EmitAgentEvent (runId p) (js "tool")
      (VObj [(js "phase", VStr (js "start")); (js "name", VStr toolName);
             (js "toolCallId", VStr toolCallId); (js "args", args)])]
   ++ (if onAgentEvent p then
         [OnAgentEvent (js "tool")
            (VObj [(js "phase", VStr (js "start")); (js "name", VStr toolName);
                   (js "toolCallId", VStr toolCallId)])]
       else [])).

Definition onToolUpdate (p : SubscribeParams) (st : Interp)
    (toolName toolCallId : str) (partialResult : value)
  : Interp * list emission :=
  let sanitized := sanitizeToolResult partialResult in
  (st,
   [EmitAgentEvent (runId p) (js "tool")
      (VObj [(js "phase", VStr (js "update")); (js "name", VStr toolName);
             (js "toolCallId", VStr toolCallId);
             (js "partialResult", sanitized)])]
   ++ (if onAgentEvent p then
         [OnAgentEvent (js "tool")
            (VObj [(js "phase", VStr (js "update")); (js "name", VStr toolName);
                   (js "toolCallId", VStr toolCallId)])]
       else [])).

(** [meta ? [meta] : alt] *)
Definition metaList (meta : option str) (alt : option (list str))
  : option (list str) :=
  match meta with
  | Some m => if truthy m then Some [m] else alt
  | None => alt
  end.

Definition onToolEnd (p : SubscribeParams) (st : Interp)
    (toolName toolCallId : str) (isError : bool) (result : value)
  : Interp * list emission :=
  let sanitizedResult := sanitizeToolResult result in
  let meta := mjoin (toolMetaById (tools st) !! toolCallId) in
  let t := {| toolMetas := toolMetas (tools st) ++ [(toolName, meta)];
              toolMetaById := toolMetaById (tools st) |} in
  let '(d, pushed) :=
    runDebouncer p (debouncerPush toolName meta (toolDebouncer st)) in
  let emitToolResult :=
    match shouldEmitToolResult p with
    | Some answer => answer
    | None => bool_decide (verboseLevel p = Some VerboseOn)
    end in
  (withDebouncer (withTools st t) d,
   pushed
   ++ [EmitAgentEvent (runId p) (js "tool")
         (VObj [(js "phase", VStr (js "result")); (js "name", VStr toolName);
                (js "toolCallId", VStr toolCallId); (js "meta", optStr meta);
                (js "isError", VBool isError);
                (js "result", sanitizedResult)])]
   ++ (if onAgentEvent p then
         [OnAgentEvent (js "tool")
            (VObj [(js "phase", VStr (js "result")); (js "name", VStr toolName);
                   (js "toolCallId", VStr toolCallId); (js "meta", optStr meta);
                   (js "isError", VBool isError)])]
       else [])
   ++ (if emitToolResult && onToolResult p then
         let agg := formatToolAggregate toolName (metaList meta None) in
         let '(cleanedText, mediaUrls) := splitMediaFromOutput agg in
         if hasTextOrMedia cleanedText mediaUrls
         then [OnToolResult cleanedText (nonEmptyUrls mediaUrls)]
         else []
       else [])).

(** [message?.role === "assistant"] *)
Definition isAssistant (message : option AgentMessage) : bool :=
  match message with
  | Some msg => bool_decide (role msg = js "assistant")
  | None => false
  end.

(** [next || undefined] *)
Definition orUndefined (s : str) : option str :=
  if truthy s then Some s else None.

Definition forwardBlock (p : SubscribeParams) (text : str) : list emission :=
  let '(cleanedText, mediaUrls) := splitMediaFromOutput text in
  if hasTextOrMedia cleanedText mediaUrls
  then [OnBlockReply cleanedText (nonEmptyUrls mediaUrls)]
  else [].

Definition onMessageUpdate (p : SubscribeParams) (st : Interp)
    (message : option AgentMessage) (assistantMessageEvent : value)
  : Interp * list emission :=
  if negb (isAssistant message) then (st, [])
  else
    let assistantRecord :=
      match assistantMessageEvent with
      | VObj o => o
      | _ => []
      end in
    let evtType :=
      default [] (asString (Obj.get (js "type") assistantRecord)) in
    if negb (bool_decide (evtType = js "text_delta")
             || bool_decide (evtType = js "text_start")
             || bool_decide (evtType = js "text_end"))
    then (st, [])
    else
      let chunk :=
        match asString (Obj.get (js "delta") assistantRecord) with
        | Some delta => delta
        | None =>
            default [] (asString (Obj.get (js "content") assistantRecord))
        end in
      let a := acc st in
      let buffer := if truthy chunk then deltaBuffer a ++ chunk
                    else deltaBuffer a in
      let cleaned := cleanedOf (enforceFinalTag p) buffer in
      let next := nextOf (enforceFinalTag p) cleaned in
      let changed :=
        truthy next && negb (bool_decide (Some next = lastStreamedAssistant a)) in
      let streamed := if changed then Some next else lastStreamedAssistant a in
      let out1 :=
        if changed then
          let '(cleanedText, mediaUrls) := splitMediaFromOutput next in
          [EmitAgentEvent (runId p) (js "assistant")
             (assistantData cleanedText mediaUrls)]
          ++ (if onAgentEvent p
              then [OnAgentEvent (js "assistant")
                      (assistantData cleanedText mediaUrls)]
              else [])
          ++ (if onPartialReply p
              then [OnPartialReply cleanedText (nonEmptyUrls mediaUrls)]
              else [])
        else [] in
      if bool_decide (evtType = js "text_end")
         && bool_decide (default BreakTextEnd (blockReplyBreak p) = BreakTextEnd)
      then
        if truthy next && bool_decide (Some next = lastBlockReplyText a) then
          (withAcc st {| assistantTexts := assistantTexts a;
                         deltaBuffer := [];
                         lastStreamedAssistant := None;
                         lastBlockReplyText := lastBlockReplyText a;
                         assistantTextBaseline := assistantTextBaseline a |},
           out1)
        else
          (withAcc st {| assistantTexts :=
                           if truthy next then assistantTexts a ++ [next]
                           else assistantTexts a;
                         deltaBuffer := [];
                         lastStreamedAssistant := None;
                         lastBlockReplyText := orUndefined next;
                         assistantTextBaseline := assistantTextBaseline a |},
           out1 ++ (if truthy next && onBlockReply p
                    then forwardBlock p next else []))
      else
        (withAcc st {| assistantTexts := assistantTexts a;
                       deltaBuffer := buffer;
                       lastStreamedAssistant := streamed;
                       lastBlockReplyText := lastBlockReplyText a;
                       assistantTextBaseline := assistantTextBaseline a |},
         out1).

Definition onMessageEnd (p : SubscribeParams) (st : Interp)
    (message : option AgentMessage) : Interp * list emission :=
  match message with
  | Some msg =>
      if negb (isAssistant message) then (st, [])
      else
        let cleaned := cleanedOf (enforceFinalTag p) (extractAssistantText msg) in
        let text :=
          if enforceFinalTag p && truthy cleaned
          then match extractFinalText cleaned with
               | Some t => trim t
               | None => cleaned
               end
          else cleaned in
        let a := acc st in
        let addedDuringMessage :=
          (assistantTextBaseline a <? length (assistantTexts a))%nat in
        let texts :=
          if negb addedDuringMessage && truthy text
          then assistantTexts a ++ [text] else assistantTexts a in
        if bool_decide (default BreakTextEnd (blockReplyBreak p) = BreakMessageEnd)
           && truthy text && onBlockReply p
        then
          if bool_decide (Some text = lastBlockReplyText a) then
            (withAcc st {| assistantTexts := texts;
                           deltaBuffer := [];
                           lastStreamedAssistant := None;
                           lastBlockReplyText := lastBlockReplyText a;
                           assistantTextBaseline := length texts |},
             [])
          else
            (withAcc st {| assistantTexts := texts;
                           deltaBuffer := [];
                           lastStreamedAssistant := None;
                           lastBlockReplyText := None;
                           assistantTextBaseline := length texts |},
             forwardBlock p text)
        else
          (withAcc st {| assistantTexts := texts;
                         deltaBuffer := [];
                         lastStreamedAssistant := None;
                         lastBlockReplyText := None;
                         assistantTextBaseline := length texts |},
           [])
  | None => (st, [])
  end.

Definition onCompactionEnd (p : SubscribeParams) (st : Interp)
    (willRetry : bool) : Interp * list emission :=
  let c := compaction st in
  let c := {| compactionInFlight := false;
              pendingCompactionRetry := pendingCompactionRetry c;
              compactionRetryResolve := compactionRetryResolve c;
              compactionRetryPromise := compactionRetryPromise c;
              promisesCreated := promisesCreated c |} in
  if willRetry then
    resetForCompactionRetry p (withCompaction st (noteCompactionRetry c))
  else
    let '(c', out) := maybeResolveCompactionWait c in
    (withCompaction st c', out).

Definition onAgentEnd (p : SubscribeParams) (st : Interp)
  : Interp * list emission :=
  let '(d, out) := runDebouncer p (debouncerFlush (toolDebouncer st)) in
  let st := withDebouncer st d in
  let '(c', out') :=
    if (0 <? pendingCompactionRetry (compaction st))%nat
    then resolveCompactionRetry (compaction st)
    else maybeResolveCompactionWait (compaction st) in
  (withCompaction st c', out ++ out').

(** The handler passed to [session.subscribe]. Log lines are left out. *)
Definition handleEvent (p : SubscribeParams) (st : Interp) (evt : AgentEvent)
  : Interp * list emission :=
  match evt with
  | tool_execution_start toolName toolCallId args =>
      onToolStart p st toolName toolCallId args
  | tool_execution_update toolName toolCallId partialResult =>
      onToolUpdate p st toolName toolCallId partialResult
  | tool_execution_end toolName toolCallId isError result =>
      onToolEnd p st toolName toolCallId isError result
  | message_update message assistantMessageEvent =>
      onMessageUpdate p st message assistantMessageEvent
  | message_end message => onMessageEnd p st message
  | agent_start => (st, [])
  | auto_compaction_start =>
      let c := compaction st in
      (withCompaction st
         (ensureCompactionPromise
            {| compactionInFlight := true;
               pendingCompactionRetry := pendingCompactionRetry c;
               compactionRetryResolve := compactionRetryResolve c;
               compactionRetryPromise := compactionRetryPromise c;
               promisesCreated := promisesCreated c |}), [])
  | auto_compaction_end willRetry => onCompactionEnd p st willRetry
  | agent_end => onAgentEnd p st
  | other_event _ => (st, [])
  end.

(** Events are handled one at a time, in the order the session emits
    them. *)
Fixpoint handleEvents (p : SubscribeParams) (st : Interp)
    (evts : list AgentEvent) : Interp * list emission :=
  match evts with
  | [] => (st, [])
  | evt :: evts' =>
      let '(st1, out1) := handleEvent p st evt in
      let '(st2, out2) := handleEvents p st1 evts' in
      (st2, out1 ++ out2)
  end.

End Interpreter.

(* ===================================================================== *)
(** ** The run orchestrator and the active run registry *)
(* ===================================================================== *)

(** The agent session of a run, seen from outside: the flag it reports and
    a record of the requests made to it. *)
Record Session : Type := {
  isStreaming : bool;
  abortRequests : nat;            (* calls of session.abort() *)
  queuedMessages : list str;      (* texts passed to session.queueMessage *)
  prompts : list str;             (* texts passed to session.prompt *)
  disposed : bool;                (* session.dispose() was called *)
}.

(** [undefined] is [None]; a timer that exists is armed, has fired, or was
    cleared. *)
Inductive Timer : Type := Armed | Fired | Cleared.

(** The parameters of [runEmbeddedPiAgent] that the modelled part reads.
    [abortSignal] is [Some b] when a signal is passed, with [b] its
    [aborted] flag at the time the run is set up. *)
Record RunParams : Type := {
  sessionId : str;
  prompt : str;
  abortSignal : option bool;
  sub : SubscribeParams;
}.

(** The local variables of one run that outlive a single statement. *)
Record RunVars : Type := {
  params : RunParams;
  session : Session;
  aborted : bool;
  abortTimer : option Timer;
  abortWarnTimer : option Timer;
  abortListener : bool;           (* onAbort is attached to the signal *)
  subscribed : bool;              (* the handler is attached to the session *)
  emitted : list emission;        (* what the run sent to observers *)
}.

(** What a settled [session.prompt] call gives: it resolves, or rejects
    with a value. *)
Inductive PromptResult : Type :=
| Resolved
| Rejected (err : value).

(** Truthiness of a value ([if (promptError && ...)]). *)
Definition truthyValue (v : value) : bool :=
  match v with
  | VUndefined | VNull => false
  | VBool b => b
  | VNum n => negb (n =? 0)
  | VStr s => truthy s
  | VArr _ | VObj _ => true
  end.

(** One item of [replyItems] and one item of the returned [payloads]. *)
Record ReplyItem : Type := {
  item_text : str;
  item_media : option (list str);
}.

Record Payload : Type := {
  text : option str;
  mediaUrl : option str;
  mediaUrls : option (list str);
}.

(** [EmbeddedPiRunResult]; [durationMs] and [agentMeta] are not modelled. *)
Record RunResult : Type := {
  payloads : option (list Payload);
  meta_aborted : bool;
}.

(** [inlineToolResults] of [runEmbeddedPiAgent]. *)
Definition inlineToolResults (p : SubscribeParams)
    (metas : list (str * option str)) : bool :=
  bool_decide (verboseLevel p = Some VerboseOn)
  && negb (onPartialReply p)
  && negb (onToolResult p)
  && (0 <? length metas)%nat.

(** The mapping and the filter that turn [replyItems] into [payloads]. *)
Definition toPayload (item : ReplyItem) : Payload :=
  {| text := if truthy (trim (item_text item))
             then Some (trim (item_text item)) else None;
     mediaUrls := nonEmptyUrls (item_media item);
     mediaUrl := match item_media item with
                 | Some (u :: _) => Some u
                 | _ => None
                 end |}.

Definition truthyOpt (o : option str) : bool :=
  match o with Some s => truthy s | None => false end.

Definition keepPayload (p : Payload) : bool :=
  truthyOpt (text p) || truthyOpt (mediaUrl p)
  || match mediaUrls p with
     | Some us => (0 <? length us)%nat
     | None => false
     end.

Definition buildPayloads (replyItems : list ReplyItem) : list Payload :=
  filter (fun p => keepPayload p = true) (map toPayload replyItems).

(** The process-wide state: the registry, and the variables and the
    subscription of every run, each run under its own number. A handle in
    the registry is the number of the run that created it, which is also
    its identity for [===]. *)
Record World `{Collaborators} : Type := {
  ACTIVE_EMBEDDED_RUNS : gmap str nat;
  runs : gmap nat RunVars;
  interps : gmap nat Interp;
}.

(** What the model can say of a call of [runEmbeddedPiAgent]: it returned,
    it threw, or it is still awaiting [waitForCompactionRetry()] when the
    scripted events end. *)
Inductive Outcome : Type :=
| Returned (result : RunResult)
| Threw (err : value)
| AwaitingCompaction.

(** What happens around a run while it awaits. *)
Inductive EnvEvent : Type :=
| SessionEmits (run : nat) (evt : AgentEvent)  (* the session calls the handler *)
| StreamingChanges (run : nat) (streaming : bool)
| TimeoutFires (run : nat)                     (* the abortTimer callback *)
| WarnTimerFires (run : nat)                   (* the abortWarnTimer callback *)
| AbortSignalFires (run : nat)                 (* 'abort' on params.abortSignal *)
| QueueMessageCall (sid text : str)            (* queueEmbeddedPiMessage(...) *)
| AbortRunCall (sid : str)                     (* abortEmbeddedPiRun(...) *)
| HandleInstalled (sid : str) (run : nat).     (* another run registers itself *)

Section Orchestrator.

Context `{Collaborators}.

Definition withRuns (w : World) (rs : gmap nat RunVars) : World :=
  {| ACTIVE_EMBEDDED_RUNS := ACTIVE_EMBEDDED_RUNS w; runs := rs;
     interps := interps w |}.

Definition withRegistry (w : World) (reg : gmap str nat) : World :=
  {| ACTIVE_EMBEDDED_RUNS := reg; runs := runs w; interps := interps w |}.

Definition withInterps (w : World) (sts : gmap nat Interp) : World :=
  {| ACTIVE_EMBEDDED_RUNS := ACTIVE_EMBEDDED_RUNS w; runs := runs w;
     interps := sts |}.

(** [void session.abort()] *)
Definition sessionAbort (s : Session) : Session :=
  {| isStreaming := isStreaming s; abortRequests := S (abortRequests s);
     queuedMessages := queuedMessages s; prompts := prompts s;
     disposed := disposed s |}.

(** [await session.queueMessage(text)] *)
Definition sessionQueueMessage (txt : str) (s : Session) : Session :=
  {| isStreaming := isStreaming s; abortRequests := abortRequests s;
     queuedMessages := queuedMessages s ++ [txt]; prompts := prompts s;
     disposed := disposed s |}.

Definition sessionPrompt (txt : str) (s : Session) : Session :=
  {| isStreaming := isStreaming s; abortRequests := abortRequests s;
     queuedMessages := queuedMessages s; prompts := prompts s ++ [txt];
     disposed := disposed s |}.

Definition sessionDispose (s : Session) : Session :=
  {| isStreaming := isStreaming s; abortRequests := abortRequests s;
     queuedMessages := queuedMessages s; prompts := prompts s;
     disposed := true |}.

Definition sessionSetStreaming (b : bool) (s : Session) : Session :=
  {| isStreaming := b; abortRequests := abortRequests s;
     queuedMessages := queuedMessages s; prompts := prompts s;
     disposed := disposed s |}.

Definition withSession (r : RunVars) (s : Session) : RunVars :=
  {| params := params r; session := s; aborted := aborted r;
     abortTimer := abortTimer r; abortWarnTimer := abortWarnTimer r;
     abortListener := abortListener r; subscribed := subscribed r;
     emitted := emitted r |}.

(** [abortRun] of a run: [aborted = true; void session.abort();] *)
Definition abortRun (r : RunVars) : RunVars :=
  {| params := params r; session := sessionAbort (session r);
     aborted := true;
     abortTimer := abortTimer r; abortWarnTimer := abortWarnTimer r;
     abortListener := abortListener r; subscribed := subscribed r;
     emitted := emitted r |}.

(** The three members of a run's [queueHandle], applied to its variables. *)
Definition handle_queueMessage (txt : str) (r : RunVars) : RunVars :=
  withSession r (sessionQueueMessage txt (session r)).

Definition handle_isStreaming (r : RunVars) : bool := isStreaming (session r).

Definition handle_abort (r : RunVars) : RunVars := abortRun r.

(** The exported registry functions. When the registry names a run, that
    run's variables exist: the handle is a closure over them. *)
Definition queueEmbeddedPiMessage (sid txt : str) (w : World) : bool * World :=
  match ACTIVE_EMBEDDED_RUNS w !! sid with
  | None => (false, w)
  | Some h =>
      match runs w !! h with
      | None => (false, w)
      | Some r =>
          if negb (handle_isStreaming r) then (false, w)
          else (true, withRuns w (<[h := handle_queueMessage txt r]> (runs w)))
      end
  end.

Definition abortEmbeddedPiRun (sid : str) (w : World) : bool * World :=
  match ACTIVE_EMBEDDED_RUNS w !! sid with
  | None => (false, w)
  | Some h => (true, withRuns w (alter handle_abort h (runs w)))
  end.

Definition isEmbeddedPiRunActive (sid : str) (w : World) : bool :=
  bool_decide (is_Some (ACTIVE_EMBEDDED_RUNS w !! sid)).

Definition isEmbeddedPiRunStreaming (sid : str) (w : World) : bool :=
  match ACTIVE_EMBEDDED_RUNS w !! sid with
  | None => false
  | Some h =>
      match runs w !! h with
      | None => false
      | Some r => handle_isStreaming r
      end
  end.

Definition updateRun (h : nat) (f : RunVars -> RunVars) (w : World) : World :=
  withRuns w (alter f h (runs w)).

Definition withEmitted (out : list emission) (r : RunVars) : RunVars :=
  {| params := params r; session := session r; aborted := aborted r;
     abortTimer := abortTimer r; abortWarnTimer := abortWarnTimer r;
     abortListener := abortListener r; subscribed := subscribed r;
     emitted := emitted r ++ out |}.

(** The session of run [h] calls the handler that the run subscribed; after
    [unsubscribe()] it no longer does. *)
Definition deliver (h : nat) (evt : AgentEvent) (w : World) : World :=
  match runs w !! h, interps w !! h with
  | Some r, Some st =>
      if subscribed r then
        let '(st', out) := handleEvent (sub (params r)) st evt in
        {| ACTIVE_EMBEDDED_RUNS := ACTIVE_EMBEDDED_RUNS w;
           runs := <[h := withEmitted out r]> (runs w);
           interps := <[h := st']> (interps w) |}
      else w
  | _, _ => w
  end.

(** The callback of [abortTimer]: [abortRun()], then the warning timer is
    armed unless one exists. A timer fires once, and only while armed. *)
Definition onTimeout (r : RunVars) : RunVars :=
  match abortTimer r with
  | Some Armed =>
      let r := abortRun r in
      {| params := params r; session := session r; aborted := aborted r;
         abortTimer := Some Fired;
         abortWarnTimer := match abortWarnTimer r with
                           | None => Some Armed
                           | Some t => Some t
                           end;
         abortListener := abortListener r; subscribed := subscribed r;
         emitted := emitted r |}
  | _ => r
  end.

(** The callback of [abortWarnTimer] only writes a log line. *)
Definition onWarnTimer (r : RunVars) : RunVars :=
  match abortWarnTimer r with
  | Some Armed =>
      {| params := params r; session := session r; aborted := aborted r;
         abortTimer := abortTimer r; abortWarnTimer := Some Fired;
         abortListener := abortListener r; subscribed := subscribed r;
         emitted := emitted r |}
  | _ => r
  end.

(** [onAbort], attached with [{ once: true }]. *)
Definition onAbortSignal (r : RunVars) : RunVars :=
  if abortListener r then
    let r := abortRun r in
    {| params := params r; session := session r; aborted := aborted r;
       abortTimer := abortTimer r; abortWarnTimer := abortWarnTimer r;
       abortListener := false; subscribed := subscribed r;
       emitted := emitted r |}
  else r.

Definition envStep (w : World) (e : EnvEvent) : World :=
  match e with
  | SessionEmits h evt => deliver h evt w
  | StreamingChanges h b =>
      updateRun h (fun r => withSession r (sessionSetStreaming b (session r))) w
  | TimeoutFires h => updateRun h onTimeout w
  | WarnTimerFires h => updateRun h onWarnTimer w
  | AbortSignalFires h => updateRun h onAbortSignal w
  | QueueMessageCall sid txt => snd (queueEmbeddedPiMessage sid txt w)
  | AbortRunCall sid => snd (abortEmbeddedPiRun sid w)
  | HandleInstalled sid h' => withRegistry w (<[sid := h']> (ACTIVE_EMBEDDED_RUNS w))
  end.

Definition envSteps (w : World) (es : list EnvEvent) : World :=
  foldl envStep w es.

Definition newSession : Session :=
  {| isStreaming := false; abortRequests := 0; queuedMessages := [];
     prompts := []; disposed := false |}.

(** From [let aborted = ...] to the wiring of the abort signal: the run
    registers its handle, subscribes, starts the timer and listens to the
    signal (or aborts at once when the signal is already aborted). *)
Definition startRun (h : nat) (p : RunParams) (w : World) : World :=
  let r := {| params := p; session := newSession;
              aborted := default false (abortSignal p);
              abortTimer := Some Armed; abortWarnTimer := None;
              abortListener := false; subscribed := true; emitted := [] |} in
  let r :=
    match abortSignal p with
    | Some true => abortRun r
    | Some false =>
        {| params := params r; session := session r; aborted := aborted r;
           abortTimer := abortTimer r; abortWarnTimer := abortWarnTimer r;
           abortListener := true; subscribed := subscribed r;
           emitted := emitted r |}
    | None => r
    end in
  {| ACTIVE_EMBEDDED_RUNS := <[sessionId p := h]> (ACTIVE_EMBEDDED_RUNS w);
     runs := <[h := r]> (runs w);
     interps := <[h := initialInterp]> (interps w) |}.

Definition compactionBusy (c : Compaction) : bool :=
  compactionInFlight c || (0 <? pendingCompactionRetry c)%nat.

(** What [waitForCompactionRetry()] returns: the compaction promise, a
    promise that is resolved already ([Promise.resolve()]), or a promise
    of its own, whose fate the microtask that the call has queued
    decides. *)
Inductive Awaited : Type :=
| OnCompaction (promise : nat)
| Settled
| OnMicrotask.

Definition waitForCompactionRetry (st : Interp) : Interp * Awaited :=
  if compactionBusy (compaction st) then
    let c := ensureCompactionPromise (compaction st) in
    (withCompaction st c,
     match compactionRetryPromise c with
     | Some k => OnCompaction k
     | None => Settled
     end)
  else (st, OnMicrotask).

(** The callback that [waitForCompactionRetry()] passes to
    [queueMicrotask] when it finds no compaction in flight or owed: it
    looks again. The promise that the call returned then follows the
    compaction promise ([Some]), or is resolved ([None]). *)
Definition recheckInMicrotask (st : Interp) : Interp * option nat :=
  if compactionBusy (compaction st) then
    let c := ensureCompactionPromise (compaction st) in
    (withCompaction st c, compactionRetryPromise c)
  else (st, None).

Definition isResolution (k : nat) (e : emission) : bool :=
  match e with
  | CompactionRetryResolved k' => Nat.eqb k k'
  | _ => false
  end.

Definition promiseResolved (h k : nat) (w : World) : bool :=
  match runs w !! h with
  | Some r => existsb (isResolution k) (emitted r)
  | None => false
  end.

(** Awaiting promise [k] of run [h]: events go on until the promise is
    resolved. [None]: the scripted events end first. *)
Fixpoint awaitPromise (h k : nat) (es : list EnvEvent) (w : World)
  : option World :=
  if promiseResolved h k w then Some w
  else match es with
       | [] => None
       | e :: es' => awaitPromise h k es' (envStep w e)
       end.

(** The world when the wait on promise [k] ends, or else the world after
    all the events, and whether the wait ended. *)
Definition awaitOrPend (h k : nat) (es : list EnvEvent) (w : World)
  : World * bool :=
  match awaitPromise h k es w with
  | Some w' => (w', true)
  | None => (envSteps w es, false)
  end.

(** The statements of the inner [finally] that touch the run's variables.
    [clearTimeout] stops an armed timer and does nothing to one that has
    fired. *)
Definition clearTimer (t : option Timer) : option Timer :=
  match t with
  | Some Armed => Some Cleared
  | other => other
  end.

Definition clearTimers (r : RunVars) : RunVars :=
  {| params := params r; session := session r; aborted := aborted r;
     abortTimer := clearTimer (abortTimer r);
     abortWarnTimer := None;
     abortListener := abortListener r; subscribed := subscribed r;
     emitted := emitted r |}.

Definition unsubscribe (r : RunVars) : RunVars :=
  {| params := params r; session := session r; aborted := aborted r;
     abortTimer := abortTimer r; abortWarnTimer := abortWarnTimer r;
     abortListener := abortListener r; subscribed := false;
     emitted := emitted r |}.

Definition disposeSession (r : RunVars) : RunVars :=
  withSession r (sessionDispose (session r)).

Definition removeAbortListener (r : RunVars) : RunVars :=
  {| params := params r; session := session r; aborted := aborted r;
     abortTimer := abortTimer r; abortWarnTimer := abortWarnTimer r;
     abortListener := false; subscribed := subscribed r;
     emitted := emitted r |}.

Definition flushToolDebouncer (h : nat) (w : World) : World :=
  match runs w !! h, interps w !! h with
  | Some r, Some st =>
      let '(d, out) :=
        runDebouncer (sub (params r)) (debouncerFlush (toolDebouncer st)) in
      {| ACTIVE_EMBEDDED_RUNS := ACTIVE_EMBEDDED_RUNS w;
         runs := <[h := withEmitted out r]> (runs w);
         interps := <[h := withDebouncer st d]> (interps w) |}
  | _, _ => w
  end.

(** [if (ACTIVE_EMBEDDED_RUNS.get(sessionId) === queueHandle) delete] *)
Definition releaseHandle (h : nat) (sid : str) (w : World) : World :=
  if bool_decide (ACTIVE_EMBEDDED_RUNS w !! sid = Some h)
  then withRegistry w (delete sid (ACTIVE_EMBEDDED_RUNS w))
  else w.

(** The inner [finally], statement by statement. *)
Definition cleanup (h : nat) (p : RunParams) (w : World) : World :=
  let w := updateRun h clearTimers w in
  let w := updateRun h unsubscribe w in
  let w := flushToolDebouncer h w in
  let w := releaseHandle h (sessionId p) w in
  let w := updateRun h disposeSession w in
  updateRun h removeAbortListener w.

(** The last assistant message of [messagesSnapshot]. *)
Definition lastAssistantOf (messages : list AgentMessage)
  : option AgentMessage :=
  head (filter (fun m => role m = js "assistant") (rev messages)).

Definition toolReplyItem (tm : str * option str) : list ReplyItem :=
  let agg := formatToolAggregate (fst tm) (metaList (snd tm) (Some [])) in
  let '(cleanedText, mediaUrls) := splitMediaFromOutput agg in
  if truthy cleanedText
  then [{| item_text := cleanedText; item_media := mediaUrls |}]
  else [].

Definition textReplyItem (txt : str) : list ReplyItem :=
  let '(cleanedText, mediaUrls) := splitMediaFromOutput txt in
  if negb (truthy cleanedText)
     && negb (bool_decide (is_Some (nonEmptyUrls mediaUrls)))
  then []
  else [{| item_text := cleanedText; item_media := mediaUrls |}].

(** [replyItems], in the order the source pushes them. *)
Definition replyItemsOf (p : SubscribeParams)
    (lastAssistant : option AgentMessage) (texts : list str)
    (metas : list (str * option str)) : list ReplyItem :=
  let errorText :=
    match lastAssistant with
    | Some m => formatAssistantErrorText m
    | None => None
    end in
  (match errorText with
   | Some e => if truthy e then [{| item_text := e; item_media := None |}]
               else []
   | None => []
   end)
  ++ (if inlineToolResults p metas
      then concat (map toolReplyItem metas) else [])
  ++ concat (map textReplyItem
               (match texts with
                | _ :: _ => texts
                | [] => match lastAssistant with
                        | Some m => [extractAssistantText m]
                        | None => []
                        end
                end)).

Definition resultOf (p : SubscribeParams) (messages : list AgentMessage)
    (r : RunVars) (st : Interp) : RunResult :=
  let ps := buildPayloads
              (replyItemsOf p (lastAssistantOf messages)
                 (assistantTexts (acc st)) (toolMetas (tools st))) in
  {| payloads := match ps with [] => None | _ :: _ => Some ps end;
     meta_aborted := aborted r |}.

(** What the environment does during one run. The events during the
    compaction wait come in two parts: those that fall between the call
    of [waitForCompactionRetry()] and the microtask that the call may
    have queued (the handlers of jobs that were queued before it), and
    those that fall after. When the call finds compaction in flight or
    owed there is no microtask, and the two parts are the events of the
    wait, in this order. *)
Record Script : Type := {
  duringPrompt : list EnvEvent;      (* while [session.prompt] is pending *)
  promptResult : PromptResult;
  beforeMicrotask : list EnvEvent;   (* after the call, before its microtask *)
  duringWait : list EnvEvent;        (* after that, while the run awaits the
                                        compaction promise *)
  messagesSnapshot : list AgentMessage;
}.

(** [runEmbeddedPiAgent] from the creation of the run's handle on, for the
    run numbered [h]: set-up, the prompt call with the events that fall
    while it is pending, the compaction wait with its microtask, the inner
    [finally], the rethrow of a captured prompt error unless the run is
    aborted, and the result. The branches on a missing entry of the run
    are not reached: [startRun] makes the entries and nothing removes
    them ([promptSettled_entries], [cleanup_spec]). *)
Definition runEmbeddedPiAgent (h : nat) (p : RunParams) (sc : Script)
    (w : World) : Outcome * World :=
  let w := startRun h p w in
  let w := updateRun h (fun r => withSession r (sessionPrompt (prompt p) (session r))) w in
  let w := envSteps w (duringPrompt sc) in
  let promptError :=
    match promptResult sc with
    | Rejected err => err
    | Resolved => VNull
    end in
  match interps w !! h with
  | None => (AwaitingCompaction, w)
  | Some st =>
      let '(st', awaited) := waitForCompactionRetry st in
      let w := withInterps w (<[h := st']> (interps w)) in
      let '(w, ended) :=
        match awaited with
        | OnCompaction k =>
            awaitOrPend h k (beforeMicrotask sc ++ duringWait sc) w
        | Settled => (w, true)
        | OnMicrotask =>
            let w := envSteps w (beforeMicrotask sc) in
            match interps w !! h with
            | None => (w, false)
            | Some st =>
                let '(st', followed) := recheckInMicrotask st in
                let w := withInterps w (<[h := st']> (interps w)) in
                match followed with
                | Some k => awaitOrPend h k (duringWait sc) w
                | None => (w, true)
                end
            end
        end in
      if negb ended then (AwaitingCompaction, w)
      else
        let w := cleanup h p w in
        match runs w !! h, interps w !! h with
        | Some r, Some st =>
            if truthyValue promptError && negb (aborted r)
            then (Threw promptError, w)
            else (Returned (resultOf (sub p) (messagesSnapshot sc) r st), w)
        | _, _ => (AwaitingCompaction, w)
        end
  end.

End Orchestrator.

(* ===================================================================== *)
(** ** Lanes, credentials and skills *)
(* ===================================================================== *)

(** [s.startsWith(prefix)] *)
Definition startsWith (prefix s : str) : bool :=
  bool_decide (take (length prefix) s = prefix).

Definition resolveSessionLane (key : str) : str :=
  let cleaned := if truthy (trim key) then trim key else js "main" in
  if startsWith (js "session:") cleaned then cleaned
  else js "session:" ++ cleaned.

(** [lane] is [None] when the argument is left out. *)
Definition resolveGlobalLane (lane : option str) : str :=
  match lane with
  | Some l => if truthy (trim l) then trim l else js "main"
  | None => js "main"
  end.

Definition resolveEmbeddedSessionLane (key : str) : str :=
  resolveSessionLane key.

(** The argument of [resolveSessionLane] in [runEmbeddedPiAgent]:
    [params.sessionKey?.trim() || params.sessionId]. *)
Definition sessionLaneOf (sessionKey : option str) (sessionId : str) : str :=
  resolveSessionLane
    (match sessionKey with
     | Some k => if truthy (trim k) then trim k else sessionId
     | None => sessionId
     end).

(** [a ?? b] on a property read: [undefined] (also a missing property) and
    [null] give way to [b]. *)
Definition coalesce (a : option value) (b : value) : value :=
  match a with
  | None | Some VUndefined | Some VNull => b
  | Some v => v
  end.

(** [v.trim()]: a string is trimmed; on any other value the call throws a
    [TypeError], which is [None]. *)
Definition trimOf (v : value) : option str :=
  match v with
  | VStr s => Some (trim s)
  | _ => None
  end.

(** The properties of a value as [entry.k] reads them: an array or a
    primitive has none of the token properties. *)
Definition propsOf (v : value) : Obj.t :=
  match v with
  | VObj o => o
  | _ => []
  end.

(** Reading a property of [null] or [undefined] throws a [TypeError]. *)
Definition nullish (v : value) : bool :=
  match v with
  | VNull | VUndefined => true
  | _ => false
  end.

(** [hasAnthropicOAuth]. [None]: the call throws, at [storage.anthropic]
    when the storage is [null] or [undefined], or at [.trim()] on a token
    that is no string. In [refresh.trim() && access.trim()] the right
    side is evaluated only when the left is a non-empty string. *)
Definition hasAnthropicOAuth (storage : value) : option bool :=
  if nullish storage then None else
  match Obj.get (js "anthropic") (propsOf storage) with
  | None => Some false
  | Some entry =>
      if negb (truthyValue entry) then Some false
      else
        let e := propsOf entry in
        let refresh :=
          coalesce (Obj.get (js "refresh") e)
            (coalesce (Obj.get (js "refresh_token") e)
               (coalesce (Obj.get (js "refreshToken") e) (VStr []))) in
        let access :=
          coalesce (Obj.get (js "access") e)
            (coalesce (Obj.get (js "access_token") e)
               (coalesce (Obj.get (js "accessToken") e) (VStr []))) in
        match trimOf refresh with
        | None => None
        | Some r =>
            if truthy r then
              match trimOf access with
              | None => None
              | Some a => Some (truthy a)
              end
            else Some false
        end
  end.

Definition isOAuthProvider (provider : str) : bool :=
  bool_decide (provider = js "anthropic")
  || bool_decide (provider = js "github-copilot")
  || bool_decide (provider = js "google-gemini-cli")
  || bool_decide (provider = js "google-antigravity").

(** A skill as far as [resolvePromptSkills] looks into it. *)
Record Skill : Type := {
  skill_name : str;
  skill_body : value;
}.

Record SkillEntry : Type := {
  entry_skill : Skill;
}.

Record SkillSnapshot : Type := {
  snapshot_skills : list str;                (* the [name] of each entry *)
  resolvedSkills : option (list Skill);
}.

(** [new Map(entries.map(e => [e.skill.name, e.skill]))]: a later entry
    replaces an earlier one of the same name. *)
Definition entryByName (entries : list SkillEntry) : gmap str Skill :=
  foldl (fun m e => <[skill_name (entry_skill e) := entry_skill e]> m)
        ∅ entries.

Definition resolvePromptSkills (snapshot : SkillSnapshot)
    (entries : list SkillEntry) : list Skill :=
  match resolvedSkills snapshot with
  | Some (s :: l) => s :: l
  | _ =>
      let snapshotNames := snapshot_skills snapshot in
      match snapshotNames with
      | [] => []
      | _ :: _ => omap (fun name => entryByName entries !! name) snapshotNames
      end
  end.

(* ===================================================================== *)
(** ** The OAuth credential store *)
(* ===================================================================== *)

(** What the store asks of its host: the file system calls ([fs] of
    Node.js), [JSON], [path], [os], the environment of the process, and
    the two key lookups of the libraries. A file system call gives the
    state it leaves and whether it returned ([false]: it threw); a read
    that throws gives [None]. *)
Inductive OAuthLookup : Type :=
| LookupThrows
| LookupNothing                                   (* [null] *)
| LookupResult (apiKey : str) (newCredentials : value).

Class Host : Type := {
  FS : Type;
  existsSync : str -> FS -> bool;
  readFileSync : str -> FS -> option str;
  mkdirSync : str -> N -> FS -> FS * bool;        (* [recursive: true] *)
  writeFileSync : str -> str -> FS -> FS * bool;
  chmodSync : str -> N -> FS -> FS * bool;
  JSON_parse : str -> option value;               (* [None]: it throws *)
  JSON_stringify : value -> str;                  (* [(v, null, 2)] *)
  dirname : str -> str;
  path_join : list str -> str;
  resolveUserPath : str -> str;
  homedir : str;
  CONFIG_DIR : str;
  env : str -> option str;                        (* [process.env] *)
  getEnvApiKey : str -> option str;
  getOAuthApiKey : str -> value -> OAuthLookup;
}.

(** [Array.from(new Set(paths))]: the first occurrence of each path, in
    order. *)
Definition uniq (paths : list str) : list str :=
  foldl (fun seen x => if bool_decide (x ∈ seen) then seen else seen ++ [x])
        [] paths.

Section OAuthStore.

Context `{Host}.

Definition OAUTH_FILENAME : str := js "oauth.json".

Definition DEFAULT_OAUTH_DIR : str := path_join [CONFIG_DIR; js "credentials"].

(** [process.env.NAME?.trim()] where the code tests it for truth. *)
Definition envTrimmed (name : str) : option str :=
  match env name with
  | Some v => if truthy (trim v) then Some (trim v) else None
  | None => None
  end.

Definition resolveClawdisOAuthPath : str :=
  path_join [resolveUserPath
               (default DEFAULT_OAUTH_DIR (envTrimmed (js "CLAWDIS_OAUTH_DIR")));
             OAUTH_FILENAME].

(** [null] is [None]. An array is an object for [typeof]. *)
Definition loadOAuthStorageAt (pathname : str) (fs : FS) : option value :=
  if negb (existsSync pathname fs) then None
  else
    match readFileSync pathname fs with
    | None => None
    | Some content =>
        match JSON_parse content with
        | Some (VObj o) => Some (VObj o)
        | Some (VArr a) => Some (VArr a)
        | _ => None
        end
    end.

Definition saveOAuthStorageAt (pathname : str) (storage : value) (fs : FS)
  : FS * bool :=
  let '(fs1, ok1) := mkdirSync (dirname pathname) 448 fs in      (* 0o700 *)
  if negb ok1 then (fs1, false)
  else
    let '(fs2, ok2) :=
      writeFileSync pathname (JSON_stringify storage ++ [10]) fs1 in
    if negb ok2 then (fs2, false)
    else chmodSync pathname 384 fs2.                             (* 0o600 *)

Definition legacyOAuthPaths : list str :=
  uniq ((match envTrimmed (js "PI_CODING_AGENT_DIR") with
         | Some piOverride =>
             [path_join [resolveUserPath piOverride; OAUTH_FILENAME]]
         | None => []
         end)
        ++ [path_join [homedir; js ".pi"; js "agent"; OAUTH_FILENAME];
            path_join [homedir; js ".claude"; OAUTH_FILENAME];
            path_join [homedir; js ".config"; js "claude"; OAUTH_FILENAME];
            path_join [homedir; js ".config"; js "anthropic";
                       OAUTH_FILENAME]]).

(** The loop of [importLegacyOAuthIfNeeded]. *)
Fixpoint importFrom (destPath : str) (paths : list str) (fs : FS)
  : FS * bool :=
  match paths with
  | [] => (fs, true)
  | legacyPath :: rest =>
      match loadOAuthStorageAt legacyPath fs with
      | None => importFrom destPath rest fs
      | Some storage =>
          match hasAnthropicOAuth storage with
          | None => (fs, false)
          | Some false => importFrom destPath rest fs
          | Some true => saveOAuthStorageAt destPath storage fs
          end
      end
  end.

Definition importLegacyOAuthIfNeeded (destPath : str) (fs : FS) : FS * bool :=
  if existsSync destPath fs then (fs, true)
  else importFrom destPath legacyOAuthPaths fs.

(** The module variable [oauthStorageConfigured] and the file system. *)
Record OAuthState : Type := {
  oauthStorageConfigured : bool;
  files : FS;
}.

Definition ensureOAuthStorage (s : OAuthState) : OAuthState * bool :=
  if oauthStorageConfigured s then (s, true)
  else
    let '(fs', ok) := importLegacyOAuthIfNeeded resolveClawdisOAuthPath
                        (files s) in
    ({| oauthStorageConfigured := true; files := fs' |}, ok).

(** How [getApiKeyForModel] ends: with a key, with the error
    [No API key found for provider ...], or with what
    [ensureOAuthStorage] threw. *)
Inductive KeyOutcome : Type :=
| KeyFound (key : str)
| NoApiKeyFound (provider : str)
| StoreThrew.

(** [storage[model.provider] = result.newCredentials]; a named property
    put on an array is not written out by [JSON.stringify]. *)
Definition withCredentials (provider : str) (creds : value) (storage : value)
  : value :=
  match storage with
  | VObj o => VObj (Obj.set provider creds o)
  | other => other
  end.

(** [getApiKeyForModel], with [storedKey] what
    [authStorage.getApiKey(model.provider)] resolved to. *)
Definition getApiKeyForModel (provider : str) (storedKey : option str)
    (s : OAuthState) : OAuthState * KeyOutcome :=
  match (match storedKey with
         | Some k => if truthy k then Some k else None
         | None => None
         end) with
  | Some k => (s, KeyFound k)
  | None =>
   let '(s, ok) := ensureOAuthStorage s in
   if negb ok then (s, StoreThrew)
   else
     match (if bool_decide (provider = js "anthropic")
            then envTrimmed (js "ANTHROPIC_OAUTH_TOKEN") else None) with
     | Some oauthEnv => (s, KeyFound oauthEnv)
     | None =>
         match (match getEnvApiKey provider with
                | Some k => if truthy k then Some k else None
                | None => None
                end) with
         | Some envKey => (s, KeyFound envKey)
         | None =>
             if negb (isOAuthProvider provider)
             then (s, NoApiKeyFound provider)
             else
               match loadOAuthStorageAt resolveClawdisOAuthPath (files s) with
               | None => (s, NoApiKeyFound provider)
               | Some storage =>
                   match getOAuthApiKey provider storage with
                   | LookupResult apiKey creds =>
                       if negb (truthy apiKey) then (s, NoApiKeyFound provider)
                       else
                         let '(fs', ok) :=
                           saveOAuthStorageAt resolveClawdisOAuthPath
                             (withCredentials provider creds storage)
                             (files s) in
                         ({| oauthStorageConfigured := oauthStorageConfigured s;
                             files := fs' |},
                          if ok then KeyFound apiKey
                          else NoApiKeyFound provider)
                   | _ => (s, NoApiKeyFound provider)
                   end
               end
         end
     end
  end.

End OAuthStore.

(* ===================================================================== *)
(** ** Vocabulary of the statements *)
(* ===================================================================== *)

(** The tag expressions all begin with the literal [<]. *)
Definition startsWithLt (r : regex) : Prop :=
  exists r', r = Seq (Chr LT) r'.

(** Text without [<]: it holds no tag, and no part of one. *)
Definition noLt (s : str) : Prop := Forall (fun c => c <> LT) s.

(** A marker text that an expression matches, whatever follows it; a marker
    text at whose [<] an expression finds no match, whatever follows it. *)
Definition hits (r : regex) (t : str) : Prop :=
  forall s, matchAt r (t ++ s) = Some s.

Definition misses (r : regex) (t : str) : Prop :=
  forall s, matchAt r (t ++ s) = None.

(** A text that is [<] followed by text without [<]. *)
Definition tagShaped (t : str) : Prop :=
  exists t', t = LT :: t' /\ noLt t'.

(** The four kinds of marker, by what the expressions of the source make
    of them: a thinking open marker such as [<think>], [<thinking>] or
    [< Think >]; a thinking close marker such as [</think>]; a final open
    marker such as [<final>]; a final close marker such as [</final>]. *)
Definition thinkingOpen (o : str) : Prop :=
  tagShaped o /\ hits THINKING_TAG_RE o /\ hits THINKING_OPEN_RE o
  /\ misses THINKING_CLOSE_RE o /\ includes SLASH (toLowerCase o) = false.

Definition thinkingClose (c : str) : Prop :=
  tagShaped c /\ hits THINKING_TAG_RE c /\ hits THINKING_CLOSE_RE c
  /\ misses THINKING_OPEN_RE c /\ includes SLASH (toLowerCase c) = true.

Definition finalOpen (o : str) : Prop :=
  tagShaped o /\ hits FINAL_START_RE o /\ misses FINAL_END_RE o
  /\ misses THINKING_TAG_RE o /\ misses THINKING_OPEN_RE o
  /\ misses THINKING_CLOSE_RE o.

Definition finalClose (c : str) : Prop :=
  tagShaped c /\ hits FINAL_END_RE c /\ misses FINAL_START_RE c
  /\ misses THINKING_TAG_RE c /\ misses THINKING_OPEN_RE c
  /\ misses THINKING_CLOSE_RE c.

(** The result of a search after [pre] has been skipped. *)
Definition shiftMatch (pre : str) (o : option (str * str * str))
  : option (str * str * str) :=
  match o with
  | Some (p, m, q) => Some (pre ++ p, m, q)
  | None => None
  end.

(** A stream of text deltas closed by the end of the text segment, as the
    session emits it for an assistant message [msg]. The closing event
    carries no text of its own (a string [delta] or [content] on it would
    be appended to the buffer like any other chunk), so the accumulated
    text is the concatenation of the deltas. *)
Definition textDelta (msg : AgentMessage) (chunk : str) : AgentEvent :=
  message_update (Some msg)
    (VObj [(js "type", VStr (js "text_delta")); (js "delta", VStr chunk)]).

Definition textEnd (msg : AgentMessage) : AgentEvent :=
  message_update (Some msg) (VObj [(js "type", VStr (js "text_end"))]).

Definition deltaStream (msg : AgentMessage) (chunks : list str)
  : list AgentEvent :=
  map (textDelta msg) chunks ++ [textEnd msg].

(** The blocks finalized by a subscription that starts fresh and sees
    [evts]. *)
Definition finalizedBlocks `{Collaborators} (p : SubscribeParams)
    (evts : list AgentEvent) : list str :=
  assistantTexts (acc (fst (handleEvents p initialInterp evts))).

(** Stand-ins for the collaborators, for closed examples: no media in any
    text, a tool summary is the tool name, a message's text is its body,
    and the debouncer keeps each push until the next flush. *)
Definition plainCollaborators : Collaborators :=
  {| inferToolMetaFromArgs := fun _ _ => None;
     formatToolAggregate := fun name _ => name;
     splitMediaFromOutput := fun s => (s, None);
     extractAssistantText :=
       fun m => match body m with VStr s => s | _ => [] end;
     formatAssistantErrorText := fun _ => None;
     Debouncer := list (str * list str);
     debouncerNew := [];
     debouncerPush :=
       fun name meta d =>
         (d ++ [(name, match meta with Some m => [m] | None => [] end)], []);
     debouncerFlush := fun d => ([], d) |}.

Definition assistantMsg : AgentMessage :=
  {| role := js "assistant"; body := VNull |}.

(** Subscription parameters with every option left out, but for
    [enforceFinalTag]. *)
Definition plainParams (enforce : bool) : SubscribeParams :=
  {| runId := js "run-1"; verboseLevel := None; shouldEmitToolResult := None;
     onToolResult := false; onBlockReply := false; blockReplyBreak := None;
     onPartialReply := false; onAgentEvent := false;
     enforceFinalTag := enforce |}.

(** What sanitizing does to one content item [item], giving [item']:
    - a text item (type ["text"], string [text]) keeps every other property
      and has its text cut to the budget, with the marker appended, when it
      is longer than the budget, and is returned as it is otherwise;
    - an image item (type ["image"]) loses [data], gains [omitted: true]
      and [bytes], which is the length of [data] when that was a non-empty
      string and [undefined] otherwise, and keeps every other property;
    - any other item is returned as it is. *)
Definition sanitizedAs (item item' : value) : Prop :=
  match item with
  | VObj entry =>
      let type := asString (Obj.get (js "type") entry) in
      if decide (type = Some (js "text")) then
        match asString (Obj.get (js "text") entry) with
        | Some t =>
            exists entry',
              item' = VObj entry'
              /\ Obj.get (js "text") entry'
                 = Some (VStr (if strlen t <=? 8000 then t
                               else take (N.to_nat 8000) t
                                    ++ TRUNCATED_SUFFIX))
              /\ (forall k, k <> js "text" ->
                            Obj.get k entry' = Obj.get k entry)
              /\ ((strlen t <=? 8000) = true -> item' = item)
        | None => item' = item
        end
      else if decide (type = Some (js "image")) then
        exists entry',
          item' = VObj entry'
          /\ Obj.get (js "data") entry' = None
          /\ Obj.get (js "omitted") entry' = Some (VBool true)
          /\ Obj.get (js "bytes") entry'
             = Some (match asString (Obj.get (js "data") entry) with
                     | Some (c :: d) => VNum (strlen (c :: d))
                     | _ => VUndefined
                     end)
          /\ forall k, k <> js "data" -> k <> js "bytes" -> k <> js "omitted" ->
                       Obj.get k entry' = Obj.get k entry
      else item' = item
  | _ => item' = item
  end.

(** A candidate reply item that has trimmed text or a media reference, and
    a payload item that carries trimmed, non-empty text or at least one
    media reference. *)
Definition hasContent (item : ReplyItem) : bool :=
  truthy (trim (item_text item))
  || bool_decide (is_Some (nonEmptyUrls (item_media item))).

Definition carriesContent (pl : Payload) : Prop :=
  (exists t, text pl = Some t /\ t <> [] /\ trim t = t)
  \/ (exists u us, mediaUrls pl = Some (u :: us) /\ mediaUrl pl = Some u).

(** The process before any run, and run parameters for closed examples. *)
Definition emptyWorld `{Collaborators} : World :=
  {| ACTIVE_EMBEDDED_RUNS := ∅; runs := ∅; interps := ∅ |}.

Definition plainRun (sid : str) (enforce : bool) : RunParams :=
  {| sessionId := sid; prompt := js "hello"; abortSignal := Some false;
     sub := plainParams enforce |}.

(** What a run's entry in the world says of its abort state: the flag and
    the number of stop requests its session has received. *)
Definition abortState `{Collaborators} (h : nat) (w : World)
  : option (bool * nat) :=
  (fun r => (aborted r, abortRequests (session r))) <$> runs w !! h.

(** The abort timer has not fired yet, or the run is aborted. *)
Definition timerInv (r : RunVars) : Prop :=
  abortTimer r = Some Armed \/ aborted r = true.

(** The world at the moment the prompt call of run [h] settles. *)
Definition promptSettled `{Collaborators} (h : nat) (p : RunParams)
    (sc : Script) (w : World) : World :=
  envSteps
    (updateRun h (fun r => withSession r (sessionPrompt (prompt p) (session r)))
       (startRun h p w))
    (duringPrompt sc).

(** No compaction is in flight or owed for run [h] in [w]. *)
Definition compactionIdle `{Collaborators} (h : nat) (w : World) : Prop :=
  exists st, interps w !! h = Some st
             /\ compactionBusy (compaction st) = false.

(** The world when the microtask of the compaction wait runs: the events
    that fall between the call and the microtask have happened. *)
Definition atMicrotask `{Collaborators} (h : nat) (p : RunParams)
    (sc : Script) (w : World) : World :=
  envSteps (promptSettled h p sc w) (beforeMicrotask sc).

(** The inner [finally] of run [h] has run: no timer is armed, the handler
    is unsubscribed, the debouncer was flushed, the registry does not hold
    the run's handle, the session is disposed and the abort listener is
    detached. *)
Definition cleanedUp `{Collaborators} (h : nat) (sid : str) (w : World)
  : Prop :=
  exists r st,
    runs w !! h = Some r /\ interps w !! h = Some st
    /\ abortTimer r <> Some Armed /\ abortWarnTimer r = None
    /\ subscribed r = false
    /\ (exists d, toolDebouncer st = fst (debouncerFlush d))
    /\ ACTIVE_EMBEDDED_RUNS w !! sid <> Some h
    /\ disposed (session r) = true
    /\ abortListener r = false.

(** The [aborted] variable of run [h]. *)
Definition abortedIn `{Collaborators} (h : nat) (w : World) : option bool :=
  aborted <$> runs w !! h.

(** Two runs side by side, each with text finalized and more streaming. *)
Definition twoRuns : World :=
  envSteps
    (@startRun plainCollaborators 1 (plainRun (js "s2") false)
       (startRun 0 (plainRun (js "s1") false) emptyWorld))
    [SessionEmits 0 (tool_execution_start (js "bash") (js "c1") VNull);
     SessionEmits 0 (tool_execution_end (js "bash") (js "c1") false VNull);
     SessionEmits 0 (textDelta assistantMsg (js "one"));
     SessionEmits 0 (textEnd assistantMsg);
     SessionEmits 1 (textDelta assistantMsg (js "other"));
     SessionEmits 1 (textEnd assistantMsg);
     SessionEmits 0 (textDelta assistantMsg (js "two"))].

(** What stays true of a run's variables whatever happens around it: an
    aborted run stays aborted, and [timerInv] is kept. *)
Definition advances (r r' : RunVars) : Prop :=
  (aborted r = true -> aborted r' = true) /\ (timerInv r -> timerInv r').

(** A prompt rejection with an error object, and a script around it. *)
Definition promptFailure : value :=
  VObj [(js "name", VStr (js "Error")); (js "message", VStr (js "boom"))].

Definition failingScript (events : list EnvEvent) : Script :=
  {| duringPrompt := events; promptResult := Rejected promptFailure;
     beforeMicrotask := []; duringWait := []; messagesSnapshot := [] |}.

(** The events by which the session of run [h] opens a compaction cycle or
    announces a retry. *)
Definition startsCompaction (h : nat) (e : EnvEvent) : bool :=
  match e with
  | SessionEmits h' auto_compaction_start => Nat.eqb h h'
  | SessionEmits h' (auto_compaction_end true) => Nat.eqb h h'
  | _ => false
  end.

(** The events that can set [aborted] of run [h]: its timeout, the abort
    signal it listens to, and a call of [abortEmbeddedPiRun]. *)
Definition mayAbort (h : nat) (e : EnvEvent) : bool :=
  match e with
  | TimeoutFires h' | AbortSignalFires h' => Nat.eqb h h'
  | AbortRunCall _ => true
  | _ => false
  end.


(** The value in [promptError] after the prompt call. *)
Definition promptErrorOf (sc : Script) : value :=
  match promptResult sc with
  | Rejected err => err
  | Resolved => VNull
  end.

(** The flag of a run and the requests to its session are in step: the
    run is flagged aborted exactly when its session has been asked to
    stop, and a warning timer exists only after the timeout has fired. *)
Definition accounted (r : RunVars) : Prop :=
  (aborted r = true <-> (0 < abortRequests (session r))%nat)
  /\ (abortWarnTimer r <> None -> abortTimer r = Some Fired /\ aborted r = true).

(** *** Vocabulary for the interpreter over whole streams *)

(** The blocks that a sequence of derived texts finalizes, one text per
    text segment, when the previously finalized text is [last]: a text is
    finalized unless it is empty or equal to the text of the segment just
    before it. *)
Fixpoint blocksOf (last : option str) (nexts : list str) : list str :=
  match nexts with
  | [] => []
  | next :: rest =>
      (if truthy next && negb (bool_decide (Some next = last))
       then [next] else [])
      ++ blocksOf (orUndefined next) rest
  end.

(** The derived text of a segment received in [chunks]. *)
Definition segmentText (enforce : bool) (chunks : list str) : str :=
  nextOf enforce (cleanedOf enforce (concat chunks)).

(** Several text segments of one message, one after the other. *)
Definition segmentsStream (msg : AgentMessage) (segments : list (list str))
  : list AgentEvent :=
  concat (map (deltaStream msg) segments).

(** The [text] of the [message_end] handler for the full text of the
    message. *)
Definition messageTextOf (enforce : bool) (full : str) : str :=
  let cleaned := cleanedOf enforce full in
  if enforce && truthy cleaned
  then match extractFinalText cleaned with
       | Some t => trim t
       | None => cleaned
       end
  else cleaned.

Definition isMessageUpdate (evt : AgentEvent) : bool :=
  match evt with message_update _ _ => true | _ => false end.

(** Events that void the tool metadata cached under [id]: a new start of
    the same call id, and a compaction end that announces a retry. *)
Definition voidsToolMeta (id : str) (evt : AgentEvent) : bool :=
  match evt with
  | tool_execution_start _ id' _ => bool_decide (id' = id)
  | auto_compaction_end true => true
  | _ => false
  end.

(** The tool names of the [tool_execution_end] events of a stream. *)
Definition endedTools (evts : list AgentEvent) : list str :=
  omap (fun evt => match evt with
                   | tool_execution_end name _ _ _ => Some name
                   | _ => None
                   end) evts.

Definition isRetryEnd (evt : AgentEvent) : bool :=
  match evt with auto_compaction_end true => true | _ => false end.

(** What the handler may hand out under given parameters: agent events
    of the run itself, calls of observers that are present, and block
    replies and tool results only with text or media, tool results only
    when the caller asks for them. *)
Definition permitted (p : SubscribeParams) (e : emission) : bool :=
  match e with
  | EmitAgentEvent run _ _ => bool_decide (run = runId p)
  | OnAgentEvent _ _ => onAgentEvent p
  | OnPartialReply _ _ => onPartialReply p
  | OnBlockReply text mediaUrls =>
      onBlockReply p && hasTextOrMedia text mediaUrls
  | OnToolResult text mediaUrls =>
      onToolResult p
      && match shouldEmitToolResult p with
         | Some answer => answer
         | None => bool_decide (verboseLevel p = Some VerboseOn)
         end
      && hasTextOrMedia text mediaUrls
  | CompactionRetryResolved _ => true
  end.

(** The promises resolved by a list of emissions. *)
Definition resolvedIds (out : list emission) : list nat :=
  omap (fun e => match e with
                 | CompactionRetryResolved k => Some k
                 | _ => None
                 end) out.

(** The compaction state is in step with the promises resolved so far: the
    promise and its resolver go together; a promise is pending exactly
    while compaction is in flight or a retry is owed; the pending promise
    is not resolved yet, every other promise made is, and none twice. *)
Definition coordinated (c : Compaction) (resolved : list nat) : Prop :=
  compactionRetryResolve c = compactionRetryPromise c
  /\ (is_Some (compactionRetryPromise c) <-> compactionBusy c = true)
  /\ (forall k, compactionRetryPromise c = Some k ->
                (k < promisesCreated c)%nat /\ k ∉ resolved)
  /\ (forall k, (k < promisesCreated c)%nat ->
                k ∈ resolved \/ compactionRetryPromise c = Some k)
  /\ (forall k, k ∈ resolved -> (k < promisesCreated c)%nat)
  /\ NoDup resolved.

(** The events after the last compaction end that announces a retry (all
    of them when there is none). *)
Fixpoint afterLastRetry (evts : list AgentEvent) : list AgentEvent :=
  match evts with
  | [] => []
  | evt :: rest =>
      if existsb isRetryEnd rest then afterLastRetry rest
      else if isRetryEnd evt then rest
      else evt :: rest
  end.

(** What a run reads from its subscription when it assembles the reply:
    the finalized blocks and the tool records. *)
Definition reported `{Collaborators} (st : Interp)
  : list str * list (str * option str) :=
  (assistantTexts (acc st), toolMetas (tools st)).

(** A legacy path that the import passes over: nothing loads from it, or
    what loads holds no Anthropic OAuth credentials. *)
Definition passedOver `{Host} (fs : FS) (legacyPath : str) : Prop :=
  match loadOAuthStorageAt legacyPath fs with
  | None => True
  | Some storage => hasAnthropicOAuth storage = Some false
  end.

(** A host for closed examples: files are kept in a map, every call
    succeeds, and the only file contents that parse are [A], an object
    with Anthropic OAuth credentials, and [E], an empty object. *)
Definition anthropicStorage : value :=
  VObj [(js "anthropic",
         VObj [(js "refresh", VStr (js "r")); (js "access", VStr (js "a"))])].

Definition plainHost : Host :=
  {| FS := gmap str str;
     existsSync := fun pathname fs => bool_decide (is_Some (fs !! pathname));
     readFileSync := fun pathname fs => fs !! pathname;
     mkdirSync := fun _ _ fs => (fs, true);
     writeFileSync := fun pathname content fs => (<[pathname := content]> fs, true);
     chmodSync := fun _ _ fs => (fs, true);
     JSON_parse := fun content =>
       if bool_decide (trim content = js "A") then Some anthropicStorage
       else if bool_decide (trim content = js "E") then Some (VObj [])
       else None;
     JSON_stringify := fun v =>
       match v with VObj [] => js "E" | _ => js "A" end;
     dirname := fun pathname => pathname;
     path_join := fun parts => concat (map (fun part => SLASH :: part) parts);
     resolveUserPath := fun dir => dir;
     homedir := js "home";
     CONFIG_DIR := js "config";
     env := fun _ => None;
     getEnvApiKey := fun _ => None;
     getOAuthApiKey := fun _ _ => LookupNothing |}.

(* ===================================================================== *)
(** * Properties *)
(* ===================================================================== *)

(** ** The matcher *)

Section MatcherFacts.

(** Whatever a successful match hands to its continuation is a suffix of
    the input. *)
Lemma spaces_suffix k s rest :
  spaces k s = Some rest ->
  exists m s', s = m ++ s' /\ k s' = Some rest.
Proof.
  induction s as [|c s IH]; simpl; intros Hm.
  - exists [], []. auto.
  - destruct (isWhiteSpace c).
    + destruct (spaces k s) as [r|] eqn:E.
      * destruct (IH Hm) as (m & s' & -> & Hk).
        exists (c :: m), s'. split; [reflexivity|]. congruence.
      * exists [], (c :: s). auto.
    + exists [], (c :: s). auto.
Qed.

Lemma rmatch_suffix r : forall k s rest,
  rmatch r k s = Some rest ->
  exists m s', s = m ++ s' /\ k s' = Some rest.
Proof.
  induction r as [|p| |r IH|r1 IH1 r2 IH2]; simpl; intros k s rest Hm.
  - exists [], s. auto.
  - destruct s as [|c s]; [discriminate|].
    destruct (canonicalize c =? canonicalize p); [|discriminate].
    exists [c], s. auto.
  - by apply spaces_suffix.
  - destruct (rmatch r k s) as [x|] eqn:E.
    + injection Hm as ->. by apply IH.
    + exists [], s. auto.
  - apply IH1 in Hm as (m1 & s1 & -> & Hm).
    apply IH2 in Hm as (m2 & s2 & -> & Hm).
    exists (m1 ++ m2), s2. by rewrite <- app_assoc.
Qed.

Lemma matchAt_suffix r s rest :
  matchAt r s = Some rest -> exists m, s = m ++ rest.
Proof.
  intros Hm. apply rmatch_suffix in Hm as (m & s' & -> & [= ->]). eauto.
Qed.

Lemma take_matched (m rest : str) :
  take (length (m ++ rest) - length rest) (m ++ rest) = m.
Proof.
  rewrite length_app.
  replace (length m + length rest - length rest)%nat with (length m) by lia.
  by rewrite take_app_length.
Qed.

Lemma exec_unfold r s :
  exec r s =
  match matchAt r s with
  | Some rest => Some ([], take (length s - length rest)%nat s, rest)
  | None =>
      match s with
      | [] => None
      | c :: s' =>
          match exec r s' with
          | Some (pre, m, post) => Some (c :: pre, m, post)
          | None => None
          end
      end
  end.
Proof. by destruct s. Qed.

(** [exec] splits its input around the match. *)
Lemma exec_split r : forall s pre m post,
  exec r s = Some (pre, m, post) ->
  s = pre ++ m ++ post /\ matchAt r (m ++ post) = Some post.
Proof.
  induction s as [|c s IH]; intros pre m post; rewrite exec_unfold.
  - destruct (matchAt r []) as [rest|] eqn:E; [|discriminate].
    destruct (matchAt_suffix _ _ _ E) as (m' & Hs).
    symmetry in Hs. apply app_eq_nil in Hs as [-> ->].
    intros [= <- <- <-]. auto.
  - destruct (matchAt r (c :: s)) as [rest|] eqn:E.
    + destruct (matchAt_suffix _ _ _ E) as (m' & Hs).
      rewrite Hs, take_matched. intros [= <- <- <-]. split; [done|].
      by rewrite <- Hs.
    + destruct (exec r s) as [[[p' m'] q']|] eqn:E'; [|discriminate].
      intros [= <- <- <-].
      destruct (IH _ _ _ eq_refl) as [-> Hm]. auto.
Qed.

Lemma canonicalize_lt c : (canonicalize c =? canonicalize LT) = (c =? LT).
Proof.
  unfold canonicalize, LT. simpl.
  destruct (97 <=? c) eqn:E1; destruct (c <=? 122) eqn:E2; simpl; try done.
  apply N.leb_le in E1. apply N.leb_le in E2.
  destruct (c - 32 =? 60) eqn:E3; destruct (c =? 60) eqn:E4; try done.
  - apply N.eqb_eq in E3. lia.
  - apply N.eqb_eq in E4. lia.
Qed.

Lemma matchAt_lt_nil r : startsWithLt r -> matchAt r [] = None.
Proof. by intros [r' ->]. Qed.

Lemma matchAt_lt_other r c s :
  startsWithLt r -> c <> LT -> matchAt r (c :: s) = None.
Proof.
  intros [r' ->] Hc. unfold matchAt. simpl. rewrite canonicalize_lt.
  by apply N.eqb_neq in Hc as ->.
Qed.

Lemma matchAt_lt_shorter r s rest :
  startsWithLt r -> matchAt r s = Some rest -> (length rest < length s)%nat.
Proof.
  intros [r' ->]. unfold matchAt. simpl.
  destruct s as [|c s]; [discriminate|].
  destruct (canonicalize c =? canonicalize LT); [|discriminate].
  intros Hm. apply rmatch_suffix in Hm as (m & s' & -> & [= ->]).
  rewrite length_cons, length_app. lia.
Qed.

Lemma exec_shorter r s pre m post :
  startsWithLt r -> exec r s = Some (pre, m, post) ->
  (length post < length s)%nat.
Proof.
  intros Hr He. apply exec_split in He as [-> Hm].
  apply (matchAt_lt_shorter _ _ _ Hr) in Hm.
  rewrite !length_app in *. lia.
Qed.

Lemma exec_noLt r s : startsWithLt r -> noLt s -> exec r s = None.
Proof.
  intros Hr. induction 1 as [|c s Hc _ IH]; simpl.
  - by rewrite matchAt_lt_nil.
  - by rewrite matchAt_lt_other, IH.
Qed.

Lemma exec_skip r pre s :
  startsWithLt r -> noLt pre ->
  exec r (pre ++ s) =
  match exec r s with
  | Some (p, m, q) => Some (pre ++ p, m, q)
  | None => None
  end.
Proof.
  intros Hr. induction 1 as [|c pre Hc _ IH]; simpl.
  - by destruct (exec r s) as [[[??]?]|].
  - rewrite matchAt_lt_other, IH by done.
    by destruct (exec r s) as [[[??]?]|].
Qed.

Lemma exec_here r m rest :
  matchAt r (m ++ rest) = Some rest -> exec r (m ++ rest) = Some ([], m, rest).
Proof.
  intros Hm. by rewrite exec_unfold, Hm, take_matched.
Qed.

Lemma exec_at r pre m rest :
  startsWithLt r -> noLt pre -> matchAt r (m ++ rest) = Some rest ->
  exec r (pre ++ m ++ rest) = Some (pre, m, rest).
Proof.
  intros Hr Hp Hm. rewrite exec_skip, (exec_here _ _ _ Hm) by done.
  by rewrite app_nil_r.
Qed.

(** [length s] rounds are enough for [matchAll]: more fuel changes
    nothing. *)
Lemma matchAll_aux_enough r : startsWithLt r ->
  forall n s, (length s <= n)%nat ->
  matchAll_aux n r s = matchAll_aux (length s) r s.
Proof.
  intros Hr n. induction n as [n IH] using lt_wf_ind. intros s Hn.
  destruct n as [|n].
  - by replace (length s) with 0%nat by lia.
  - destruct s as [|c s].
    + simpl. by rewrite matchAt_lt_nil.
    + cbn [matchAll_aux length].
      destruct (exec r (c :: s)) as [[[pre m] post]|] eqn:E; [|done].
      pose proof (exec_shorter _ _ _ _ _ Hr E) as Hlen.
      simpl in Hlen, Hn.
      rewrite (IH n) by lia. rewrite (IH (length s)) by lia. done.
Qed.

Lemma matchAll_unfold r s : startsWithLt r ->
  matchAll r s =
  match exec r s with
  | None => ([], s)
  | Some (pre, m, post) =>
      let '(ms, tl) := matchAll r post in ((pre, m) :: ms, tl)
  end.
Proof.
  intros Hr. unfold matchAll. destruct s as [|c s].
  - simpl. by rewrite matchAt_lt_nil.
  - cbn [matchAll_aux length].
    destruct (exec r (c :: s)) as [[[pre m] post]|] eqn:E; [|done].
    pose proof (exec_shorter _ _ _ _ _ Hr E) as Hlen. simpl in Hlen.
    rewrite (matchAll_aux_enough r Hr (length s) post) by lia. done.
Qed.

End MatcherFacts.

(** ** Tags in a text *)

Section TagFacts.

Lemma exec_hit r pre t s :
  startsWithLt r -> noLt pre -> hits r t ->
  exec r (pre ++ t ++ s) = Some (pre, t, s).
Proof. intros Hr Hp Ht. by apply exec_at. Qed.

Lemma exec_miss r pre t s :
  startsWithLt r -> noLt pre -> tagShaped t -> misses r t ->
  exec r (pre ++ t ++ s) = shiftMatch (pre ++ t) (exec r s).
Proof.
  intros Hr Hp (t' & -> & Ht') Hmiss.
  rewrite exec_skip by done.
  pose proof (Hmiss s) as Hm.
  change ((LT :: t') ++ s) with (LT :: (t' ++ s)) in *.
  rewrite exec_unfold, Hm, exec_skip by done.
  destruct (exec r s) as [[[p m] q]|]; simpl; [|done].
  by rewrite <- !app_assoc.
Qed.

Lemma test_noLt r s : startsWithLt r -> noLt s -> test r s = false.
Proof. intros Hr Hs. unfold test. by rewrite exec_noLt. Qed.

Lemma replaceFirst_noLt r s :
  startsWithLt r -> noLt s -> replaceFirst r s = s.
Proof. intros Hr Hs. unfold replaceFirst. by rewrite exec_noLt. Qed.

Lemma truthy_app_cons (a b : str) c : truthy (a ++ c :: b) = true.
Proof. by destruct a. Qed.

Lemma truthy_app_tag (a t b : str) :
  tagShaped t -> truthy (a ++ t ++ b) = true.
Proof. intros (t' & -> & _). apply truthy_app_cons. Qed.

Lemma thinking_tag_lt : startsWithLt THINKING_TAG_RE.
Proof. by eexists. Qed.

Lemma thinking_open_lt : startsWithLt THINKING_OPEN_RE.
Proof. by eexists. Qed.

Lemma thinking_close_lt : startsWithLt THINKING_CLOSE_RE.
Proof. by eexists. Qed.

Lemma final_start_lt : startsWithLt FINAL_START_RE.
Proof. by eexists. Qed.

Lemma final_end_lt : startsWithLt FINAL_END_RE.
Proof. by eexists. Qed.

Local Ltac marker :=
  repeat split;
  try (eexists; split; [reflexivity|]; repeat constructor; discriminate);
  try (intros ?; reflexivity).

(** The usual spellings are markers, and so are spellings with other
    letter case, with [thinking] for [think], and with white space inside
    the brackets. *)
Lemma thinkingOpen_think : thinkingOpen (js "<think>").
Proof. marker. Qed.

Lemma thinkingOpen_thinking : thinkingOpen (js "<thinking>").
Proof. marker. Qed.

Lemma thinkingOpen_spaced : thinkingOpen (js "< Think >").
Proof. marker. Qed.

Lemma thinkingClose_think : thinkingClose (js "</think>").
Proof. marker. Qed.

Lemma thinkingClose_thinking : thinkingClose (js "</thinking>").
Proof. marker. Qed.

Lemma thinkingClose_spaced : thinkingClose (js "< / THINKING >").
Proof. marker. Qed.

Lemma finalOpen_final : finalOpen (js "<final>").
Proof. marker. Qed.

Lemma finalOpen_spaced : finalOpen (js "< FINAL >").
Proof. marker. Qed.

Lemma finalClose_final : finalClose (js "</final>").
Proof. marker. Qed.

Lemma finalClose_spaced : finalClose (js "</ Final >").
Proof. marker. Qed.

End TagFacts.

(** ** Thinking segments and final markers *)

Section TextFacts.

Variables pre mid post : str.
Hypothesis Hpre : noLt pre.
Hypothesis Hmid : noLt mid.
Hypothesis Hpost : noLt post.

Lemma strip_tagless : stripThinkingSegments post = post.
Proof.
  unfold stripThinkingSegments.
  by rewrite (test_noLt _ _ thinking_tag_lt Hpost), orb_true_r.
Qed.

Lemma unpaired_tagless : stripUnpairedThinkingTags post = post.
Proof.
  unfold stripUnpairedThinkingTags.
  rewrite (test_noLt _ _ thinking_open_lt Hpost).
  rewrite (test_noLt _ _ thinking_close_lt Hpost). simpl.
  rewrite (replaceFirst_noLt _ _ thinking_close_lt Hpost).
  by destruct (truthy post).
Qed.

Lemma matchAll_tagless : matchAll THINKING_TAG_RE post = ([], post).
Proof.
  rewrite (matchAll_unfold _ _ thinking_tag_lt).
  by rewrite (exec_noLt _ _ thinking_tag_lt Hpost).
Qed.

Lemma noLt_app (a b : str) : noLt a -> noLt b -> noLt (a ++ b).
Proof. apply Forall_app_2. Qed.

Section Thinking.

Variables o c : str.
Hypothesis Ho : thinkingOpen o.
Hypothesis Hc : thinkingClose c.

(** A paired segment is cut out. *)
Lemma strip_paired :
  stripThinkingSegments (pre ++ o ++ mid ++ c ++ post) = pre ++ post.
Proof.
  destruct Ho as (Hshape & Htag & _ & _ & Hslash).
  destruct Hc as (_ & Htag' & _ & _ & Hslash').
  unfold stripThinkingSegments, test.
  rewrite (exec_hit _ _ _ _ thinking_tag_lt Hpre Htag).
  rewrite (truthy_app_tag _ _ _ Hshape). cbn [negb orb].
  rewrite (matchAll_unfold _ _ thinking_tag_lt).
  rewrite (exec_hit _ _ _ _ thinking_tag_lt Hpre Htag).
  rewrite (matchAll_unfold _ _ thinking_tag_lt).
  rewrite (exec_hit _ _ _ _ thinking_tag_lt Hmid Htag').
  rewrite matchAll_tagless. cbn [fold_left thinkingStep].
  by rewrite Hslash, Hslash'.
Qed.

(** A lone open marker starts a segment that runs to the end of the
    text. *)
Lemma strip_lone_open :
  stripThinkingSegments (pre ++ o ++ post) = pre.
Proof.
  destruct Ho as (Hshape & Htag & _ & _ & Hslash).
  unfold stripThinkingSegments, test.
  rewrite (exec_hit _ _ _ _ thinking_tag_lt Hpre Htag).
  rewrite (truthy_app_tag _ _ _ Hshape). cbn [negb orb].
  rewrite (matchAll_unfold _ _ thinking_tag_lt).
  rewrite (exec_hit _ _ _ _ thinking_tag_lt Hpre Htag).
  rewrite matchAll_tagless. cbn [fold_left thinkingStep].
  by rewrite Hslash.
Qed.

(** A lone close marker is dropped and the text around it kept. *)
Lemma strip_lone_close :
  stripThinkingSegments (pre ++ c ++ post) = pre ++ post.
Proof.
  destruct Hc as (Hshape & Htag & _ & _ & Hslash).
  unfold stripThinkingSegments, test.
  rewrite (exec_hit _ _ _ _ thinking_tag_lt Hpre Htag).
  rewrite (truthy_app_tag _ _ _ Hshape). cbn [negb orb].
  rewrite (matchAll_unfold _ _ thinking_tag_lt).
  rewrite (exec_hit _ _ _ _ thinking_tag_lt Hpre Htag).
  rewrite matchAll_tagless. cbn [fold_left thinkingStep].
  by rewrite Hslash.
Qed.

Lemma unpaired_paired :
  stripUnpairedThinkingTags (pre ++ o ++ mid ++ c ++ post)
  = pre ++ o ++ mid ++ c ++ post.
Proof.
  destruct Ho as (Hshape & _ & Hopen & Hnoclose & _).
  destruct Hc as (_ & _ & Hclose & _ & _).
  unfold stripUnpairedThinkingTags, test.
  rewrite (exec_hit _ _ _ _ thinking_open_lt Hpre Hopen).
  rewrite (exec_miss _ _ _ _ thinking_close_lt Hpre Hshape Hnoclose).
  rewrite (exec_hit _ _ _ _ thinking_close_lt Hmid Hclose).
  simpl. by destruct (truthy _).
Qed.

Lemma unpaired_lone_open :
  stripUnpairedThinkingTags (pre ++ o ++ post) = pre ++ post.
Proof.
  destruct Ho as (Hshape & _ & Hopen & Hnoclose & _).
  unfold stripUnpairedThinkingTags, test, replaceFirst.
  rewrite (exec_hit _ _ _ _ thinking_open_lt Hpre Hopen).
  rewrite (exec_miss _ _ _ _ thinking_close_lt Hpre Hshape Hnoclose).
  rewrite (exec_noLt _ _ thinking_close_lt Hpost).
  by rewrite (truthy_app_tag _ _ _ Hshape).
Qed.

Lemma unpaired_lone_close :
  stripUnpairedThinkingTags (pre ++ c ++ post) = pre ++ post.
Proof.
  destruct Hc as (Hshape & _ & Hclose & Hnoopen & _).
  unfold stripUnpairedThinkingTags, test, replaceFirst.
  rewrite (exec_hit _ _ _ _ thinking_close_lt Hpre Hclose).
  rewrite (exec_miss _ _ _ _ thinking_open_lt Hpre Hshape Hnoopen).
  rewrite (exec_noLt _ _ thinking_open_lt Hpost).
  by rewrite (truthy_app_tag _ _ _ Hshape).
Qed.

End Thinking.

Section Final.

Variables o c : str.
Hypothesis Ho : finalOpen o.
Hypothesis Hc : finalClose c.

(** Final markers are no thinking markers. *)
Lemma cleaned_final_pair e :
  cleanedOf e (pre ++ o ++ mid ++ c ++ post) = pre ++ o ++ mid ++ c ++ post.
Proof.
  destruct Ho as (Hso & _ & _ & Htag & Hopen & Hclose).
  destruct Hc as (Hsc & _ & _ & Htag' & Hopen' & Hclose').
  assert (Hnone : forall r, startsWithLt r -> misses r o -> misses r c ->
            exec r (pre ++ o ++ mid ++ c ++ post) = None).
  { intros r Hr Hmo Hmc.
    rewrite (exec_miss _ _ _ _ Hr Hpre Hso Hmo).
    rewrite (exec_miss _ _ _ _ Hr Hmid Hsc Hmc).
    by rewrite (exec_noLt _ _ Hr Hpost). }
  assert (Hstrip : stripThinkingSegments (pre ++ o ++ mid ++ c ++ post)
                   = pre ++ o ++ mid ++ c ++ post).
  { unfold stripThinkingSegments, test.
    rewrite (Hnone _ thinking_tag_lt Htag Htag'). by rewrite orb_true_r. }
  destruct e; unfold cleanedOf; [|done].
  assert (Hun : stripUnpairedThinkingTags (pre ++ o ++ mid ++ c ++ post)
                = pre ++ o ++ mid ++ c ++ post).
  { unfold stripUnpairedThinkingTags, test, replaceFirst.
    rewrite (Hnone _ thinking_open_lt Hopen Hopen').
    rewrite (Hnone _ thinking_close_lt Hclose Hclose'). simpl.
    by destruct (truthy _). }
  by rewrite Hun.
Qed.

Lemma extractFinal_pair :
  extractFinalText (pre ++ o ++ mid ++ c ++ post) = Some mid.
Proof.
  destruct Ho as (Hso & Hstart & Hnoend & _).
  destruct Hc as (Hsc & Hend & _).
  assert (Hs : sanitizeFinalText (pre ++ o ++ mid ++ c ++ post)
               = pre ++ o ++ mid ++ c ++ post).
  { unfold sanitizeFinalText, test.
    rewrite (exec_hit _ _ _ _ final_start_lt Hpre Hstart).
    rewrite (exec_miss _ _ _ _ final_end_lt Hpre Hso Hnoend).
    rewrite (exec_hit _ _ _ _ final_end_lt Hmid Hend).
    simpl. by destruct (truthy _). }
  unfold extractFinalText. rewrite Hs.
  rewrite (exec_hit _ _ _ _ final_start_lt Hpre Hstart).
  by rewrite (exec_hit _ _ _ _ final_end_lt Hmid Hend).
Qed.

End Final.

End TextFacts.

(** Without any final marker nothing is extracted. *)
Lemma extractFinal_none (s : str) :
  test FINAL_START_RE s = false -> test FINAL_END_RE s = false ->
  extractFinalText s = None.
Proof.
  intros Hs He. unfold extractFinalText, sanitizeFinalText.
  rewrite Hs, He. simpl.
  unfold test in Hs.
  destruct (truthy s); simpl; by destruct (exec FINAL_START_RE s).
Qed.

(** ** Text streams through the handler *)

Section StreamFacts.

Context `{Collaborators}.

Variable p : SubscribeParams.
Variable msg : AgentMessage.
Hypothesis Hrole : role msg = js "assistant".

Lemma handleEvents_app st evts1 evts2 :
  fst (handleEvents p st (evts1 ++ evts2))
  = fst (handleEvents p (fst (handleEvents p st evts1)) evts2).
Proof.
  revert st. induction evts1 as [|e evts1 IH]; intros st; simpl.
  - by destruct (handleEvents p st evts2).
  - destruct (handleEvent p st e) as [st1 out1]. specialize (IH st1).
    destruct (handleEvents p st1 (evts1 ++ evts2)) as [st2 out2].
    destruct (handleEvents p st1 evts1) as [st3 out3]. simpl in *.
    by rewrite IH.
Qed.

(** A delta grows the buffer and finalizes nothing. *)
Lemma textDelta_acc st chunk :
  let st' := fst (handleEvent p st (textDelta msg chunk)) in
  assistantTexts (acc st') = assistantTexts (acc st)
  /\ deltaBuffer (acc st') = deltaBuffer (acc st) ++ chunk
  /\ lastBlockReplyText (acc st') = lastBlockReplyText (acc st).
Proof.
  cbn [handleEvent textDelta]. unfold onMessageUpdate, isAssistant.
  rewrite Hrole.
  change (bool_decide (js "assistant" = js "assistant")) with true.
  cbv zeta. cbn [negb].
  change (default [] (asString (Obj.get (js "type")
            [(js "type", VStr (js "text_delta")); (js "delta", VStr chunk)])))
    with (js "text_delta").
  change (bool_decide (js "text_delta" = js "text_delta")) with true.
  change (bool_decide (js "text_delta" = js "text_end")) with false.
  cbn [negb orb andb fst acc withAcc assistantTexts deltaBuffer lastBlockReplyText].
  repeat split.
  change (asString (Obj.get (js "delta")
            [(js "type", VStr (js "text_delta")); (js "delta", VStr chunk)]))
    with (Some chunk).
  destruct chunk; simpl; [by rewrite app_nil_r|done].
Qed.

Lemma textDeltas_acc chunks : forall st,
  let st' := fst (handleEvents p st (map (textDelta msg) chunks)) in
  assistantTexts (acc st') = assistantTexts (acc st)
  /\ deltaBuffer (acc st') = deltaBuffer (acc st) ++ concat chunks
  /\ lastBlockReplyText (acc st') = lastBlockReplyText (acc st).
Proof.
  induction chunks as [|c chunks IH]; intros st; cbn [map handleEvents concat].
  - by rewrite app_nil_r.
  - pose proof (textDelta_acc st c) as (H1 & H2 & H3).
    destruct (handleEvent p st (textDelta msg c)) as [st1 out1].
    specialize (IH st1). cbn [fst] in *.
    destruct (handleEvents p st1 (map (textDelta msg) chunks)) as [st2 out2].
    cbn [fst] in *. destruct IH as (I1 & I2 & I3).
    rewrite I1, I2, I3, H1, H2, H3. by rewrite <- app_assoc.
Qed.

(** The end of the segment finalizes the derived text, unless it is empty
    or repeats the previous block. *)
Lemma textEnd_acc st :
  blockReplyBreak p <> Some BreakMessageEnd ->
  let next := nextOf (enforceFinalTag p)
                (cleanedOf (enforceFinalTag p) (deltaBuffer (acc st))) in
  assistantTexts (acc (fst (handleEvent p st (textEnd msg))))
  = if truthy next && negb (bool_decide (Some next = lastBlockReplyText (acc st)))
    then assistantTexts (acc st) ++ [next]
    else assistantTexts (acc st).
Proof.
  intros Hbreak.
  cbn [handleEvent textEnd]. unfold onMessageUpdate, isAssistant.
  rewrite Hrole.
  change (bool_decide (js "assistant" = js "assistant")) with true.
  cbv zeta. cbn [negb].
  change (default [] (asString (Obj.get (js "type")
            [(js "type", VStr (js "text_end"))])))
    with (js "text_end").
  change (bool_decide (js "text_end" = js "text_end")) with true.
  change (bool_decide (js "text_end" = js "text_delta")) with false.
  change (bool_decide (js "text_end" = js "text_start")) with false.
  change (asString (Obj.get (js "delta") [(js "type", VStr (js "text_end"))]))
    with (@None str).
  change (asString (Obj.get (js "content") [(js "type", VStr (js "text_end"))]))
    with (@None str).
  cbn [negb orb andb default truthy].
  assert (Hb : bool_decide (default BreakTextEnd (blockReplyBreak p)
                            = BreakTextEnd) = true).
  { apply bool_decide_eq_true. destruct (blockReplyBreak p) as [[]|]; done. }
  rewrite Hb.
  set (next := nextOf _ _).
  destruct (truthy next) eqn:Hn; cbn [andb negb].
  - destruct (bool_decide (Some next = lastBlockReplyText (acc st))); done.
  - done.
Qed.

Lemma deltaStream_blocks chunks :
  blockReplyBreak p <> Some BreakMessageEnd ->
  let next := nextOf (enforceFinalTag p)
                (cleanedOf (enforceFinalTag p) (concat chunks)) in
  finalizedBlocks p (deltaStream msg chunks)
  = if truthy next then [next] else [].
Proof.
  intros Hbreak. unfold finalizedBlocks, deltaStream.
  rewrite handleEvents_app.
  pose proof (textDeltas_acc chunks initialInterp) as (H1 & H2 & H3).
  set (st := fst (handleEvents p initialInterp (map (textDelta msg) chunks))) in *.
  cbn [handleEvents].
  pose proof (textEnd_acc st Hbreak) as Hend.
  destruct (handleEvent p st (textEnd msg)) as [st1 out1].
  cbn [fst] in *. rewrite Hend, H1, H2, H3. cbn [initialInterp acc
    emptyAccumulator assistantTexts deltaBuffer lastBlockReplyText app].
  rewrite bool_decide_eq_false_2 by discriminate.
  by rewrite andb_true_r.
Qed.

End StreamFacts.

(* ===================================================================== *)
(** * The claims *)
(* ===================================================================== *)

(** C1 (as amended). For any thinking open marker [o] and close marker
    [c], and text around them that holds no [<]: the cleaned view cuts out
    a paired thinking segment for both settings of [enforceFinalTag], and
    so does the block finalized from a delta stream of that text; a lone
    close marker is dropped and the text around it kept, for both
    settings; a lone open marker is dropped with the text after it kept
    when [enforceFinalTag] is on, and starts a thinking segment that
    swallows everything after it when [enforceFinalTag] is off. *)
Theorem cleaned_view_thinking `{Collaborators}
    (p : SubscribeParams) (msg : AgentMessage) (chunks : list str)
    (pre mid post o c : str) :
  noLt pre -> noLt mid -> noLt post ->
  thinkingOpen o -> thinkingClose c ->
  role msg = js "assistant" ->
  blockReplyBreak p <> Some BreakMessageEnd ->
  (forall e, cleanedOf e (pre ++ o ++ mid ++ c ++ post) = pre ++ post)
  /\ (concat chunks = pre ++ o ++ mid ++ c ++ post ->
      finalizedBlocks p (deltaStream msg chunks)
      = if truthy (trim (pre ++ post)) then [trim (pre ++ post)] else [])
  /\ (forall e, cleanedOf e (pre ++ c ++ post) = pre ++ post)
  /\ cleanedOf true (pre ++ o ++ post) = pre ++ post
  /\ cleanedOf false (pre ++ o ++ post) = pre.
Proof.
  intros Hpre Hmid Hpost Ho Hc Hrole Hbreak.
  assert (Hpp : noLt (pre ++ post)) by by apply noLt_app.
  assert (Hpair : forall e,
            cleanedOf e (pre ++ o ++ mid ++ c ++ post) = pre ++ post).
  { intros []; unfold cleanedOf.
    - by rewrite unpaired_paired, strip_paired.
    - by rewrite strip_paired. }
  split; [exact Hpair|]. split.
  - intros Hcat.
    rewrite (deltaStream_blocks p msg Hrole chunks Hbreak). cbv zeta.
    rewrite Hcat, Hpair. unfold nextOf.
    rewrite extractFinal_none by (by apply test_noLt;
      [apply final_start_lt || apply final_end_lt | ]).
    by destruct (enforceFinalTag p).
  - split; [|split].
    + intros []; unfold cleanedOf.
      * by rewrite unpaired_lone_close, strip_tagless.
      * by rewrite (strip_lone_close pre post Hpre Hpost c Hc).
    + unfold cleanedOf. by rewrite unpaired_lone_open, strip_tagless.
    + unfold cleanedOf. by rewrite (strip_lone_open pre post Hpre Hpost o Ho).
Qed.

(** The theorem on the stream ["<think>x</think>Hello"], split in the
    middle of the close marker. *)
Lemma cleaned_view_thinking_witness :
  noLt (js "") /\ noLt (js "x") /\ noLt (js "Hello")
  /\ thinkingOpen (js "<think>") /\ thinkingClose (js "</think>")
  /\ role assistantMsg = js "assistant"
  /\ blockReplyBreak (plainParams false) <> Some BreakMessageEnd
  /\ @finalizedBlocks plainCollaborators (plainParams false)
       (deltaStream assistantMsg [js "<think>x</"; js "think>Hello"])
     = [js "Hello"].
Proof.
  assert (H0 : noLt (js "")) by constructor.
  assert (H1 : noLt (js "x")) by (repeat constructor; discriminate).
  assert (H2 : noLt (js "Hello")) by (repeat constructor; discriminate).
  assert (H3 : role assistantMsg = js "assistant") by reflexivity.
  assert (H4 : blockReplyBreak (plainParams false) <> Some BreakMessageEnd)
    by discriminate.
  do 3 (split; [assumption|]).
  split; [exact thinkingOpen_think|]. split; [exact thinkingClose_think|].
  do 2 (split; [assumption|]).
  destruct (@cleaned_view_thinking plainCollaborators (plainParams false)
              assistantMsg [js "<think>x</"; js "think>Hello"]
              (js "") (js "x") (js "Hello") (js "<think>") (js "</think>")
              H0 H1 H2 thinkingOpen_think thinkingClose_think H3 H4)
    as (_ & Hstream & _).
  rewrite Hstream; reflexivity.
Defined.

(** C1, the claim as stated fails: with [enforceFinalTag] off, the lone
    open marker of ["<think>partial... Hello"] is taken as the start of a
    thinking segment and nothing is left of the text; with it on, what is left is
    ["partial... Hello"]. *)
Lemma cleaned_view_lone_open_counterexample :
  cleanedOf false (js "<think>partial... Hello") = js ""
  /\ @finalizedBlocks plainCollaborators (plainParams false)
       (deltaStream assistantMsg [js "<think>partial... Hello"]) = []
  /\ cleanedOf true (js "<think>partial... Hello") = js "partial... Hello".
Proof. repeat split; vm_compute; reflexivity. Qed.

(** C2 (the code at the failing input). With [enforceFinalTag] on, a
    stream whose text is ["<final>Hi"] is finalized as the block
    ["<final>Hi"], marker included, and one whose text is ["Hi</final>"] as
    ["Hi</final>"]: [extractFinalText] strips the lone marker, finds no
    start marker in what is left and returns [undefined], and the handler
    falls back to the text it had before the marker was stripped. *)
Theorem lone_final_marker_kept `{Collaborators}
    (p : SubscribeParams) (msg : AgentMessage) (chunks : list str) :
  role msg = js "assistant" ->
  enforceFinalTag p = true ->
  blockReplyBreak p <> Some BreakMessageEnd ->
  (sanitizeFinalText (js "<final>Hi") = js "Hi"
   /\ extractFinalText (js "<final>Hi") = None)
  /\ (concat chunks = js "<final>Hi" ->
      finalizedBlocks p (deltaStream msg chunks) = [js "<final>Hi"])
  /\ (concat chunks = js "Hi</final>" ->
      finalizedBlocks p (deltaStream msg chunks) = [js "Hi</final>"]).
Proof.
  intros Hrole Henf Hbreak.
  split; [split; vm_compute; reflexivity|].
  split; intros Hc;
    rewrite (deltaStream_blocks p msg Hrole chunks Hbreak); cbv zeta;
    rewrite Hc, Henf; vm_compute; reflexivity.
Qed.

(** The theorem on the stream ["<final>Hi"], split inside the marker. *)
Lemma lone_final_marker_kept_witness :
  role assistantMsg = js "assistant"
  /\ enforceFinalTag (plainParams true) = true
  /\ blockReplyBreak (plainParams true) <> Some BreakMessageEnd
  /\ @finalizedBlocks plainCollaborators (plainParams true)
       (deltaStream assistantMsg [js "<fin"; js "al>Hi"])
     = [js "<final>Hi"].
Proof.
  assert (H1 : role assistantMsg = js "assistant") by reflexivity.
  assert (H2 : enforceFinalTag (plainParams true) = true) by reflexivity.
  assert (H3 : blockReplyBreak (plainParams true) <> Some BreakMessageEnd)
    by discriminate.
  do 3 (split; [assumption|]).
  destruct (@lone_final_marker_kept plainCollaborators (plainParams true)
              assistantMsg [js "<fin"; js "al>Hi"] H1 H2 H3)
    as (_ & Hopen & _).
  apply Hopen. reflexivity.
Defined.

(** C6. With [enforceFinalTag] on: a stream whose text holds a final open
    marker [o] and a final close marker [c] after it (in text without any
    other [<]) is finalized as the trimmed content between the pair, and
    no block is finalized when that content is blank; a stream whose
    cleaned text holds no final marker at all is finalized as the trimmed
    cleaned text. *)
Theorem final_pair_extracted `{Collaborators}
    (p : SubscribeParams) (msg : AgentMessage) (chunks : list str) :
  role msg = js "assistant" ->
  enforceFinalTag p = true ->
  blockReplyBreak p <> Some BreakMessageEnd ->
  (forall pre mid post o c,
     noLt pre -> noLt mid -> noLt post -> finalOpen o -> finalClose c ->
     concat chunks = pre ++ o ++ mid ++ c ++ post ->
     finalizedBlocks p (deltaStream msg chunks)
     = if truthy (trim mid) then [trim mid] else [])
  /\ (let cleaned := cleanedOf true (concat chunks) in
      test FINAL_START_RE cleaned = false ->
      test FINAL_END_RE cleaned = false ->
      finalizedBlocks p (deltaStream msg chunks)
      = if truthy (trim cleaned) then [trim cleaned] else []).
Proof.
  intros Hrole Henf Hbreak. split.
  - intros pre mid post o c Hpre Hmid Hpost Ho Hc Hcat.
    rewrite (deltaStream_blocks p msg Hrole chunks Hbreak). cbv zeta.
    rewrite Hcat, Henf, cleaned_final_pair by done.
    unfold nextOf. by rewrite (extractFinal_pair pre mid post Hpre Hmid o c).
  - intros cleaned Hs He.
    rewrite (deltaStream_blocks p msg Hrole chunks Hbreak). cbv zeta.
    rewrite Henf. fold cleaned. unfold nextOf.
    by rewrite extractFinal_none.
Qed.

(** The theorem on the stream ["noise<final>Hi</final>more"]. *)
Lemma final_pair_extracted_witness :
  role assistantMsg = js "assistant"
  /\ enforceFinalTag (plainParams true) = true
  /\ blockReplyBreak (plainParams true) <> Some BreakMessageEnd
  /\ @finalizedBlocks plainCollaborators (plainParams true)
       (deltaStream assistantMsg [js "noise<final>H"; js "i</final>more"])
     = [js "Hi"].
Proof.
  assert (H1 : role assistantMsg = js "assistant") by reflexivity.
  assert (H2 : enforceFinalTag (plainParams true) = true) by reflexivity.
  assert (H3 : blockReplyBreak (plainParams true) <> Some BreakMessageEnd)
    by discriminate.
  do 3 (split; [assumption|]).
  destruct (@final_pair_extracted plainCollaborators (plainParams true)
              assistantMsg [js "noise<final>H"; js "i</final>more"] H1 H2 H3)
    as (Hpair & _).
  rewrite (Hpair (js "noise") (js "Hi") (js "more")
             (js "<final>") (js "</final>")).
  - reflexivity.
  - repeat constructor; discriminate.
  - repeat constructor; discriminate.
  - repeat constructor; discriminate.
  - exact finalOpen_final.
  - exact finalClose_final.
  - reflexivity.
Defined.

(** ** Tool results *)

Section ObjFacts.

Lemma get_set_eq k v o : Obj.get k (Obj.set k v o) = Some v.
Proof.
  induction o as [|[k' v'] o IH]; simpl.
  - by rewrite decide_True.
  - destruct (decide (k' = k)) as [->|Hne]; simpl.
    + by rewrite decide_True.
    + by rewrite decide_False.
Qed.

Lemma get_set_ne k k' v o :
  k <> k' -> Obj.get k' (Obj.set k v o) = Obj.get k' o.
Proof.
  intros Hne. induction o as [|[k0 v0] o IH]; simpl.
  - by rewrite decide_False.
  - destruct (decide (k0 = k)) as [->|Hk]; simpl.
    + by rewrite !decide_False.
    + by rewrite IH.
Qed.

Lemma get_delete_eq k o : Obj.get k (Obj.delete k o) = None.
Proof.
  induction o as [|[k' v'] o IH]; simpl; [done|].
  destruct (decide (k' = k)) as [->|Hne]; simpl; [done|].
  by rewrite decide_False.
Qed.

Lemma get_delete_ne k k' o :
  k <> k' -> Obj.get k' (Obj.delete k o) = Obj.get k' o.
Proof.
  intros Hne. induction o as [|[k0 v0] o IH]; simpl; [done|].
  destruct (decide (k0 = k)) as [->|Hk]; simpl.
  - by rewrite decide_False.
  - by rewrite IH.
Qed.

Lemma set_get_same k v o : Obj.get k o = Some v -> Obj.set k v o = o.
Proof.
  induction o as [|[k' v'] o IH]; simpl; [done|].
  destruct (decide (k' = k)) as [->|Hne].
  - by intros [= ->].
  - intros Hg. by rewrite IH.
Qed.

Lemma sanitizeToolItem_spec item : sanitizedAs item (sanitizeToolItem item).
Proof.
  destruct item as [| | | | |items|entry]; try reflexivity.
  unfold sanitizedAs, sanitizeToolItem. cbv zeta.
  destruct (decide (asString (Obj.get (js "type") entry) = Some (js "text")))
    as [Ht|Ht].
  - destruct (asString (Obj.get (js "text") entry)) as [t|] eqn:Etext.
    + eexists. split; [reflexivity|]. split; [|split].
      * rewrite get_set_eq. unfold truncateToolText. reflexivity.
      * intros k Hk. by rewrite get_set_ne.
      * intros Hfit. unfold truncateToolText.
        change TOOL_RESULT_MAX_CHARS with 8000. rewrite Hfit.
        f_equal. apply set_get_same.
        destruct (Obj.get (js "text") entry) as [[]|]; try discriminate.
        by injection Etext as ->.
    + rewrite decide_False; [done|]. rewrite Ht. discriminate.
  - destruct (decide (asString (Obj.get (js "type") entry) = Some (js "image")))
      as [Hi|Hi]; [|done].
    eexists. split; [reflexivity|].
    split; [|split; [|split]].
    + rewrite !get_set_ne by discriminate. apply get_delete_eq.
    + apply get_set_eq.
    + rewrite get_set_ne by discriminate. rewrite get_set_eq.
      by destruct (asString (Obj.get (js "data") entry)) as [[|c d]|].
    + intros k H1 H2 H3.
      rewrite !get_set_ne by done. by rewrite get_delete_ne.
Qed.

End ObjFacts.

(** C7 (as amended). Sanitizing a tool result whose [content] is an array
    replaces [content] by the array of the sanitized items, in order, and
    leaves the other properties of the result as they are; a text item
    longer than 8000 code units is cut to 8000 with the marker appended;
    every image item, with or without data, loses [data] and gains
    [omitted: true] and [bytes] (the length of [data] when that was a
    non-empty string, [undefined] otherwise); text items within the budget
    keep their text, items of any other kind and all other properties pass
    through; a result without a [content] array is returned as it is. *)
Theorem tool_result_sanitized (record : Obj.t) :
  match Obj.get (js "content") record with
  | Some (VArr content) =>
      exists record' content',
        sanitizeToolResult (VObj record) = VObj record'
        /\ Obj.get (js "content") record' = Some (VArr content')
        /\ (forall k, k <> js "content" -> Obj.get k record' = Obj.get k record)
        /\ Forall2 sanitizedAs content content'
  | _ => sanitizeToolResult (VObj record) = VObj record
  end.
Proof.
  unfold sanitizeToolResult.
  destruct (Obj.get (js "content") record) as [[| | | | |content|]|]; try done.
  eexists _, _. split; [reflexivity|]. split; [apply get_set_eq|]. split.
  - intros k Hk. by rewrite get_set_ne.
  - apply Forall2_fmap_r, Forall_Forall2_diag, Forall_forall.
    intros item _. apply sanitizeToolItem_spec.
Qed.

(** C7, the claim as stated fails: an image item without data, or with
    empty data, is not passed through as it is: it gains [bytes: undefined]
    and [omitted: true] (and loses the empty [data]). *)
Lemma tool_result_image_without_data_counterexample :
  sanitizeToolResult
    (VObj [(js "content",
            VArr [VObj [(js "type", VStr (js "image"));
                        (js "mimeType", VStr (js "image/png"))];
                  VObj [(js "type", VStr (js "image"));
                        (js "data", VStr (js ""))]])])
  = VObj [(js "content",
           VArr [VObj [(js "type", VStr (js "image"));
                       (js "mimeType", VStr (js "image/png"));
                       (js "bytes", VUndefined);
                       (js "omitted", VBool true)];
                 VObj [(js "type", VStr (js "image"));
                       (js "bytes", VUndefined);
                       (js "omitted", VBool true)]])]
  /\ sanitizeToolItem (VObj [(js "type", VStr (js "image"))])
     <> VObj [(js "type", VStr (js "image"))].
Proof. split; [vm_compute; reflexivity | vm_compute; discriminate]. Qed.

(** ** The reply payload *)

Section PayloadFacts.

Lemma trimStart_idem s : trimStart (trimStart s) = trimStart s.
Proof.
  induction s as [|c s IH]; simpl; [done|].
  destruct (isWhiteSpace c) eqn:E; [done|]. simpl. by rewrite E.
Qed.

Lemma trimStart_snoc a c :
  isWhiteSpace c = false -> trimStart (a ++ [c]) = trimStart a ++ [c].
Proof.
  intros Hc. induction a as [|d a IH]; simpl.
  - by rewrite Hc.
  - by destruct (isWhiteSpace d).
Qed.

Lemma trimStart_trimEnd s :
  trimStart s = s -> trimStart (trimEnd s) = trimEnd s.
Proof.
  destruct s as [|c s]; [done|]. simpl.
  destruct (isWhiteSpace c) eqn:E.
  - intros Heq. exfalso.
    assert (Hlen : forall x, (length (trimStart x) <= length x)%nat).
    { induction x as [|d x IH]; simpl; [lia|].
      destruct (isWhiteSpace d); simpl; lia. }
    specialize (Hlen s). rewrite Heq in Hlen. simpl in Hlen. lia.
  - intros _. unfold trimEnd. simpl rev.
    rewrite trimStart_snoc by done. rewrite rev_app_distr. simpl.
    by rewrite E.
Qed.

Lemma trimEnd_idem s : trimEnd (trimEnd s) = trimEnd s.
Proof. unfold trimEnd. by rewrite rev_involutive, trimStart_idem. Qed.

Lemma trim_idem s : trim (trim s) = trim s.
Proof.
  unfold trim.
  rewrite (trimStart_trimEnd (trimStart s)) by apply trimStart_idem.
  apply trimEnd_idem.
Qed.

Lemma keepPayload_toPayload item :
  keepPayload (toPayload item) = hasContent item.
Proof.
  unfold keepPayload, toPayload, hasContent. simpl.
  destruct (truthy (trim (item_text item))) eqn:Et; simpl.
  - by rewrite Et.
  - destruct (item_media item) as [[|u us]|]; simpl; try done.
    by rewrite orb_true_r.
Qed.

Lemma buildPayloads_filter items :
  buildPayloads items = map toPayload (filter (fun i => hasContent i = true) items).
Proof.
  unfold buildPayloads. induction items as [|i items IH]; [done|].
  cbn [map]. rewrite !filter_cons, keepPayload_toPayload.
  destruct (decide (hasContent i = true)); simpl; by rewrite IH.
Qed.

Lemma toPayload_carries item :
  hasContent item = true -> carriesContent (toPayload item).
Proof.
  unfold hasContent, carriesContent, toPayload. simpl.
  destruct (truthy (trim (item_text item))) eqn:Et; simpl.
  - intros _. left. eexists. split; [reflexivity|]. split.
    + intros Hnil. by rewrite Hnil in Et.
    + apply trim_idem.
  - intros Hm. right.
    destruct (item_media item) as [[|u us]|]; simpl in *; try done.
    eauto.
Qed.

End PayloadFacts.

(** C9. The payload is made of the candidate items that have trimmed text
    or a media reference, each with its text trimmed, in order; every item
    of it, and so every item of a returned result, carries non-empty
    trimmed text or at least one media reference. *)
Theorem payload_items_carry_content `{Collaborators}
    (p : SubscribeParams) (messages : list AgentMessage)
    (r : RunVars) (st : Interp) (items : list ReplyItem) :
  buildPayloads items
  = map toPayload (filter (fun i => hasContent i = true) items)
  /\ Forall carriesContent (buildPayloads items)
  /\ match payloads (resultOf p messages r st) with
     | Some ps => ps <> [] /\ Forall carriesContent ps
     | None => True
     end.
Proof.
  assert (Hall : forall l, Forall carriesContent (buildPayloads l)).
  { intros l. rewrite buildPayloads_filter.
    apply Forall_fmap, Forall_forall. intros i Hi.
    apply list_elem_of_filter in Hi as [Hc _]. by apply toPayload_carries. }
  split; [apply buildPayloads_filter|]. split; [apply Hall|].
  unfold resultOf. cbn [payloads].
  destruct (buildPayloads _) as [|pl ps] eqn:E; [done|].
  split; [done|]. rewrite <- E. apply Hall.
Qed.

(** C8 (as amended). Inline tool summaries are produced exactly when
    verbose mode is on, neither a partial-reply observer nor a tool-result
    observer was supplied, and there is at least one tool record. When
    that condition fails the candidate reply items are those of a run
    without tool records; when it holds, the summaries of the tool records
    stand between the error text and the assistant texts. Supplying
    either observer makes it fail. *)
Theorem inline_tool_results_condition `{Collaborators}
    (p : SubscribeParams) (lastAssistant : option AgentMessage)
    (texts : list str) (metas : list (str * option str)) :
  (inlineToolResults p metas = true <->
     verboseLevel p = Some VerboseOn /\ onPartialReply p = false
     /\ onToolResult p = false /\ metas <> [])
  /\ (inlineToolResults p metas = false ->
      replyItemsOf p lastAssistant texts metas
      = replyItemsOf p lastAssistant texts [])
  /\ (inlineToolResults p metas = true ->
      exists before after,
        replyItemsOf p lastAssistant texts [] = before ++ after
        /\ replyItemsOf p lastAssistant texts metas
           = before ++ concat (map toolReplyItem metas) ++ after)
  /\ (onToolResult p = true \/ onPartialReply p = true ->
      inlineToolResults p metas = false).
Proof.
  assert (Hnil : inlineToolResults p [] = false).
  { unfold inlineToolResults. simpl. by rewrite andb_false_r. }
  split; [|split; [|split]].
  - unfold inlineToolResults.
    rewrite !andb_true_iff, !negb_true_iff, bool_decide_eq_true.
    rewrite Nat.ltb_lt. split.
    + intros [[[? ?] ?] Hlen]. repeat split; try done.
      intros ->. simpl in Hlen. lia.
    + intros (? & ? & ? & Hne). repeat split; try done.
      destruct metas; [done|simpl; lia].
  - intros Hoff. unfold replyItemsOf. by rewrite Hoff, Hnil.
  - intros Hon. unfold replyItemsOf. rewrite Hon, Hnil.
    eexists _, _. split; reflexivity.
  - unfold inlineToolResults.
    intros [-> | ->]; simpl; by rewrite ?andb_false_r.
Qed.

(** C8, the claim as stated fails: verbose mode is on, no tool-result
    observer is supplied and there is a tool record, yet no inline summary
    is produced, because a partial-reply observer is supplied. *)
Lemma inline_tool_results_counterexample :
  let p := {| runId := js "run-1"; verboseLevel := Some VerboseOn;
              shouldEmitToolResult := None; onToolResult := false;
              onBlockReply := false; blockReplyBreak := None;
              onPartialReply := true; onAgentEvent := false;
              enforceFinalTag := false |} in
  let metas := [(js "bash", Some (js "ls"))] in
  verboseLevel p = Some VerboseOn /\ onToolResult p = false /\ metas <> []
  /\ inlineToolResults p metas = false
  /\ @replyItemsOf plainCollaborators p None [js "done"] metas
     = [{| item_text := js "done"; item_media := None |}].
Proof. repeat split; try done. Qed.

(** ** The registry functions *)

(** C10. [queueEmbeddedPiMessage] answers [true] exactly when a handle is
    registered for the session id and reports streaming; it then passes
    the text to that run's session and changes nothing else; when it
    answers [false] the state is as before. [abortEmbeddedPiRun] answers
    [false] and changes nothing when no handle is registered, and
    otherwise calls the handle's [abort] and answers [true]. *)
Theorem registry_queue_and_abort `{Collaborators} (w : World) (sid txt : str) :
  (fst (queueEmbeddedPiMessage sid txt w) = true <->
     exists h r, ACTIVE_EMBEDDED_RUNS w !! sid = Some h
                 /\ runs w !! h = Some r
                 /\ isStreaming (session r) = true)
  /\ (forall h r,
        ACTIVE_EMBEDDED_RUNS w !! sid = Some h ->
        runs w !! h = Some r ->
        isStreaming (session r) = true ->
        queueEmbeddedPiMessage sid txt w
        = (true,
           withRuns w
             (<[h := withSession r (sessionQueueMessage txt (session r))]>
                (runs w)))
        /\ queuedMessages (sessionQueueMessage txt (session r))
           = queuedMessages (session r) ++ [txt])
  /\ (fst (queueEmbeddedPiMessage sid txt w) = false ->
      snd (queueEmbeddedPiMessage sid txt w) = w)
  /\ (ACTIVE_EMBEDDED_RUNS w !! sid = None ->
      abortEmbeddedPiRun sid w = (false, w))
  /\ (forall h,
        ACTIVE_EMBEDDED_RUNS w !! sid = Some h ->
        abortEmbeddedPiRun sid w
        = (true, withRuns w (alter abortRun h (runs w)))).
Proof.
  unfold queueEmbeddedPiMessage, abortEmbeddedPiRun, handle_isStreaming,
    handle_queueMessage, handle_abort.
  split; [|split; [|split; [|split]]].
  - destruct (ACTIVE_EMBEDDED_RUNS w !! sid) as [h|] eqn:Eh.
    + destruct (runs w !! h) as [r|] eqn:Er.
      * destruct (isStreaming (session r)) eqn:Es; simpl.
        -- split; [eauto|done].
        -- split; [done|]. intros (h' & r' & [= <-] & Hr & Hs). congruence.
      * simpl. split; [done|]. intros (h' & r' & [= <-] & Hr & Hs). congruence.
    + simpl. split; [done|]. intros (h' & r' & ? & _). congruence.
  - intros h r -> -> ->. by simpl.
  - destruct (ACTIVE_EMBEDDED_RUNS w !! sid) as [h|]; [|done].
    destruct (runs w !! h) as [r|]; [|done].
    by destruct (isStreaming (session r)).
  - by intros ->.
  - by intros h ->.
Qed.

(** ** Abort *)

(** C5 (as amended). [abortRun] is idempotent on the run's own variables:
    after one call or more the [aborted] flag is set, and the timers, the
    listener and the subscription are as before. It is not idempotent on
    the session: every call asks the session to stop, so [n] calls make
    [n] requests. The three triggers, the handle's [abort], the timeout
    while the timer is armed and the signal while the listener is attached,
    each make one such call. *)
Theorem abort_sets_flag_once_requests_each_time (r : RunVars) (n : nat) :
  aborted (Nat.iter (S n) abortRun r) = true
  /\ abortRequests (session (Nat.iter n abortRun r))
     = (abortRequests (session r) + n)%nat
  /\ abortTimer (Nat.iter n abortRun r) = abortTimer r
  /\ abortWarnTimer (Nat.iter n abortRun r) = abortWarnTimer r
  /\ abortListener (Nat.iter n abortRun r) = abortListener r
  /\ subscribed (Nat.iter n abortRun r) = subscribed r
  /\ emitted (Nat.iter n abortRun r) = emitted r
  /\ params (Nat.iter n abortRun r) = params r
  /\ handle_abort r = abortRun r
  /\ (abortTimer r = Some Armed ->
      aborted (onTimeout r) = true
      /\ session (onTimeout r) = sessionAbort (session r))
  /\ (abortListener r = true ->
      aborted (onAbortSignal r) = true
      /\ session (onAbortSignal r) = sessionAbort (session r)).
Proof.
  split; [done|].
  assert (Hiter : abortRequests (session (Nat.iter n abortRun r))
                  = (abortRequests (session r) + n)%nat
                  /\ abortTimer (Nat.iter n abortRun r) = abortTimer r
                  /\ abortWarnTimer (Nat.iter n abortRun r) = abortWarnTimer r
                  /\ abortListener (Nat.iter n abortRun r) = abortListener r
                  /\ subscribed (Nat.iter n abortRun r) = subscribed r
                  /\ emitted (Nat.iter n abortRun r) = emitted r
                  /\ params (Nat.iter n abortRun r) = params r).
  { induction n as [|n IH]; simpl.
    - repeat split; lia.
    - destruct IH as (I1 & I2 & I3 & I4 & I5 & I6 & I7).
      rewrite I1, I2, I3, I4, I5, I6, I7. repeat split; lia. }
  destruct Hiter as (I1 & I2 & I3 & I4 & I5 & I6 & I7).
  do 7 (split; [assumption|]). split; [done|]. split.
  - intros Ht. unfold onTimeout. by rewrite Ht.
  - intros Hl. unfold onAbortSignal. by rewrite Hl.
Qed.

(** C5, the claim as stated fails: when the timeout fires and the
    cancellation signal (or an explicit [abortEmbeddedPiRun]) follows, the
    session is asked to stop twice, not once; the [aborted] flag is the
    same as after one call. *)
Lemma abort_twice_counterexample :
  let w0 := @startRun plainCollaborators 0 (plainRun (js "s1") false)
              emptyWorld in
  abortState 0 (envSteps w0 [TimeoutFires 0]) = Some (true, 1%nat)
  /\ abortState 0 (envSteps w0 [TimeoutFires 0; AbortSignalFires 0])
     = Some (true, 2%nat)
  /\ abortState 0 (envSteps w0 [TimeoutFires 0; AbortRunCall (js "s1")])
     = Some (true, 2%nat)
  /\ forall r, abortRun (abortRun r) <> abortRun r.
Proof.
  split; [vm_compute; reflexivity|].
  split; [vm_compute; reflexivity|].
  split; [vm_compute; reflexivity|].
  intros r Heq. apply (f_equal (fun x => abortRequests (session x))) in Heq.
  simpl in Heq. lia.
Qed.

(** ** Compaction retry *)

Section CompactionFacts.

Context `{Collaborators}.

Lemma ensureCompactionPromise_keeps c :
  compactionInFlight (ensureCompactionPromise c) = compactionInFlight c
  /\ pendingCompactionRetry (ensureCompactionPromise c)
     = pendingCompactionRetry c
  /\ is_Some (compactionRetryPromise (ensureCompactionPromise c)).
Proof.
  unfold ensureCompactionPromise.
  destruct (compactionRetryPromise c) eqn:E; simpl; rewrite ?E; eauto.
Qed.

(** The handler on a compaction end that announces a retry. *)
Lemma compaction_retry_handler (p : SubscribeParams) (st : Interp) :
  let st' := fst (handleEvent p st (auto_compaction_end true)) in
  acc st' = emptyAccumulator
  /\ tools st' = emptyToolRecords
  /\ compactionInFlight (compaction st') = false
  /\ pendingCompactionRetry (compaction st')
     = S (pendingCompactionRetry (compaction st))
  /\ is_Some (compactionRetryPromise (compaction st')).
Proof.
  cbn [handleEvent]. unfold onCompactionEnd, resetForCompactionRetry.
  cbv zeta.
  destruct (runDebouncer p _) as [d out]. cbn [fst acc tools compaction withCompaction].
  unfold noteCompactionRetry.
  match goal with
  | |- context [ensureCompactionPromise ?c] =>
      destruct (ensureCompactionPromise_keeps c) as (H1 & H2 & H3)
  end.
  rewrite H1, H2. cbn [compactionInFlight pendingCompactionRetry].
  repeat split; try done. lia.
Qed.

Lemma deliver_other (h h' : nat) (evt : AgentEvent) (w : World) :
  h' <> h ->
  interps (deliver h evt w) !! h' = interps w !! h'
  /\ runs (deliver h evt w) !! h' = runs w !! h'
  /\ ACTIVE_EMBEDDED_RUNS (deliver h evt w) = ACTIVE_EMBEDDED_RUNS w.
Proof.
  intros Hne. unfold deliver.
  destruct (runs w !! h) as [r|]; [|done].
  destruct (interps w !! h) as [st|]; [|done].
  destruct (subscribed r); [|done].
  destruct (handleEvent _ st evt) as [st' out]. cbn [interps runs ACTIVE_EMBEDDED_RUNS].
  by rewrite !lookup_insert_ne.
Qed.

Lemma deliver_self (h : nat) (evt : AgentEvent) (w : World) r st :
  runs w !! h = Some r -> interps w !! h = Some st -> subscribed r = true ->
  interps (deliver h evt w) !! h
  = Some (fst (handleEvent (sub (params r)) st evt))
  /\ runs (deliver h evt w) !! h
     = Some (withEmitted (snd (handleEvent (sub (params r)) st evt)) r).
Proof.
  intros Hr Hst Hsub. unfold deliver. rewrite Hr, Hst, Hsub.
  destruct (handleEvent _ st evt) as [st' out]. cbn [interps runs fst snd].
  by rewrite !lookup_insert_eq.
Qed.

End CompactionFacts.

(** C4. When the session of a subscribed run reports a compaction end that
    announces a retry, that run's pending-retry counter goes up by one,
    compaction is no longer in flight, and its accumulator (finalized
    blocks, delta buffer, both dedupe values) and its tool records (list
    and per-call-id cache) are empty; the interpreter state and the
    variables of every other run, and the registry, are as before. *)
Theorem compaction_retry_resets_run `{Collaborators}
    (w : World) (h : nat) (r : RunVars) (st : Interp) :
  runs w !! h = Some r ->
  interps w !! h = Some st ->
  subscribed r = true ->
  let w' := envStep w (SessionEmits h (auto_compaction_end true)) in
  (exists st',
     interps w' !! h = Some st'
     /\ pendingCompactionRetry (compaction st')
        = S (pendingCompactionRetry (compaction st))
     /\ compactionInFlight (compaction st') = false
     /\ assistantTexts (acc st') = []
     /\ deltaBuffer (acc st') = []
     /\ lastStreamedAssistant (acc st') = None
     /\ lastBlockReplyText (acc st') = None
     /\ toolMetas (tools st') = []
     /\ toolMetaById (tools st') = ∅)
  /\ (forall h', h' <> h ->
        interps w' !! h' = interps w !! h' /\ runs w' !! h' = runs w !! h')
  /\ ACTIVE_EMBEDDED_RUNS w' = ACTIVE_EMBEDDED_RUNS w.
Proof.
  intros Hr Hst Hsub. cbn [envStep]. split; [|split].
  - destruct (deliver_self h (auto_compaction_end true) w r st Hr Hst Hsub)
      as [Hi _].
    eexists. split; [exact Hi|].
    destruct (compaction_retry_handler (sub (params r)) st)
      as (Ha & Ht & Hf & Hp & _).
    cbv zeta in *. rewrite Ha, Ht, Hf, Hp. done.
  - intros h' Hne.
    destruct (deliver_other h h' (auto_compaction_end true) w Hne)
      as (? & ? & _). done.
  - unfold deliver. rewrite Hr, Hst, Hsub.
    by destruct (handleEvent _ st _).
Qed.

(** The theorem on two runs with finalized text: the retry empties run 0
    and leaves run 1 as it is. *)
Lemma compaction_retry_resets_run_witness :
  exists r st,
    runs twoRuns !! 0%nat = Some r /\ interps twoRuns !! 0%nat = Some st
    /\ subscribed r = true
    /\ assistantTexts (acc st) = [js "one"]
    /\ (exists st',
          interps (envStep twoRuns (SessionEmits 0 (auto_compaction_end true)))
            !! 0%nat = Some st'
          /\ assistantTexts (acc st') = []
          /\ toolMetas (tools st') = [])
    /\ interps (envStep twoRuns (SessionEmits 0 (auto_compaction_end true)))
         !! 1%nat
       = interps twoRuns !! 1%nat.
Proof.
  assert (Hr : exists r, runs twoRuns !! 0%nat = Some r
                         /\ subscribed r = true)
    by (vm_compute; eexists; split; reflexivity).
  assert (Hst : exists st, interps twoRuns !! 0%nat = Some st
                           /\ assistantTexts (acc st) = [js "one"])
    by (vm_compute; eexists; split; reflexivity).
  destruct Hr as (r & Er & Hsub). destruct Hst as (st & Est & Htexts).
  destruct (@compaction_retry_resets_run plainCollaborators twoRuns 0 r st
              Er Est Hsub) as ((st' & Hst' & _ & _ & Ht & _ & _ & _ & Hm & _)
                               & Hother & _).
  exists r, st. do 4 (split; [assumption|]). split.
  - exists st'. split; [assumption|]. split; assumption.
  - apply Hother. discriminate.
Defined.

(** ** Runs *)

Section RunFacts.

Context `{Collaborators}.

Lemma advances_refl r : advances r r.
Proof. by split. Qed.

Lemma advances_trans r1 r2 r3 :
  advances r1 r2 -> advances r2 r3 -> advances r1 r3.
Proof. intros [] []. split; auto. Qed.

Lemma advances_withSession r s : advances r (withSession r s).
Proof. by split. Qed.

Lemma advances_withEmitted r out : advances r (withEmitted out r).
Proof. by split. Qed.

Lemma advances_abortRun r : advances r (abortRun r).
Proof. split; intros _; [done|by right]. Qed.

Lemma advances_onTimeout r :
  advances r (onTimeout r) /\ (timerInv r -> aborted (onTimeout r) = true).
Proof.
  unfold advances, timerInv, onTimeout.
  destruct (abortTimer r) as [[]|] eqn:E; simpl; rewrite ?E;
    repeat split; auto; intros [?|?]; done.
Qed.

Lemma advances_onWarnTimer r : advances r (onWarnTimer r).
Proof.
  unfold advances, timerInv, onWarnTimer.
  destruct (abortWarnTimer r) as [[]|]; by simpl.
Qed.

Lemma advances_onAbortSignal r : advances r (onAbortSignal r).
Proof.
  unfold advances, timerInv, onAbortSignal.
  destruct (abortListener r); simpl; [|done].
  split; intros _; [done|by right].
Qed.

Lemma updateRun_lookup h h' f (w : World) :
  runs (updateRun h' f w) !! h
  = if decide (h' = h) then f <$> runs w !! h' else runs w !! h.
Proof. unfold updateRun. cbn [runs withRuns]. apply lookup_alter. Qed.

Lemma updateRun_interps h' f (w : World) :
  interps (updateRun h' f w) = interps w.
Proof. done. Qed.

Lemma updateRun_registry h' f (w : World) :
  ACTIVE_EMBEDDED_RUNS (updateRun h' f w) = ACTIVE_EMBEDDED_RUNS w.
Proof. done. Qed.

Lemma updateRun_advances h h' f (w : World) r :
  (forall x, advances x (f x)) ->
  runs w !! h = Some r ->
  exists r', runs (updateRun h' f w) !! h = Some r' /\ advances r r'.
Proof.
  intros Hf Hr. rewrite updateRun_lookup.
  destruct (decide (h' = h)) as [->|Hne].
  - rewrite Hr. simpl. eauto.
  - eauto using advances_refl.
Qed.

Local Ltac same_run r :=
  exists r; split; [assumption|]; split; [apply advances_refl|];
  try (intros; discriminate).

Local Ltac other_event :=
  eexists; split; [eassumption|]; split; [assumption|]; intros; discriminate.

(** One event around a run keeps the run's entry, and keeps what
    [advances] says; the timer callback of the run itself sets
    [aborted]. *)
Lemma env_run_step e (w : World) h r :
  runs w !! h = Some r ->
  exists r', runs (envStep w e) !! h = Some r' /\ advances r r'
             /\ (e = TimeoutFires h -> timerInv r -> aborted r' = true).
Proof.
  intros Hr. destruct e as [h' evt|h' b|h'|h'|h'|sid txt|sid|sid h'];
    cbn [envStep].
  - unfold deliver.
    destruct (runs w !! h') as [r0|] eqn:Er0; [|same_run r].
    destruct (interps w !! h') as [st|]; [|same_run r].
    destruct (subscribed r0); [|same_run r].
    destruct (handleEvent _ st evt) as [st' out]. cbn [runs].
    destruct (decide (h' = h)) as [->|Hne].
    + rewrite lookup_insert_eq. rewrite Hr in Er0. injection Er0 as <-.
      eexists. split; [done|]. split; [apply advances_withEmitted|done].
    + rewrite lookup_insert_ne by done. same_run r.
  - destruct (updateRun_advances h h'
                (fun r => withSession r (sessionSetStreaming b (session r)))
                w r) as (r' & ? & ?); [intros; apply advances_withSession|done|].
    other_event.
  - rewrite updateRun_lookup. destruct (decide (h' = h)) as [->|Hne].
    + rewrite Hr. simpl. eexists. split; [done|].
      destruct (advances_onTimeout r). split; [done|]. auto.
    + exists r. split; [done|]. split; [apply advances_refl|].
      intros [= ->]. done.
  - destruct (updateRun_advances h h' onWarnTimer w r)
      as (r' & ? & ?); [apply advances_onWarnTimer|done|]. other_event.
  - destruct (updateRun_advances h h' onAbortSignal w r)
      as (r' & ? & ?); [apply advances_onAbortSignal|done|]. other_event.
  - unfold queueEmbeddedPiMessage.
    destruct (ACTIVE_EMBEDDED_RUNS w !! sid) as [h0|]; [|same_run r].
    destruct (runs w !! h0) as [r0|] eqn:Er0; [|same_run r].
    destruct (negb (handle_isStreaming r0)); [same_run r|].
    cbn [snd runs withRuns].
    destruct (decide (h0 = h)) as [->|Hne].
    + rewrite lookup_insert_eq. rewrite Hr in Er0. injection Er0 as <-.
      eexists. split; [done|]. split; [apply advances_withSession|done].
    + rewrite lookup_insert_ne by done. same_run r.
  - unfold abortEmbeddedPiRun.
    destruct (ACTIVE_EMBEDDED_RUNS w !! sid) as [h0|]; [|same_run r].
    cbn [snd].
    destruct (updateRun_advances h h0 handle_abort w r)
      as (r' & ? & ?); [apply advances_abortRun|done|]. other_event.
  - same_run r.
Qed.

Lemma env_interp_step e (w : World) h st :
  interps w !! h = Some st -> is_Some (interps (envStep w e) !! h).
Proof.
  intros Hst. destruct e as [h' evt|h' b|h'|h'|h'|sid txt|sid|sid h'];
    cbn [envStep]; rewrite ?updateRun_interps; eauto.
  - unfold deliver.
    destruct (runs w !! h') as [r0|]; [|by eauto].
    destruct (interps w !! h') as [st0|]; [|by eauto].
    destruct (subscribed r0); [|by eauto].
    destruct (handleEvent _ st0 evt) as [st' out]. cbn [interps].
    destruct (decide (h' = h)) as [->|Hne].
    + rewrite lookup_insert_eq. eauto.
    + rewrite lookup_insert_ne by done. eauto.
  - unfold queueEmbeddedPiMessage.
    destruct (ACTIVE_EMBEDDED_RUNS w !! sid) as [h0|]; [|by eauto].
    destruct (runs w !! h0) as [r0|]; [|by eauto].
    destruct (negb (handle_isStreaming r0)); by eauto.
  - unfold abortEmbeddedPiRun.
    destruct (ACTIVE_EMBEDDED_RUNS w !! sid) as [h0|]; by eauto.
Qed.

Lemma env_run_steps es : forall (w : World) h r,
  runs w !! h = Some r ->
  exists r', runs (envSteps w es) !! h = Some r' /\ advances r r'
             /\ (In (TimeoutFires h) es -> timerInv r -> aborted r' = true).
Proof.
  induction es as [|e es IH]; intros w h r Hr; cbn [envSteps foldl].
  - exists r. split; [done|]. split; [apply advances_refl|]. by intros [].
  - destruct (env_run_step e w h r Hr) as (r1 & Hr1 & Hadv1 & Hfire).
    destruct (IH (envStep w e) h r1 Hr1) as (r2 & Hr2 & Hadv2 & Hlater).
    exists r2. split; [done|]. split; [by eapply advances_trans|].
    intros [He|Hin] Hinv.
    + apply Hadv2. by apply Hfire.
    + apply Hlater; [done|]. by apply Hadv1.
Qed.

Lemma env_interp_steps es : forall (w : World) h st,
  interps w !! h = Some st -> is_Some (interps (envSteps w es) !! h).
Proof.
  induction es as [|e es IH]; intros w h st Hst; cbn [envSteps foldl].
  - eauto.
  - destruct (env_interp_step e w h st Hst) as [st1 Hst1]. eauto.
Qed.

End RunFacts.

Section CleanupFacts.

Context `{Collaborators}.

Lemma clearTimer_not_armed t : clearTimer t <> Some Armed.
Proof. by destruct t as [[]|]. Qed.

(** The inner [finally], on a world that holds the run. *)
Lemma cleanup_spec h p (w : World) r st :
  runs w !! h = Some r -> interps w !! h = Some st ->
  cleanedUp h (sessionId p) (cleanup h p w)
  /\ abortedIn h (cleanup h p w) = Some (aborted r)
  /\ ACTIVE_EMBEDDED_RUNS (cleanup h p w)
     = (if bool_decide (ACTIVE_EMBEDDED_RUNS w !! sessionId p = Some h)
        then delete (sessionId p) (ACTIVE_EMBEDDED_RUNS w)
        else ACTIVE_EMBEDDED_RUNS w).
Proof.
  intros Hr Hst. unfold cleanup. cbv zeta.
  set (w1 := updateRun h clearTimers w).
  set (w2 := updateRun h unsubscribe w1).
  assert (Hr2 : runs w2 !! h = Some (unsubscribe (clearTimers r))).
  { unfold w2, w1. rewrite !updateRun_lookup, !decide_True by done.
    by rewrite Hr. }
  assert (Hst2 : interps w2 !! h = Some st) by done.
  assert (Hreg2 : ACTIVE_EMBEDDED_RUNS w2 = ACTIVE_EMBEDDED_RUNS w) by done.
  set (w3 := flushToolDebouncer h w2).
  destruct (runDebouncer (sub (params (unsubscribe (clearTimers r))))
              (debouncerFlush (toolDebouncer st))) as [d out] eqn:Ed.
  assert (Hw3 : w3 = {| ACTIVE_EMBEDDED_RUNS := ACTIVE_EMBEDDED_RUNS w2;
                        runs := <[h := withEmitted out
                                         (unsubscribe (clearTimers r))]> (runs w2);
                        interps := <[h := withDebouncer st d]> (interps w2) |}).
  { unfold w3, flushToolDebouncer. by rewrite Hr2, Hst2, Ed. }
  assert (Hd : d = fst (debouncerFlush (toolDebouncer st))).
  { unfold runDebouncer in Ed. by injection Ed as <- _. }
  clearbody w3. subst w3.
  set (w3 := {| ACTIVE_EMBEDDED_RUNS := _; runs := _; interps := _ |}).
  set (w4 := releaseHandle h (sessionId p) w3).
  assert (Hr4 : runs w4 !! h
                = Some (withEmitted out (unsubscribe (clearTimers r)))).
  { unfold w4, releaseHandle. case_bool_decide; cbn [runs withRegistry w3];
      by rewrite lookup_insert_eq. }
  assert (Hst4 : interps w4 !! h = Some (withDebouncer st d)).
  { unfold w4, releaseHandle. case_bool_decide; cbn [interps withRegistry w3];
      by rewrite lookup_insert_eq. }
  assert (Hreg4 : ACTIVE_EMBEDDED_RUNS w4
                  = if bool_decide (ACTIVE_EMBEDDED_RUNS w !! sessionId p = Some h)
                    then delete (sessionId p) (ACTIVE_EMBEDDED_RUNS w)
                    else ACTIVE_EMBEDDED_RUNS w).
  { unfold w4, releaseHandle. cbn [ACTIVE_EMBEDDED_RUNS w3]. rewrite Hreg2.
    by case_bool_decide. }
  set (w5 := updateRun h disposeSession w4).
  set (w6 := updateRun h removeAbortListener w5).
  assert (Hr6 : runs w6 !! h
                = Some (removeAbortListener
                          (disposeSession
                             (withEmitted out (unsubscribe (clearTimers r)))))).
  { unfold w6, w5. rewrite !updateRun_lookup, !decide_True by done.
    by rewrite Hr4. }
  split; [|split].
  - eexists _, _. split; [exact Hr6|]. split; [exact Hst4|].
    cbn [abortTimer abortWarnTimer subscribed session disposed abortListener
         removeAbortListener disposeSession withSession sessionDispose
         withEmitted unsubscribe clearTimers toolDebouncer withDebouncer].
    split; [apply clearTimer_not_armed|]. do 2 (split; [done|]).
    split; [by eexists|]. split; [|done].
    change (ACTIVE_EMBEDDED_RUNS w6) with (ACTIVE_EMBEDDED_RUNS w4).
    rewrite Hreg4. case_bool_decide as Hown.
    + by rewrite lookup_delete_eq.
    + done.
  - unfold abortedIn. by rewrite Hr6.
  - exact Hreg4.
Qed.

Lemma startRun_entries h p (w : World) :
  exists r, runs (startRun h p w) !! h = Some r
            /\ abortTimer r = Some Armed
            /\ interps (startRun h p w) !! h = Some initialInterp.
Proof.
  unfold startRun. cbn [runs interps]. rewrite !lookup_insert_eq.
  eexists. split; [done|]. split; [|done].
  by destruct (abortSignal p) as [[]|].
Qed.

(** When the prompt settles the run's entries are there; a timeout that
    fired while the prompt was pending has set [aborted]. *)
Lemma promptSettled_entries h p sc (w : World) :
  exists r st,
    runs (promptSettled h p sc w) !! h = Some r
    /\ interps (promptSettled h p sc w) !! h = Some st
    /\ (In (TimeoutFires h) (duringPrompt sc) -> aborted r = true).
Proof.
  destruct (startRun_entries h p w) as (r1 & Hr1 & Harmed & Hst1).
  unfold promptSettled.
  set (w2 := updateRun h _ (startRun h p w)).
  assert (Hr2 : exists r2, runs w2 !! h = Some r2 /\ timerInv r2).
  { unfold w2. rewrite updateRun_lookup, decide_True, Hr1 by done.
    eexists. split; [done|]. by left. }
  destruct Hr2 as (r2 & Hr2 & Hinv).
  destruct (env_run_steps (duringPrompt sc) w2 h r2 Hr2)
    as (r3 & Hr3 & _ & Hfire).
  destruct (env_interp_steps (duringPrompt sc) w2 h initialInterp Hst1)
    as [st3 Hst3].
  exists r3, st3. auto.
Qed.

(** Only a compaction start and a compaction end with retry make the
    compaction state busy. *)
Lemma handleEvent_keeps_idle (p : SubscribeParams) (st : Interp) evt :
  compactionBusy (compaction st) = false ->
  evt <> auto_compaction_start -> evt <> auto_compaction_end true ->
  compactionBusy (compaction (fst (handleEvent p st evt))) = false.
Proof.
  intros Hidle Hs He.
  assert (Hclear : forall c, compactionBusy c = false ->
            compactionBusy (fst (maybeResolveCompactionWait c)) = false).
  { intros c Hc. unfold maybeResolveCompactionWait.
    by destruct (_ && _). }
  destruct evt as [n i a|n i r|n i e r|m a|m| | |[]| |t]; cbn [handleEvent];
    try done.
  - unfold onMessageUpdate. cbv zeta.
    repeat match goal with
           | |- context [fst (if ?b then _ else _)] => destruct b
           end; exact Hidle.
  - unfold onMessageEnd. destruct m as [msg|]; [|done].
    cbv zeta.
    repeat match goal with
           | |- context [fst (if ?b then _ else _)] => destruct b
           end; exact Hidle.
  - unfold onCompactionEnd. cbv zeta.
    match goal with
    | |- context [maybeResolveCompactionWait ?c] =>
        pose proof (Hclear c) as Hc;
        destruct (maybeResolveCompactionWait c) as [c' out']
    end.
    cbn [fst compaction withCompaction] in *. apply Hc.
    unfold compactionBusy in *. apply orb_false_elim in Hidle as [_ Hp].
    cbn [compactionInFlight pendingCompactionRetry]. by rewrite Hp.
  - unfold onAgentEnd. cbv zeta. destruct (runDebouncer p _) as [d out].
    cbn [compaction withDebouncer].
    pose proof Hidle as Hidle'.
    unfold compactionBusy in Hidle'. apply orb_false_elim in Hidle' as [Hf Hp].
    rewrite Hp. specialize (Hclear (compaction st) Hidle).
    destruct (maybeResolveCompactionWait (compaction st)) as [c' out'].
    cbn [fst compaction withCompaction] in *. exact Hclear.
Qed.

Lemma env_step_keeps_idle e (w : World) h :
  compactionIdle h w -> startsCompaction h e = false ->
  compactionIdle h (envStep w e).
Proof.
  intros (st & Hst & Hidle) Hev.
  destruct e as [h' evt|h' b|h'|h'|h'|sid txt|sid|sid h'];
    cbn [envStep]; try (by exists st).
  - unfold deliver.
    destruct (runs w !! h') as [r0|]; [|by exists st].
    destruct (interps w !! h') as [st0|] eqn:Est0; [|by exists st].
    destruct (subscribed r0); [|by exists st].
    pose proof (handleEvent_keeps_idle (sub (params r0)) st0 evt) as Hkeep.
    destruct (handleEvent _ st0 evt) as [st' out].
    unfold compactionIdle. cbn [interps fst] in *.
    destruct (decide (h' = h)) as [->|Hne].
    + exists st'. rewrite lookup_insert_eq. split; [done|].
      rewrite Hst in Est0. injection Est0 as <-.
      apply Hkeep; [done| |]; intros ->; cbn in Hev;
        by rewrite Nat.eqb_refl in Hev.
    + exists st. by rewrite lookup_insert_ne.
  - unfold queueEmbeddedPiMessage.
    destruct (ACTIVE_EMBEDDED_RUNS w !! sid) as [h0|]; [|by exists st].
    destruct (runs w !! h0) as [r0|]; [|by exists st].
    destruct (negb (handle_isStreaming r0)); by exists st.
  - unfold abortEmbeddedPiRun.
    destruct (ACTIVE_EMBEDDED_RUNS w !! sid) as [h0|]; by exists st.
Qed.

Lemma env_steps_keep_idle es : forall (w : World) h,
  compactionIdle h w -> forallb (fun e => negb (startsCompaction h e)) es = true ->
  compactionIdle h (envSteps w es).
Proof.
  induction es as [|e es IH]; intros w h Hidle Hes; cbn [envSteps foldl].
  - done.
  - cbn [forallb] in Hes. apply andb_true_iff in Hes as [He Hes].
    apply negb_true_iff in He. apply IH; [|done].
    by apply env_step_keeps_idle.
Qed.

(** A session that reports no compaction while the prompt is pending
    leaves nothing to wait for. *)
Lemma promptSettled_idle h p sc (w : World) :
  forallb (fun e => negb (startsCompaction h e)) (duringPrompt sc) = true ->
  compactionIdle h (promptSettled h p sc w).
Proof.
  intros Hes. unfold promptSettled. apply env_steps_keep_idle; [|done].
  destruct (startRun_entries h p w) as (r1 & _ & _ & Hst1).
  exists initialInterp. split; [|done]. by rewrite updateRun_interps.
Qed.

End CleanupFacts.

Section OutcomeFacts.

Context `{Collaborators}.

(** A wait that ends has seen a prefix of the scripted events. *)
Lemma awaitPromise_prefix h k es : forall (w w' : World),
  awaitPromise h k es w = Some w' ->
  exists es1 es2, es = es1 ++ es2 /\ w' = envSteps w es1.
Proof.
  induction es as [|e es IH]; intros w w'; cbn [awaitPromise].
  - destruct (promiseResolved h k w); [|done]. intros [= <-]. by exists [], [].
  - destruct (promiseResolved h k w).
    + intros [= <-]. by exists [], (e :: es).
    + intros Hw. apply IH in Hw as (es1 & es2 & -> & ->).
      by exists (e :: es1), es2.
Qed.

(** Writing back the state that is there changes nothing. *)
Lemma withInterps_same (w : World) h st :
  interps w !! h = Some st -> withInterps w (<[h := st]> (interps w)) = w.
Proof.
  intros Hst. destruct w as [reg rs sts]. unfold withInterps.
  cbn in *. by rewrite insert_id.
Qed.

(** With no compaction start and no retry from the session of the run
    before the microtask, nothing is in flight or owed at the call and at
    the microtask. *)
Lemma wait_idle h p sc (w : World) :
  forallb (fun e => negb (startsCompaction h e))
    (duringPrompt sc ++ beforeMicrotask sc) = true ->
  compactionIdle h (promptSettled h p sc w)
  /\ compactionIdle h (atMicrotask h p sc w).
Proof.
  rewrite forallb_app. intros [Hes1 Hes2]%andb_true_iff.
  pose proof (promptSettled_idle h p sc w Hes1) as Hidle.
  split; [done|]. unfold atMicrotask. by apply env_steps_keep_idle.
Qed.

(** The run from the end of the compaction wait on. *)
Lemma finish_spec h p perr msgs (w5 : World) r5 st5 :
  runs w5 !! h = Some r5 -> interps w5 !! h = Some st5 ->
  exists r6 st6,
    runs (cleanup h p w5) !! h = Some r6
    /\ interps (cleanup h p w5) !! h = Some st6
    /\ aborted r6 = aborted r5
    /\ cleanedUp h (sessionId p) (cleanup h p w5)
    /\ match runs (cleanup h p w5) !! h, interps (cleanup h p w5) !! h with
       | Some r, Some st =>
           if truthyValue perr && negb (aborted r)
           then (Threw perr, cleanup h p w5)
           else (Returned (resultOf (sub p) msgs r st), cleanup h p w5)
       | _, _ => (AwaitingCompaction, cleanup h p w5)
       end
       = if truthyValue perr && negb (aborted r5)
         then (Threw perr, cleanup h p w5)
         else (Returned (resultOf (sub p) msgs r6 st6), cleanup h p w5).
Proof.
  intros Hr5 Hst5.
  destruct (cleanup_spec h p w5 r5 st5 Hr5 Hst5) as (Hclean & Hab & _).
  pose proof Hclean as (r6 & st6 & Hr6 & Hst6 & _).
  unfold abortedIn in Hab. rewrite Hr6 in Hab. injection Hab as Hab.
  exists r6, st6. rewrite Hr6, Hst6, Hab. by split_and!.
Qed.

(** The call either is left awaiting a compaction that was in flight or
    owed at the call of the wait or at its microtask, or it sees some of
    the events of the wait and finishes. The events it sees come in two
    runs, with at most a change to the subscription state of the run
    between them (the microtask). *)
Lemma run_cases h p sc (w : World) :
  (fst (runEmbeddedPiAgent h p sc w) = AwaitingCompaction
   /\ ~ (compactionIdle h (promptSettled h p sc w)
         /\ compactionIdle h (atMicrotask h p sc w)))
  \/ exists esA esB rest (w4 w6 : World) r5 st5 r6 st6,
       beforeMicrotask sc ++ duringWait sc = esA ++ esB ++ rest
       /\ runs w4 = runs (promptSettled h p sc w)
       /\ ACTIVE_EMBEDDED_RUNS w4
          = ACTIVE_EMBEDDED_RUNS (promptSettled h p sc w)
       /\ runs w6 = runs (envSteps w4 esA)
       /\ ACTIVE_EMBEDDED_RUNS w6 = ACTIVE_EMBEDDED_RUNS (envSteps w4 esA)
       /\ runs (envSteps w6 esB) !! h = Some r5
       /\ interps (envSteps w6 esB) !! h = Some st5
       /\ runs (cleanup h p (envSteps w6 esB)) !! h = Some r6
       /\ interps (cleanup h p (envSteps w6 esB)) !! h = Some st6
       /\ aborted r6 = aborted r5
       /\ cleanedUp h (sessionId p) (cleanup h p (envSteps w6 esB))
       /\ runEmbeddedPiAgent h p sc w
          = if truthyValue (promptErrorOf sc) && negb (aborted r5)
            then (Threw (promptErrorOf sc), cleanup h p (envSteps w6 esB))
            else (Returned (resultOf (sub p) (messagesSnapshot sc) r6 st6),
                  cleanup h p (envSteps w6 esB)).
Proof.
  destruct (promptSettled_entries h p sc w) as (r3 & st3 & Hr3 & Hst3 & _).
  unfold runEmbeddedPiAgent. cbv zeta.
  change (envSteps (updateRun h _ (startRun h p w)) (duringPrompt sc))
    with (promptSettled h p sc w).
  fold (promptErrorOf sc).
  rewrite Hst3. unfold waitForCompactionRetry.
  destruct (compactionBusy (compaction st3)) eqn:Ebusy.
  - (* in flight or owed at the call: the wait is on the compaction promise *)
    destruct (ensureCompactionPromise_keeps (compaction st3))
      as (_ & _ & [k Hk]).
    rewrite Hk.
    set (w4 := withInterps (promptSettled h p sc w) _).
    assert (Hr4 : runs w4 !! h = Some r3) by done.
    assert (Hst4 : is_Some (interps w4 !! h)).
    { unfold w4. cbn [interps withInterps]. rewrite lookup_insert_eq. eauto. }
    destruct Hst4 as [st4 Hst4].
    unfold awaitOrPend.
    destruct (awaitPromise h k _ w4) as [w5|] eqn:Ewait; cbn [negb].
    + right. apply awaitPromise_prefix in Ewait as (es1 & es2 & Hes & ->).
      destruct (env_run_steps es1 w4 h r3 Hr4) as (r5 & Hr5 & _).
      destruct (env_interp_steps es1 w4 h st4 Hst4) as [st5 Hst5].
      destruct (finish_spec h p (promptErrorOf sc) (messagesSnapshot sc)
                  _ r5 st5 Hr5 Hst5)
        as (r6 & st6 & Hr6 & Hst6 & Hab & Hclean & Hfin).
      exists es1, [], es2, w4, (envSteps w4 es1), r5, st5, r6, st6.
      by split_and!.
    + left. split; [done|]. intros [(st & Hst & Hidle) _]. congruence.
  - (* idle at the call: the microtask looks again *)
    rewrite (withInterps_same _ h st3 Hst3).
    fold (atMicrotask h p sc w).
    assert (Hr5 : exists r, runs (atMicrotask h p sc w) !! h = Some r).
    { destruct (env_run_steps (beforeMicrotask sc) _ h r3 Hr3)
        as (r & Hr & _). by exists r. }
    destruct Hr5 as [r5 Hr5].
    destruct (env_interp_steps (beforeMicrotask sc) _ h st3 Hst3)
      as [st5 Hst5].
    fold (atMicrotask h p sc w) in Hst5. rewrite Hst5.
    unfold recheckInMicrotask.
    destruct (compactionBusy (compaction st5)) eqn:Ebusy5.
    + destruct (ensureCompactionPromise_keeps (compaction st5))
        as (_ & _ & [k Hk]).
      rewrite Hk.
      set (w6 := withInterps (atMicrotask h p sc w) _).
      assert (Hr6 : runs w6 !! h = Some r5) by done.
      assert (Hst6 : is_Some (interps w6 !! h)).
      { unfold w6. cbn [interps withInterps]. rewrite lookup_insert_eq.
        eauto. }
      destruct Hst6 as [st6 Hst6].
      unfold awaitOrPend.
      destruct (awaitPromise h k _ w6) as [w7|] eqn:Ewait; cbn [negb].
      * right. apply awaitPromise_prefix in Ewait as (es1 & es2 & Hes & ->).
        destruct (env_run_steps es1 w6 h r5 Hr6) as (r7 & Hr7 & _).
        destruct (env_interp_steps es1 w6 h st6 Hst6) as [st7 Hst7].
        destruct (finish_spec h p (promptErrorOf sc) (messagesSnapshot sc)
                    _ r7 st7 Hr7 Hst7)
          as (r8 & st8 & Hr8 & Hst8 & Hab & Hclean & Hfin).
        exists (beforeMicrotask sc), es1, es2, (promptSettled h p sc w), w6,
          r7, st7, r8, st8.
        rewrite Hes. by split_and!.
      * left. split; [done|]. intros [_ (st & Hst & Hidle)]. congruence.
    + right. cbn [negb].
      set (w6 := withInterps (atMicrotask h p sc w) _).
      assert (Hr6 : runs w6 !! h = Some r5) by done.
      assert (Hst6 : interps w6 !! h = Some st5).
      { unfold w6. cbn [interps withInterps]. by rewrite lookup_insert_eq. }
      destruct (finish_spec h p (promptErrorOf sc) (messagesSnapshot sc)
                  w6 r5 st5 Hr6 Hst6)
        as (r8 & st8 & Hr8 & Hst8 & Hab & Hclean & Hfin).
      exists (beforeMicrotask sc), [], (duringWait sc),
        (promptSettled h p sc w), w6, r5, st5, r8, st8.
      by split_and!.
Qed.


End OutcomeFacts.




(** The two ways a failed prompt ends, on closed runs: without an abort the
    prompt error is thrown; with the timeout fired before the prompt
    settles, a result with [aborted: true] is returned. In both the
    registry is empty afterwards. *)
Example failed_prompt_rethrown :
  let run := @runEmbeddedPiAgent plainCollaborators 0
               (plainRun (js "s1") false) (failingScript []) emptyWorld in
  fst run = Threw promptFailure
  /\ abortState 0 (snd run) = Some (false, 0%nat)
  /\ ACTIVE_EMBEDDED_RUNS (snd run) = ∅.
Proof. repeat split; vm_compute; reflexivity. Qed.

Example failed_prompt_after_timeout_returns :
  let run := @runEmbeddedPiAgent plainCollaborators 0
               (plainRun (js "s1") false) (failingScript [TimeoutFires 0])
               emptyWorld in
  fst run = Returned {| payloads := None; meta_aborted := true |}
  /\ abortState 0 (snd run) = Some (true, 1%nat)
  /\ ACTIVE_EMBEDDED_RUNS (snd run) = ∅.
Proof. repeat split; vm_compute; reflexivity. Qed.

(** The microtask of the compaction wait, on closed runs whose prompt
    rejects with nothing in flight. A compaction start that falls between
    the call of the wait and its microtask makes the run wait: it stays
    registered and subscribed, and it throws the prompt error once the
    compaction has ended. The same start after the microtask is not
    waited for. *)
Example compaction_start_before_microtask_waits :
  let pending := @runEmbeddedPiAgent plainCollaborators 0
                   (plainRun (js "s1") false)
                   {| duringPrompt := []; promptResult := Rejected promptFailure;
                      beforeMicrotask := [SessionEmits 0 auto_compaction_start];
                      duringWait := []; messagesSnapshot := [] |}
                   emptyWorld in
  let ended := @runEmbeddedPiAgent plainCollaborators 0
                 (plainRun (js "s1") false)
                 {| duringPrompt := []; promptResult := Rejected promptFailure;
                    beforeMicrotask := [SessionEmits 0 auto_compaction_start];
                    duringWait := [SessionEmits 0 (auto_compaction_end false)];
                    messagesSnapshot := [] |}
                 emptyWorld in
  let late := @runEmbeddedPiAgent plainCollaborators 0
                (plainRun (js "s1") false)
                {| duringPrompt := []; promptResult := Rejected promptFailure;
                   beforeMicrotask := [];
                   duringWait := [SessionEmits 0 auto_compaction_start];
                   messagesSnapshot := [] |}
                emptyWorld in
  fst pending = AwaitingCompaction
  /\ isEmbeddedPiRunActive (js "s1") (snd pending) = true
  /\ subscribed <$> runs (snd pending) !! 0%nat = Some true
  /\ fst ended = Threw promptFailure
  /\ isEmbeddedPiRunActive (js "s1") (snd ended) = false
  /\ fst late = Threw promptFailure.
Proof. repeat split; vm_compute; reflexivity. Qed.

(** ** Closed runs of the registry functions and of the sanitizer *)

(** A message is queued only while the session streams; an abort through
    the registry reaches the run that owns the handle, and nothing happens
    for an unknown session id. *)
Example queue_and_abort_through_registry :
  let idle := @startRun plainCollaborators 0 (plainRun (js "s1") false)
                emptyWorld in
  let streaming := envStep idle (StreamingChanges 0 true) in
  fst (queueEmbeddedPiMessage (js "s1") (js "more") idle) = false
  /\ fst (queueEmbeddedPiMessage (js "s1") (js "more") streaming) = true
  /\ (queuedMessages ∘ session)
       <$> runs (snd (queueEmbeddedPiMessage (js "s1") (js "more") streaming))
             !! 0%nat
     = Some [js "more"]
  /\ fst (queueEmbeddedPiMessage (js "s2") (js "more") streaming) = false
  /\ fst (abortEmbeddedPiRun (js "s2") streaming) = false
  /\ fst (abortEmbeddedPiRun (js "s1") streaming) = true
  /\ abortState 0 (snd (abortEmbeddedPiRun (js "s1") streaming))
     = Some (true, 1%nat).
Proof. repeat split; vm_compute; reflexivity. Qed.

(** A text of 8001 code units is cut to 8000 and the marker of 14 code
    units appended; image data of 4 code units is replaced by its count. *)
Example sanitize_long_text_and_image :
  sanitizeToolResult
    (VObj [(js "content",
            VArr [VObj [(js "type", VStr (js "text"));
                        (js "text", VStr (repeat 97 (N.to_nat 8001)))];
                  VObj [(js "type", VStr (js "image"));
                        (js "data", VStr (js "AAAA"));
                        (js "mimeType", VStr (js "image/png"))]]);
           (js "isError", VBool false)])
  = VObj [(js "content",
           VArr [VObj [(js "type", VStr (js "text"));
                       (js "text",
                        VStr (repeat 97 (N.to_nat 8000) ++ TRUNCATED_SUFFIX))];
                 VObj [(js "type", VStr (js "image"));
                       (js "mimeType", VStr (js "image/png"));
                       (js "bytes", VNum 4);
                       (js "omitted", VBool true)]]);
          (js "isError", VBool false)].
Proof. vm_compute. reflexivity. Qed.

(* ===================================================================== *)
(** * More of the runner *)
(* ===================================================================== *)

(** ** Lanes *)

Section LaneFacts.

Lemma trimStart_fixed s :
  trimStart s = s <->
  match s with c :: _ => isWhiteSpace c = false | [] => True end.
Proof.
  destruct s as [|c s]; [done|]. simpl.
  destruct (isWhiteSpace c) eqn:E; [|done]. split; [|done].
  intros Heq. exfalso.
  assert (Hlen : forall x, (length (trimStart x) <= length x)%nat).
  { induction x as [|d x IH]; simpl; [lia|].
    destruct (isWhiteSpace d); simpl; lia. }
  specialize (Hlen s). rewrite Heq in Hlen. simpl in Hlen. lia.
Qed.

Lemma trimStart_app a b :
  trimStart a = a -> a <> [] -> trimStart (a ++ b) = a ++ b.
Proof.
  intros Ha Hne. destruct a as [|c a]; [done|].
  apply trimStart_fixed in Ha. apply trimStart_fixed. done.
Qed.

Lemma trim_fixed_parts s : trim s = s -> trimStart s = s /\ trimEnd s = s.
Proof.
  intros Hs. unfold trim in Hs. split.
  - rewrite <- Hs at 1.
    rewrite (trimStart_trimEnd (trimStart s)) by apply trimStart_idem. done.
  - rewrite <- Hs at 1. by rewrite trimEnd_idem.
Qed.

Lemma trim_app a b :
  trim a = a -> a <> [] -> trim b = b -> b <> [] -> trim (a ++ b) = a ++ b.
Proof.
  intros Ha Hna Hb Hnb.
  apply trim_fixed_parts in Ha as [Ha _].
  apply trim_fixed_parts in Hb as [_ Hb].
  unfold trim. rewrite trimStart_app by done.
  unfold trimEnd in *. rewrite rev_app_distr.
  assert (Hrb : trimStart (rev b) = rev b).
  { apply (f_equal (@rev N)) in Hb. by rewrite rev_involutive in Hb. }
  rewrite trimStart_app.
  - by rewrite rev_app_distr, !rev_involutive.
  - done.
  - intros Hnil. apply Hnb. apply (f_equal (@rev N)) in Hnil.
    by rewrite rev_involutive in Hnil.
Qed.

(** What [key.trim() || "main"] gives is trimmed and not empty. *)
Lemma cleaned_key key :
  let cleaned := if truthy (trim key) then trim key else js "main" in
  trim cleaned = cleaned /\ cleaned <> [].
Proof.
  cbv zeta. destruct (truthy (trim key)) eqn:E.
  - split; [apply trim_idem|]. intros Hnil. by rewrite Hnil in E.
  - split; [reflexivity|discriminate].
Qed.

Lemma truthy_true (s : str) : s <> [] -> truthy s = true.
Proof. by destruct s. Qed.

Lemma resolveSessionLane_trimmed key :
  trim (resolveSessionLane key) = resolveSessionLane key
  /\ resolveSessionLane key <> [].
Proof.
  unfold resolveSessionLane. cbv zeta.
  destruct (cleaned_key key) as [Ht Hne]. cbv zeta in Ht, Hne.
  set (cleaned := if truthy (trim key) then trim key else js "main") in *.
  destruct (startsWith (js "session:") cleaned); [done|].
  split; [|discriminate]. by apply trim_app.
Qed.

End LaneFacts.

(** X1. The session lane of any key starts with ["session:"], is trimmed
    and not empty; resolving a lane name again gives it back; white space
    around the key does not matter, and a blank key gives
    ["session:main"]. The lane of a run is that of its session key, or of
    its session id when the key is left out or blank. *)
Theorem session_lane_canonical (key sessionId : str) :
  startsWith (js "session:") (resolveSessionLane key) = true
  /\ trim (resolveSessionLane key) = resolveSessionLane key
  /\ resolveSessionLane (resolveSessionLane key) = resolveSessionLane key
  /\ resolveEmbeddedSessionLane (trim key) = resolveSessionLane key
  /\ (trim key = [] -> resolveSessionLane key = js "session:main")
  /\ sessionLaneOf (Some key) sessionId
     = (if truthy (trim key) then resolveSessionLane key
        else resolveSessionLane sessionId)
  /\ sessionLaneOf None sessionId = resolveSessionLane sessionId.
Proof.
  assert (Hprefix : startsWith (js "session:") (resolveSessionLane key) = true).
  { unfold resolveSessionLane. cbv zeta.
    set (cleaned := if truthy (trim key) then trim key else js "main").
    destruct (startsWith (js "session:") cleaned) eqn:E; [done|].
    by apply bool_decide_eq_true. }
  assert (Htrim : resolveSessionLane (trim key) = resolveSessionLane key).
  { unfold resolveSessionLane. by rewrite trim_idem. }
  destruct (resolveSessionLane_trimmed key) as [Ht Hne].
  split; [done|]. split; [done|]. split; [|split; [done|split; [|split]]].
  - unfold resolveSessionLane at 1. cbv zeta.
    by rewrite Ht, (truthy_true _ Hne), Hprefix.
  - intros Hblank. unfold resolveSessionLane. by rewrite Hblank.
  - unfold sessionLaneOf. by destruct (truthy (trim key)).
  - done.
Qed.

(** X2. The global lane is never empty and is trimmed; it is ["main"] when
    no lane, or a blank one, is given; white space around the name does
    not matter, and resolving a resolved name gives it back. *)
Theorem global_lane_canonical (lane : option str) :
  resolveGlobalLane lane <> []
  /\ trim (resolveGlobalLane lane) = resolveGlobalLane lane
  /\ resolveGlobalLane (Some (resolveGlobalLane lane)) = resolveGlobalLane lane
  /\ resolveGlobalLane (trim <$> lane) = resolveGlobalLane lane
  /\ (default [] (trim <$> lane) = [] -> resolveGlobalLane lane = js "main").
Proof.
  assert (H : resolveGlobalLane lane <> []
              /\ trim (resolveGlobalLane lane) = resolveGlobalLane lane).
  { destruct lane as [l|]; simpl; [|split; [discriminate|reflexivity]].
    destruct (cleaned_key l) as [Ht Hne]. done. }
  destruct H as [Hne Ht]. split; [done|]. split; [done|]. split; [|split].
  - simpl. by rewrite Ht, (truthy_true _ Hne).
  - destruct lane as [l|]; simpl; [|done]. by rewrite trim_idem.
  - destruct lane as [l|]; simpl; [|done]. by intros ->.
Qed.

(** ** Stored credentials and skills *)

Section CredentialFacts.

Lemma coalesce_cases a b :
  coalesce a b = b \/ a = Some (coalesce a b).
Proof. destruct a as [[]|]; simpl; auto. Qed.

(** A non-blank token read through a chain of three keys is the string
    under one of them. *)
Lemma token_source (a b c : option value) r' :
  trimOf (coalesce a (coalesce b (coalesce c (VStr [])))) = Some r' ->
  truthy r' = true ->
  exists r, (a = Some (VStr r) \/ b = Some (VStr r) \/ c = Some (VStr r))
            /\ trim r = r'.
Proof.
  intros Ht Hr.
  assert (Hstr : exists r, coalesce a (coalesce b (coalesce c (VStr []))) = VStr r
                           /\ trim r = r').
  { destruct (coalesce a _) as [| | | |r| |]; try discriminate.
    injection Ht as <-. eauto. }
  destruct Hstr as (r & Hv & <-). exists r. split; [|done].
  destruct (coalesce_cases a (coalesce b (coalesce c (VStr [])))) as [E|E].
  - rewrite E in Hv.
    destruct (coalesce_cases b (coalesce c (VStr []))) as [E'|E'].
    + rewrite E' in Hv.
      destruct (coalesce_cases c (VStr [])) as [E''|E''].
      * rewrite E'' in Hv. injection Hv as <-. done.
      * rewrite Hv in E''. auto.
    + rewrite Hv in E'. auto.
  - rewrite Hv in E. auto.
Qed.

End CredentialFacts.

(** X3. [hasAnthropicOAuth] answers [true] only when the storage is an
    object whose [anthropic] entry holds a non-blank string under one of
    the refresh keys and one under one of the access keys. The first-named
    keys decide alone when they hold strings: with [refresh] and [access]
    given, the answer is whether both are non-blank, so an empty
    [refresh] hides a valid [refresh_token]. On a storage that is [null]
    or [undefined] the call throws. Any other storage without an
    [anthropic] entry, or with a falsy value there, gives [false] without
    throwing. *)
Theorem anthropic_oauth_detection (storage : value) :
  (hasAnthropicOAuth storage = Some true ->
   nullish storage = false
   /\ exists entry r a,
     Obj.get (js "anthropic") (propsOf storage) = Some entry
     /\ (Obj.get (js "refresh") (propsOf entry) = Some (VStr r)
         \/ Obj.get (js "refresh_token") (propsOf entry) = Some (VStr r)
         \/ Obj.get (js "refreshToken") (propsOf entry) = Some (VStr r))
     /\ trim r <> []
     /\ (Obj.get (js "access") (propsOf entry) = Some (VStr a)
         \/ Obj.get (js "access_token") (propsOf entry) = Some (VStr a)
         \/ Obj.get (js "accessToken") (propsOf entry) = Some (VStr a))
     /\ trim a <> [])
  /\ (forall e r a,
        Obj.get (js "anthropic") (propsOf storage) = Some (VObj e) ->
        Obj.get (js "refresh") e = Some (VStr r) ->
        Obj.get (js "access") e = Some (VStr a) ->
        hasAnthropicOAuth storage
        = Some (truthy (trim r) && truthy (trim a)))
  /\ (nullish storage = true -> hasAnthropicOAuth storage = None)
  /\ (nullish storage = false ->
      Obj.get (js "anthropic") (propsOf storage) = None
      \/ (exists entry,
            Obj.get (js "anthropic") (propsOf storage) = Some entry
            /\ truthyValue entry = false) ->
      hasAnthropicOAuth storage = Some false).
Proof.
  split; [|split; [|split]].
  - unfold hasAnthropicOAuth.
    destruct (nullish storage); [discriminate|].
    destruct (Obj.get (js "anthropic") (propsOf storage)) as [entry|];
      [|discriminate].
    destruct (negb (truthyValue entry)); [discriminate|]. cbv zeta.
    set (e := propsOf entry).
    destruct (trimOf (coalesce (Obj.get (js "refresh") e) _)) as [r'|] eqn:Er;
      [|discriminate].
    destruct (truthy r') eqn:Hr; [|discriminate].
    destruct (trimOf (coalesce (Obj.get (js "access") e) _)) as [a'|] eqn:Ea;
      [|discriminate].
    intros [= Ha]. split; [done|].
    destruct (token_source _ _ _ _ Er Hr) as (r & Hsrc & <-).
    destruct (token_source _ _ _ _ Ea Ha) as (a & Hsrc' & <-).
    exists entry, r, a. split; [done|]. split; [done|].
    split; [intros Hn; by rewrite Hn in Hr|]. split; [done|].
    intros Hn. by rewrite Hn in Ha.
  - intros e r a He Hr Ha. unfold hasAnthropicOAuth.
    assert (Hobj : nullish storage = false) by (by destruct storage).
    rewrite Hobj, He. cbn [truthyValue negb propsOf]. cbv zeta.
    rewrite Hr, Ha. cbn [coalesce trimOf].
    by destruct (truthy (trim r)).
  - intros Hnull. unfold hasAnthropicOAuth. by rewrite Hnull.
  - intros Hnull. unfold hasAnthropicOAuth. rewrite Hnull.
    intros [-> | (entry & -> & Hfalsy)]; [done|]. by rewrite Hfalsy.
Qed.

Section SkillFacts.

Lemma entryByName_snoc es e :
  entryByName (es ++ [e])
  = <[skill_name (entry_skill e) := entry_skill e]> (entryByName es).
Proof. unfold entryByName. by rewrite foldl_app. Qed.

(** The map holds, for each name, the last entry of that name. *)
Lemma entryByName_lookup name es :
  entryByName es !! name
  = last (filter (fun sk => skill_name sk = name) (map entry_skill es)).
Proof.
  induction es as [|e es IH] using rev_ind; [done|].
  rewrite entryByName_snoc, map_app, filter_app. cbn [map].
  rewrite filter_cons, filter_nil.
  destruct (decide (skill_name (entry_skill e) = name)) as [<-|Hne].
  - by rewrite lookup_insert_eq, last_snoc.
  - by rewrite lookup_insert_ne, app_nil_r.
Qed.

Lemma entryByName_name name es sk :
  entryByName es !! name = Some sk -> skill_name sk = name.
Proof.
  rewrite entryByName_lookup. intros Hl.
  apply last_Some_elem_of, list_elem_of_filter in Hl. by destruct Hl.
Qed.

End SkillFacts.

(** X4. When the snapshot carries resolved skills, they are the answer.
    Otherwise the answer lists, in the order of the snapshot's names and
    name by name, the skill of the last workspace entry of that name;
    names without an entry are skipped, and nothing else is returned. *)
Theorem prompt_skills_follow_snapshot
    (snapshot : SkillSnapshot) (entries : list SkillEntry) :
  (forall s l, resolvedSkills snapshot = Some (s :: l) ->
               resolvePromptSkills snapshot entries = s :: l)
  /\ (resolvedSkills snapshot = None \/ resolvedSkills snapshot = Some [] ->
      map skill_name (resolvePromptSkills snapshot entries)
      = filter (fun name => is_Some (entryByName entries !! name))
               (snapshot_skills snapshot)
      /\ Forall (fun sk =>
                   last (filter (fun s => skill_name s = skill_name sk)
                                (map entry_skill entries)) = Some sk)
                (resolvePromptSkills snapshot entries)
      /\ (length (resolvePromptSkills snapshot entries)
          <= length (snapshot_skills snapshot))%nat).
Proof.
  split.
  - intros s l Hres. unfold resolvePromptSkills. by rewrite Hres.
  - intros Hres.
    assert (Hdef : resolvePromptSkills snapshot entries
                   = omap (fun name => entryByName entries !! name)
                          (snapshot_skills snapshot)).
    { unfold resolvePromptSkills.
      destruct Hres as [-> | ->]; by destruct (snapshot_skills snapshot). }
    rewrite Hdef. clear Hdef Hres.
    induction (snapshot_skills snapshot) as [|name names IH]; [done|].
    destruct IH as (IH1 & IH2 & IH3).
    cbn [omap list_omap]. rewrite filter_cons.
    destruct (entryByName entries !! name) as [sk|] eqn:E.
    + rewrite decide_True by eauto. cbn [map length].
      pose proof (entryByName_name _ _ _ E) as Hname.
      split; [by rewrite Hname, IH1|]. split; [|lia].
      constructor; [|done]. by rewrite <- entryByName_lookup, Hname.
    + rewrite decide_False by (by intros [? ?]).
      split; [done|]. split; [done|]. cbn [length]. lia.
Qed.

(** ** The interpreter over whole streams *)

Section HandlerFacts.

Context `{Collaborators}.

Local Ltac split_ifs :=
  repeat match goal with
         | |- context [fst (if ?b then _ else _)] => destruct b eqn:?
         end.

(** What a text event does to the state: the tool records, the compaction
    state and the debouncer stay, and at most one non-empty block is
    added. *)
Lemma onMessageUpdate_effect (p : SubscribeParams) (st : Interp) m a :
  let st' := fst (onMessageUpdate p st m a) in
  tools st' = tools st /\ compaction st' = compaction st
  /\ toolDebouncer st' = toolDebouncer st
  /\ assistantTextBaseline (acc st') = assistantTextBaseline (acc st)
  /\ (assistantTexts (acc st') = assistantTexts (acc st)
      \/ exists next, next <> []
                      /\ assistantTexts (acc st')
                         = assistantTexts (acc st) ++ [next]).
Proof.
  unfold onMessageUpdate. cbv zeta. split_ifs;
    cbn [fst acc tools compaction toolDebouncer withAcc assistantTexts
         assistantTextBaseline]; repeat split; auto.
  match goal with
  | |- context [truthy ?n] => destruct (truthy n) eqn:Hn
  end; [|by left].
  right. eexists. split; [|reflexivity]. intros Hnil. by rewrite Hnil in Hn.
Qed.

Lemma onMessageEnd_effect (p : SubscribeParams) (st : Interp) m :
  let st' := fst (onMessageEnd p st m) in
  tools st' = tools st /\ compaction st' = compaction st
  /\ toolDebouncer st' = toolDebouncer st
  /\ (assistantTextBaseline (acc st') <= length (assistantTexts (acc st'))
      \/ st' = st)%nat
  /\ (assistantTexts (acc st') = assistantTexts (acc st)
      \/ exists txt, txt <> []
                     /\ assistantTexts (acc st')
                        = assistantTexts (acc st) ++ [txt]).
Proof.
  unfold onMessageEnd. destruct m as [msg|]; [|by auto 10].
  cbv zeta. split_ifs;
    cbn [fst acc tools compaction toolDebouncer withAcc assistantTexts
         assistantTextBaseline]; repeat split; auto;
    match goal with
    | |- context [if ?c then assistantTexts (acc st) ++ [?t] else _] =>
        destruct c eqn:Hc;
        [right; exists t; split; [|reflexivity];
         apply andb_true_iff in Hc as [_ Hc];
         intros Hnil; by rewrite Hnil in Hc
        |by left]
    end.
Qed.

(** The accumulator under events that are no text events. *)
Lemma handleEvent_acc_other (p : SubscribeParams) (st : Interp) evt :
  match evt with
  | message_update _ _ | message_end _ | auto_compaction_end true => True
  | _ => acc (fst (handleEvent p st evt)) = acc st
  end.
Proof.
  destruct evt as [n i a|n i r|n i e r|m a|m| | |[]| |t]; cbn [handleEvent];
    try done.
  - unfold onCompactionEnd. cbv zeta.
    by destruct (maybeResolveCompactionWait _).
  - unfold onAgentEnd. cbv zeta. destruct (runDebouncer p _).
    cbn [compaction withDebouncer].
    destruct (0 <? pendingCompactionRetry (compaction st))%nat;
      [by destruct (resolveCompactionRetry _)
      |by destruct (maybeResolveCompactionWait _)].
Qed.

Lemma handleEvent_blocks_inv (p : SubscribeParams) (st : Interp) evt :
  Forall (fun b => b <> []) (assistantTexts (acc st)) ->
  (assistantTextBaseline (acc st) <= length (assistantTexts (acc st)))%nat ->
  let st' := fst (handleEvent p st evt) in
  Forall (fun b => b <> []) (assistantTexts (acc st'))
  /\ (assistantTextBaseline (acc st') <= length (assistantTexts (acc st')))%nat.
Proof.
  intros Hne Hbase. cbv zeta.
  pose proof (handleEvent_acc_other p st evt) as Hother.
  destruct evt as [n i a|n i r|n i e r|m a|m| | |[]| |t];
    try (rewrite Hother; by split).
  - cbn [handleEvent].
    destruct (onMessageUpdate_effect p st m a) as (_ & _ & _ & Hb & Ht).
    cbv zeta in Hb, Ht. rewrite Hb.
    destruct Ht as [-> | (next & Hn & ->)]; [done|].
    split; [apply Forall_app; by repeat constructor|].
    rewrite length_app. simpl. lia.
  - cbn [handleEvent].
    destruct (onMessageEnd_effect p st m) as (_ & _ & _ & Hb & Ht).
    cbv zeta in Hb, Ht. split.
    + destruct Ht as [-> | (txt & Hn & ->)]; [done|].
      apply Forall_app; by repeat constructor.
    + destruct Hb as [Hb | ->]; done.
  - destruct (compaction_retry_handler p st) as (Ha & _).
    cbv zeta in Ha. rewrite Ha. by split.
Qed.

End HandlerFacts.

(** X5. Whatever events a subscription sees, no finalized block is empty,
    and the baseline that [message_end] records never exceeds the number
    of blocks. *)
Theorem finalized_blocks_never_empty `{Collaborators}
    (p : SubscribeParams) (evts : list AgentEvent) :
  let st := fst (handleEvents p initialInterp evts) in
  Forall (fun b => b <> []) (assistantTexts (acc st))
  /\ (assistantTextBaseline (acc st) <= length (assistantTexts (acc st)))%nat.
Proof.
  cbv zeta.
  assert (Hgen : forall st,
            Forall (fun b => b <> []) (assistantTexts (acc st)) ->
            (assistantTextBaseline (acc st)
             <= length (assistantTexts (acc st)))%nat ->
            let st' := fst (handleEvents p st evts) in
            Forall (fun b => b <> []) (assistantTexts (acc st'))
            /\ (assistantTextBaseline (acc st')
                <= length (assistantTexts (acc st')))%nat).
  { induction evts as [|evt evts IH]; intros st Hne Hb; [done|].
    cbn [handleEvents].
    destruct (handleEvent_blocks_inv p st evt Hne Hb) as [Hne1 Hb1].
    destruct (handleEvent p st evt) as [st1 out1]. cbn [fst] in *.
    specialize (IH st1 Hne1 Hb1).
    by destruct (handleEvents p st1 evts) as [st2 out2]. }
  apply Hgen; [constructor|done].
Qed.

Section SegmentFacts.

Context `{Collaborators}.

Variable p : SubscribeParams.
Variable msg : AgentMessage.
Hypothesis Hrole : role msg = js "assistant".

(** The end of a text segment, on the whole accumulator. *)
Lemma textEnd_full st :
  blockReplyBreak p <> Some BreakMessageEnd ->
  let next := nextOf (enforceFinalTag p)
                (cleanedOf (enforceFinalTag p) (deltaBuffer (acc st))) in
  let st' := fst (handleEvent p st (textEnd msg)) in
  deltaBuffer (acc st') = []
  /\ lastBlockReplyText (acc st') = orUndefined next
  /\ assistantTextBaseline (acc st') = assistantTextBaseline (acc st).
Proof.
  intros Hbreak.
  cbn [handleEvent textEnd]. unfold onMessageUpdate, isAssistant.
  rewrite Hrole.
  change (bool_decide (js "assistant" = js "assistant")) with true.
  cbv zeta. cbn [negb].
  change (default [] (asString (Obj.get (js "type")
            [(js "type", VStr (js "text_end"))])))
    with (js "text_end").
  change (bool_decide (js "text_end" = js "text_end")) with true.
  change (bool_decide (js "text_end" = js "text_delta")) with false.
  change (bool_decide (js "text_end" = js "text_start")) with false.
  change (asString (Obj.get (js "delta") [(js "type", VStr (js "text_end"))]))
    with (@None str).
  change (asString (Obj.get (js "content") [(js "type", VStr (js "text_end"))]))
    with (@None str).
  cbn [negb orb andb default truthy].
  assert (Hb : bool_decide (default BreakTextEnd (blockReplyBreak p)
                            = BreakTextEnd) = true).
  { apply bool_decide_eq_true. destruct (blockReplyBreak p) as [[]|]; done. }
  rewrite Hb.
  set (next := nextOf _ _).
  destruct (truthy next) eqn:Hn; cbn [andb negb].
  - destruct (bool_decide (Some next = lastBlockReplyText (acc st))) eqn:Hd;
      cbn [fst acc withAcc deltaBuffer lastBlockReplyText assistantTextBaseline].
    + apply bool_decide_eq_true in Hd. rewrite <- Hd.
      unfold orUndefined. by rewrite Hn.
    + done.
  - done.
Qed.

Lemma textDeltas_baseline chunks : forall st,
  assistantTextBaseline
    (acc (fst (handleEvents p st (map (textDelta msg) chunks))))
  = assistantTextBaseline (acc st).
Proof.
  induction chunks as [|c chunks IH]; intros st; cbn [map handleEvents];
    [done|].
  destruct (onMessageUpdate_effect p st (Some msg)
              (VObj [(js "type", VStr (js "text_delta"));
                     (js "delta", VStr c)])) as (_ & _ & _ & Hb & _).
  cbv zeta in Hb. fold (textDelta msg c) in Hb.
  change (onMessageUpdate p st (Some msg) _)
    with (handleEvent p st (textDelta msg c)) in Hb.
  destruct (handleEvent p st (textDelta msg c)) as [st1 out1].
  specialize (IH st1).
  destruct (handleEvents p st1 (map (textDelta msg) chunks)) as [st2 out2].
  cbn [fst] in *. congruence.
Qed.

(** One whole segment, from an empty buffer. *)
Lemma deltaStream_acc st chunks :
  blockReplyBreak p <> Some BreakMessageEnd ->
  deltaBuffer (acc st) = [] ->
  let next := segmentText (enforceFinalTag p) chunks in
  let st' := fst (handleEvents p st (deltaStream msg chunks)) in
  assistantTexts (acc st')
  = assistantTexts (acc st)
    ++ (if truthy next
           && negb (bool_decide (Some next = lastBlockReplyText (acc st)))
        then [next] else [])
  /\ deltaBuffer (acc st') = []
  /\ lastBlockReplyText (acc st') = orUndefined next
  /\ assistantTextBaseline (acc st') = assistantTextBaseline (acc st).
Proof.
  intros Hbreak Hbuf. cbv zeta. unfold deltaStream, segmentText.
  rewrite (handleEvents_app p).
  pose proof (textDeltas_acc p msg Hrole chunks st) as (H1 & H2 & H3).
  pose proof (textDeltas_baseline chunks st) as H4.
  set (st1 := fst (handleEvents p st (map (textDelta msg) chunks))) in *.
  cbn [handleEvents].
  pose proof (textEnd_acc p msg Hrole st1 Hbreak) as Hend.
  pose proof (textEnd_full st1 Hbreak) as (E1 & E2 & E3).
  destruct (handleEvent p st1 (textEnd msg)) as [st2 out2].
  cbn [fst] in *. cbv zeta in Hend.
  rewrite H2, Hbuf in Hend, E2. cbn [app] in Hend, E2.
  rewrite Hend, E2, E3, H1, H3, H4.
  split; [|done].
  match goal with
  | |- context [if ?c then _ else _] => destruct c
  end; [done|by rewrite app_nil_r].
Qed.

(** Segment after segment. *)
Lemma segmentsStream_acc segments : forall st,
  blockReplyBreak p <> Some BreakMessageEnd ->
  deltaBuffer (acc st) = [] ->
  let st' := fst (handleEvents p st (segmentsStream msg segments)) in
  assistantTexts (acc st')
  = assistantTexts (acc st)
    ++ blocksOf (lastBlockReplyText (acc st))
         (map (segmentText (enforceFinalTag p)) segments)
  /\ deltaBuffer (acc st') = []
  /\ assistantTextBaseline (acc st') = assistantTextBaseline (acc st).
Proof.
  induction segments as [|chunks segments IH]; intros st Hbreak Hbuf;
    unfold segmentsStream; cbn [map concat blocksOf].
  - cbn [handleEvents fst]. by rewrite app_nil_r.
  - rewrite (handleEvents_app p).
    destruct (deltaStream_acc st chunks Hbreak Hbuf) as (D1 & D2 & D3 & D4).
    cbv zeta in *.
    set (st1 := fst (handleEvents p st (deltaStream msg chunks))) in *.
    destruct (IH st1 Hbreak D2) as (I1 & I2 & I3).
    unfold segmentsStream in I1, I2, I3.
    rewrite I1, I2, I3, D1, D3, D4. by rewrite <- app_assoc.
Qed.

End SegmentFacts.

(** X6. With blocks broken at the end of each text segment, the blocks
    that a fresh subscription finalizes from the segments of a message
    are, in order, the derived texts of the segments, leaving out each
    text that is empty or equal to that of the segment just before it.
    The end of the message then adds nothing when a block was finalized,
    and otherwise finalizes the text of the whole message if it is not
    empty. *)
Theorem segments_finalize_in_order `{Collaborators}
    (p : SubscribeParams) (msg : AgentMessage) (segments : list (list str)) :
  role msg = js "assistant" ->
  blockReplyBreak p <> Some BreakMessageEnd ->
  let blocks := blocksOf None (map (segmentText (enforceFinalTag p)) segments) in
  let full := messageTextOf (enforceFinalTag p) (extractAssistantText msg) in
  finalizedBlocks p (segmentsStream msg segments) = blocks
  /\ finalizedBlocks p (segmentsStream msg segments ++ [message_end (Some msg)])
     = match blocks with
       | [] => if truthy full then [full] else []
       | _ :: _ => blocks
       end.
Proof.
  intros Hrole Hbreak. cbv zeta.
  destruct (segmentsStream_acc p msg Hrole segments initialInterp Hbreak
              eq_refl) as (S1 & S2 & S3).
  cbv zeta in S1, S2, S3. cbn [initialInterp acc emptyAccumulator
    assistantTexts lastBlockReplyText assistantTextBaseline app] in S1, S3.
  split; [exact S1|].
  unfold finalizedBlocks. rewrite (handleEvents_app p).
  set (st := fst (handleEvents p initialInterp (segmentsStream msg segments)))
    in *.
  cbn [handleEvents handleEvent]. unfold onMessageEnd, isAssistant.
  rewrite Hrole.
  change (bool_decide (js "assistant" = js "assistant")) with true.
  cbv zeta. cbn [negb].
  assert (Hb : bool_decide (default BreakTextEnd (blockReplyBreak p)
                            = BreakMessageEnd) = false).
  { apply bool_decide_eq_false. destruct (blockReplyBreak p) as [[]|]; done. }
  rewrite Hb. cbn [andb fst acc withAcc assistantTexts].
  rewrite S1, S3. fold (messageTextOf (enforceFinalTag p)
                          (extractAssistantText msg)).
  destruct (blocksOf None _) as [|b bs]; cbn [length Nat.ltb Nat.leb negb andb];
    [|done].
  by destruct (truthy _).
Qed.

(** The theorem on a message of two segments. *)
Lemma segments_finalize_in_order_witness :
  role assistantMsg = js "assistant"
  /\ blockReplyBreak (plainParams false) <> Some BreakMessageEnd
  /\ @finalizedBlocks plainCollaborators (plainParams false)
       (segmentsStream assistantMsg
          [[js "Hel"; js "lo"]; [js " <think>x</think>World "];
           [js "World"]; [js " "]; [js "World"]]
        ++ [message_end (Some assistantMsg)])
     = [js "Hello"; js "World"; js "World"].
Proof.
  assert (H1 : role assistantMsg = js "assistant") by reflexivity.
  assert (H2 : blockReplyBreak (plainParams false) <> Some BreakMessageEnd)
    by discriminate.
  do 2 (split; [assumption|]).
  destruct (@segments_finalize_in_order plainCollaborators (plainParams false)
              assistantMsg
              [[js "Hel"; js "lo"]; [js " <think>x</think>World "];
               [js "World"]; [js " "]; [js "World"]] H1 H2) as [_ Hend].
  cbv zeta in Hend. rewrite Hend. reflexivity.
Defined.

Section MessageEndFacts.

Context `{Collaborators}.

Variable p : SubscribeParams.
Hypothesis Hmode : blockReplyBreak p = Some BreakMessageEnd.

(** With blocks broken at the end of the message, text events finalize
    nothing. *)
Lemma update_keeps_blocks st m a :
  let st' := fst (onMessageUpdate p st m a) in
  assistantTexts (acc st') = assistantTexts (acc st)
  /\ lastBlockReplyText (acc st') = lastBlockReplyText (acc st)
  /\ assistantTextBaseline (acc st') = assistantTextBaseline (acc st).
Proof.
  unfold onMessageUpdate. cbv zeta. rewrite Hmode. cbn [default].
  change (bool_decide (BreakMessageEnd = BreakTextEnd)) with false.
  rewrite andb_false_r.
  repeat match goal with
         | |- context [fst (if ?b then _ else _)] => destruct b eqn:?
         end; done.
Qed.

Lemma updates_keep_blocks evts : forall st,
  Forall (fun e => isMessageUpdate e = true) evts ->
  let st' := fst (handleEvents p st evts) in
  assistantTexts (acc st') = assistantTexts (acc st)
  /\ lastBlockReplyText (acc st') = lastBlockReplyText (acc st)
  /\ assistantTextBaseline (acc st') = assistantTextBaseline (acc st).
Proof.
  induction evts as [|e evts IH]; intros st Hall; [done|].
  inversion Hall as [|? ? He Hrest]; subst.
  destruct e as [| | |m a| | | | | |]; try discriminate.
  cbn [handleEvents handleEvent].
  destruct (update_keeps_blocks st m a) as (U1 & U2 & U3). cbv zeta in *.
  destruct (onMessageUpdate p st m a) as [st1 out1].
  destruct (IH st1 Hrest) as (I1 & I2 & I3).
  destruct (handleEvents p st1 evts) as [st2 out2]. cbn [fst] in *.
  by rewrite I1, I2, I3.
Qed.

End MessageEndFacts.

(** The blocks after the end of an assistant message, in either mode. *)
Lemma onMessageEnd_texts `{Collaborators} (p : SubscribeParams) st msg :
  role msg = js "assistant" ->
  let full := messageTextOf (enforceFinalTag p) (extractAssistantText msg) in
  assistantTexts (acc (fst (onMessageEnd p st (Some msg))))
  = if negb (assistantTextBaseline (acc st)
             <? length (assistantTexts (acc st)))%nat
       && truthy full
    then assistantTexts (acc st) ++ [full]
    else assistantTexts (acc st).
Proof.
  intros Hrole. unfold onMessageEnd, isAssistant. rewrite Hrole.
  change (bool_decide (js "assistant" = js "assistant")) with true.
  cbv zeta. cbn [negb].
  fold (messageTextOf (enforceFinalTag p) (extractAssistantText msg)).
  repeat match goal with
         | |- context [fst (if ?b then _ else _)] => destruct b eqn:?
         end; done.
Qed.

Lemma handleEvents_single `{Collaborators} (p : SubscribeParams) st evt :
  fst (handleEvents p st [evt]) = fst (handleEvent p st evt).
Proof. cbn [handleEvents]. by destruct (handleEvent p st evt). Qed.

(** X7. With blocks broken at the end of the message, a fresh subscription
    that sees any text events and then the end of an assistant message
    finalizes exactly one block, the text of the whole message, and none
    when that text is empty. *)
Theorem message_end_finalizes_whole_text `{Collaborators}
    (p : SubscribeParams) (msg : AgentMessage) (evts : list AgentEvent) :
  blockReplyBreak p = Some BreakMessageEnd ->
  role msg = js "assistant" ->
  Forall (fun e => isMessageUpdate e = true) evts ->
  let full := messageTextOf (enforceFinalTag p) (extractAssistantText msg) in
  finalizedBlocks p (evts ++ [message_end (Some msg)])
  = if truthy full then [full] else [].
Proof.
  intros Hmode Hrole Hall. cbv zeta.
  unfold finalizedBlocks. rewrite (handleEvents_app p), handleEvents_single.
  destruct (updates_keep_blocks p Hmode evts initialInterp Hall)
    as (U1 & _ & U3). cbv zeta in U1, U3.
  set (st := fst (handleEvents p initialInterp evts)) in *.
  cbn [handleEvent]. rewrite (onMessageEnd_texts p st msg Hrole).
  cbv zeta. rewrite U1, U3. reflexivity.
Qed.

(** The theorem on a message streamed in two segments. *)
Lemma message_end_finalizes_whole_text_witness :
  let p := {| runId := js "run-1"; verboseLevel := None;
              shouldEmitToolResult := None; onToolResult := false;
              onBlockReply := true; blockReplyBreak := Some BreakMessageEnd;
              onPartialReply := false; onAgentEvent := false;
              enforceFinalTag := false |} in
  let msg := {| role := js "assistant"; body := VStr (js "Hello World") |} in
  blockReplyBreak p = Some BreakMessageEnd
  /\ role msg = js "assistant"
  /\ @finalizedBlocks plainCollaborators p
       (segmentsStream msg [[js "Hello"]; [js " World"]]
        ++ [message_end (Some msg)])
     = [js "Hello World"].
Proof.
  intros p msg.
  assert (H1 : blockReplyBreak p = Some BreakMessageEnd) by reflexivity.
  assert (H2 : role msg = js "assistant") by reflexivity.
  do 2 (split; [assumption|]).
  rewrite (@message_end_finalizes_whole_text plainCollaborators p msg
             (segmentsStream msg [[js "Hello"]; [js " World"]]) H1 H2).
  - reflexivity.
  - repeat constructor.
Defined.

(** ** Tool records, and what a retry voids *)

Section ToolFacts.

Context `{Collaborators}.

Variable p : SubscribeParams.

(** What each event does to the tool records. *)
Lemma handleEvent_tools st evt :
  tools (fst (handleEvent p st evt))
  = match evt with
    | tool_execution_start name id args =>
        {| toolMetas := toolMetas (tools st);
           toolMetaById := <[id := inferToolMetaFromArgs name args]>
                             (toolMetaById (tools st)) |}
    | tool_execution_end name id _ _ =>
        {| toolMetas := toolMetas (tools st)
                        ++ [(name, mjoin (toolMetaById (tools st) !! id))];
           toolMetaById := toolMetaById (tools st) |}
    | auto_compaction_end true => emptyToolRecords
    | _ => tools st
    end.
Proof.
  destruct evt as [n i a|n i r|n i e r|m a|m| | |[]| |t]; cbn [handleEvent];
    try reflexivity.
  - by destruct (onMessageUpdate_effect p st m a) as (? & _).
  - by destruct (onMessageEnd_effect p st m) as (? & _).
  - unfold onCompactionEnd. cbv zeta.
    by destruct (maybeResolveCompactionWait _).
  - unfold onAgentEnd. cbv zeta. destruct (runDebouncer p _).
    cbn [compaction withDebouncer].
    destruct (0 <? pendingCompactionRetry (compaction st))%nat;
      [by destruct (resolveCompactionRetry _)
      |by destruct (maybeResolveCompactionWait _)].
Qed.

(** The cache entry of a call id stays under events that do not void
    it. *)
Lemma cached_meta_stays id evts : forall st,
  Forall (fun e => voidsToolMeta id e = false) evts ->
  toolMetaById (tools (fst (handleEvents p st evts))) !! id
  = toolMetaById (tools st) !! id.
Proof.
  induction evts as [|e evts IH]; intros st Hall; [done|].
  inversion Hall as [|? ? He Hrest]; subst.
  cbn [handleEvents].
  pose proof (handleEvent_tools st e) as Ht.
  destruct (handleEvent p st e) as [st1 out1]. cbn [fst] in Ht.
  specialize (IH st1 Hrest).
  destruct (handleEvents p st1 evts) as [st2 out2]. cbn [fst] in *.
  rewrite IH, Ht.
  destruct e as [n i a|n i r|n i x r|m a|m| | |[]| |t]; try done.
  cbn [toolMetaById]. cbn in He. apply bool_decide_eq_false in He.
  by rewrite lookup_insert_ne.
Qed.

(** The accumulator after an event depends on the accumulator before it
    only, and the tool records on the tool records only. *)
Lemma handleEvent_reported_local st st0 evt :
  acc st = acc st0 -> tools st = tools st0 ->
  acc (fst (handleEvent p st evt)) = acc (fst (handleEvent p st0 evt))
  /\ tools (fst (handleEvent p st evt)) = tools (fst (handleEvent p st0 evt)).
Proof.
  intros Hacc Htools. split; [|by rewrite !handleEvent_tools, Htools].
  pose proof (handleEvent_acc_other p st evt) as H1.
  pose proof (handleEvent_acc_other p st0 evt) as H2.
  destruct evt as [n i a|n i r|n i e r|m a|m| | |[]| |t];
    try (by rewrite H1, H2).
  - cbn [handleEvent]. unfold onMessageUpdate. cbv zeta. rewrite Hacc.
    repeat match goal with
           | |- context [fst (if ?b then _ else _)] => destruct b eqn:?
           end; cbn [fst acc withAcc]; done.
  - cbn [handleEvent]. unfold onMessageEnd. destruct m as [msg|]; [|done].
    cbv zeta. rewrite Hacc.
    repeat match goal with
           | |- context [fst (if ?b then _ else _)] => destruct b eqn:?
           end; cbn [fst acc withAcc]; done.
  - destruct (compaction_retry_handler p st) as (-> & _).
    by destruct (compaction_retry_handler p st0) as (-> & _).
Qed.

Lemma handleEvents_reported_local evts : forall st st0,
  acc st = acc st0 -> tools st = tools st0 ->
  acc (fst (handleEvents p st evts)) = acc (fst (handleEvents p st0 evts))
  /\ tools (fst (handleEvents p st evts))
     = tools (fst (handleEvents p st0 evts)).
Proof.
  induction evts as [|e evts IH]; intros st st0 Hacc Htools; [done|].
  cbn [handleEvents].
  destruct (handleEvent_reported_local st st0 e Hacc Htools) as [Ha Ht].
  destruct (handleEvent p st e) as [st1 out1].
  destruct (handleEvent p st0 e) as [st1' out1']. cbn [fst] in *.
  specialize (IH st1 st1' Ha Ht).
  destruct (handleEvents p st1 evts) as [st2 out2].
  by destruct (handleEvents p st1' evts) as [st2' out2'].
Qed.

Lemma afterLastRetry_none evts :
  existsb isRetryEnd evts = false -> afterLastRetry evts = evts.
Proof.
  destruct evts as [|e rest]; [done|]. cbn [existsb afterLastRetry].
  intros Hno. apply orb_false_elim in Hno as [He Hrest].
  by rewrite Hrest, He.
Qed.

Lemma retry_voids evts : forall st,
  existsb isRetryEnd evts = true ->
  acc (fst (handleEvents p st evts))
  = acc (fst (handleEvents p initialInterp (afterLastRetry evts)))
  /\ tools (fst (handleEvents p st evts))
     = tools (fst (handleEvents p initialInterp (afterLastRetry evts))).
Proof.
  induction evts as [|e rest IH]; intros st Hex; [done|].
  cbn [afterLastRetry handleEvents].
  destruct (existsb isRetryEnd rest) eqn:Hrest.
  - destruct (handleEvent p st e) as [st1 out1].
    specialize (IH st1 eq_refl).
    by destruct (handleEvents p st1 rest) as [st2 out2].
  - cbn [existsb] in Hex. rewrite Hrest, orb_false_r in Hex. rewrite Hex.
    destruct e as [| | | | | | |[]| |]; try discriminate.
    destruct (compaction_retry_handler p st) as (Ha & Ht & _).
    cbv zeta in Ha, Ht.
    destruct (handleEvent p st (auto_compaction_end true)) as [st1 out1].
    cbn [fst] in *.
    pose proof (handleEvents_reported_local rest st1 initialInterp Ha Ht)
      as [Ra Rt].
    by destruct (handleEvents p st1 rest) as [st2 out2].
Qed.

(** Without a retry, every tool end adds one record, in order. *)
Lemma tool_records_grow evts : forall st,
  existsb isRetryEnd evts = false ->
  map fst (toolMetas (tools (fst (handleEvents p st evts))))
  = map fst (toolMetas (tools st)) ++ endedTools evts.
Proof.
  induction evts as [|e rest IH]; intros st Hno.
  - cbn. by rewrite app_nil_r.
  - cbn [existsb] in Hno. apply orb_false_elim in Hno as [He Hrest].
    cbn [handleEvents].
    pose proof (handleEvent_tools st e) as Ht.
    destruct (handleEvent p st e) as [st1 out1]. cbn [fst] in Ht.
    specialize (IH st1 Hrest).
    destruct (handleEvents p st1 rest) as [st2 out2]. cbn [fst] in *.
    rewrite IH, Ht.
    destruct e as [n i a|n i r|n i x r|m a|m| | |[]| |t]; try done.
    cbn [toolMetas endedTools omap list_omap]. rewrite map_app. cbn [map fst].
    by rewrite <- app_assoc.
Qed.

End ToolFacts.

(** X8. A tool record carries the metadata inferred at the start of the
    call: when a call starts under an id, and the events that follow
    neither start that id again nor announce a compaction retry, the
    record added at the end of the call pairs the tool name given at the
    end with the metadata inferred from the arguments given at the
    start. *)
Theorem tool_end_pairs_cached_metadata `{Collaborators}
    (p : SubscribeParams) (st : Interp)
    (name name' id : str) (args result : value) (isError : bool)
    (between : list AgentEvent) :
  Forall (fun e => voidsToolMeta id e = false) between ->
  last (toolMetas (tools (fst (handleEvents p st
          (tool_execution_start name id args
           :: between ++ [tool_execution_end name' id isError result])))))
  = Some (name', inferToolMetaFromArgs name args).
Proof.
  intros Hall.
  change (tool_execution_start name id args
          :: between ++ [tool_execution_end name' id isError result])
    with ([tool_execution_start name id args]
          ++ between ++ [tool_execution_end name' id isError result]).
  rewrite !(handleEvents_app p), !handleEvents_single.
  set (st1 := fst (handleEvent p st (tool_execution_start name id args))).
  set (st2 := fst (handleEvents p st1 between)).
  rewrite handleEvent_tools. cbn [toolMetas]. rewrite last_snoc.
  unfold st2. rewrite (cached_meta_stays p id between st1 Hall).
  unfold st1. rewrite handleEvent_tools. cbn [toolMetaById].
  by rewrite lookup_insert_eq.
Qed.

(** The theorem on a [bash] call with text and another call in between. *)
Lemma tool_end_pairs_cached_metadata_witness :
  let between := [textDelta assistantMsg (js "working");
                  tool_execution_start (js "read") (js "c2") VNull;
                  tool_execution_end (js "read") (js "c2") false VNull;
                  auto_compaction_end false] in
  Forall (fun e => voidsToolMeta (js "c1") e = false) between
  /\ last (toolMetas (tools (fst (@handleEvents plainCollaborators
             (plainParams false) initialInterp
             (tool_execution_start (js "bash") (js "c1") VNull
              :: between
                 ++ [tool_execution_end (js "bash") (js "c1") false VNull])))))
     = Some (js "bash", None).
Proof.
  intros between.
  assert (Hall : Forall (fun e => voidsToolMeta (js "c1") e = false) between)
    by (repeat constructor).
  split; [assumption|].
  exact (@tool_end_pairs_cached_metadata plainCollaborators (plainParams false)
           initialInterp (js "bash") (js "bash") (js "c1") VNull VNull false
           between Hall).
Defined.

(** X9. A compaction retry voids the work before it: the finalized blocks
    and the tool records of a subscription are those of a fresh
    subscription that sees only the events after the last compaction end
    that announces a retry; the tool records then name, in order, the
    tools whose end was seen since. *)
Theorem retry_voids_earlier_work `{Collaborators}
    (p : SubscribeParams) (evts : list AgentEvent) :
  reported (fst (handleEvents p initialInterp evts))
  = reported (fst (handleEvents p initialInterp (afterLastRetry evts)))
  /\ map fst (toolMetas (tools (fst (handleEvents p initialInterp evts))))
     = endedTools (afterLastRetry evts).
Proof.
  assert (Hrep : acc (fst (handleEvents p initialInterp evts))
                 = acc (fst (handleEvents p initialInterp (afterLastRetry evts)))
                 /\ tools (fst (handleEvents p initialInterp evts))
                    = tools (fst (handleEvents p initialInterp
                                    (afterLastRetry evts)))).
  { destruct (existsb isRetryEnd evts) eqn:Hex.
    - by apply retry_voids.
    - by rewrite afterLastRetry_none. }
  destruct Hrep as [Ha Ht]. split.
  - unfold reported. by rewrite Ha, Ht.
  - rewrite Ht. rewrite tool_records_grow; [done|].
    clear Ha Ht. induction evts as [|e rest IH]; [done|].
    cbn [afterLastRetry].
    destruct (existsb isRetryEnd rest) eqn:Hrest; [done|].
    destruct (isRetryEnd e) eqn:He; [done|].
    cbn [existsb]. by rewrite He, Hrest.
Qed.

(** ** The budget of tool texts *)

Section TruncateFacts.

Lemma truncateToolText_within (text : str) :
  (strlen text <= TOOL_RESULT_MAX_CHARS)%N -> truncateToolText text = text.
Proof.
  intros Hle. unfold truncateToolText.
  by destruct (N.leb_spec (strlen text) TOOL_RESULT_MAX_CHARS); [|lia].
Qed.

Lemma truncateToolText_beyond (text : str) :
  (TOOL_RESULT_MAX_CHARS < strlen text)%N ->
  truncateToolText text
  = take (N.to_nat TOOL_RESULT_MAX_CHARS) text ++ TRUNCATED_SUFFIX
  /\ strlen (truncateToolText text)
     = (TOOL_RESULT_MAX_CHARS + strlen TRUNCATED_SUFFIX)%N.
Proof.
  intros Hlt. unfold truncateToolText.
  destruct (N.leb_spec (strlen text) TOOL_RESULT_MAX_CHARS); [lia|].
  split; [done|]. unfold strlen in *.
  rewrite length_app, length_take. lia.
Qed.

End TruncateFacts.

(** X10. The budget of tool texts: the result agrees with the text on its
    first 8000 code units and is never longer than the budget plus the
    marker (a text within the budget keeps its length); a text cut to the
    budget is returned as it is; truncating a second time changes
    nothing. *)
Theorem truncate_tool_text_budget (text : str) :
  strlen (truncateToolText text)
  = (if (strlen text <=? TOOL_RESULT_MAX_CHARS)%N then strlen text
     else TOOL_RESULT_MAX_CHARS + strlen TRUNCATED_SUFFIX)%N
  /\ take (N.to_nat TOOL_RESULT_MAX_CHARS) (truncateToolText text)
     = take (N.to_nat TOOL_RESULT_MAX_CHARS) text
  /\ truncateToolText (take (N.to_nat TOOL_RESULT_MAX_CHARS) text)
     = take (N.to_nat TOOL_RESULT_MAX_CHARS) text
  /\ truncateToolText (truncateToolText text) = truncateToolText text.
Proof.
  assert (Hsuffix : strlen TRUNCATED_SUFFIX = 14%N) by reflexivity.
  assert (Hcut : truncateToolText (take (N.to_nat TOOL_RESULT_MAX_CHARS) text)
                 = take (N.to_nat TOOL_RESULT_MAX_CHARS) text).
  { apply truncateToolText_within. unfold strlen. rewrite length_take. lia. }
  destruct (N.leb_spec (strlen text) TOOL_RESULT_MAX_CHARS) as [Hle|Hgt].
  - by rewrite !(truncateToolText_within text Hle).
  - destruct (truncateToolText_beyond text Hgt) as [Heq Hlen].
    assert (Hn : (N.to_nat TOOL_RESULT_MAX_CHARS <= length text)%nat)
      by (unfold strlen in Hgt; lia).
    assert (Htake : take (N.to_nat TOOL_RESULT_MAX_CHARS)
                      (truncateToolText text)
                    = take (N.to_nat TOOL_RESULT_MAX_CHARS) text).
    { rewrite Heq, take_app_le by (rewrite length_take; lia).
      by rewrite take_take, Nat.min_id. }
    split; [exact Hlen|split; [exact Htake|split; [exact Hcut|]]].
    assert (Hgt' : (TOOL_RESULT_MAX_CHARS < strlen (truncateToolText text))%N)
      by lia.
    destruct (truncateToolText_beyond _ Hgt') as [Heq' _].
    by rewrite Heq', Htake, <- Heq.
Qed.

(** ** The compaction coordinator *)

Section CoordinatorFacts.

Context `{Collaborators}.

Variable p : SubscribeParams.

Lemma resolvedIds_app out1 out2 :
  resolvedIds (out1 ++ out2) = resolvedIds out1 ++ resolvedIds out2.
Proof. apply omap_app. Qed.

Lemma debouncerCallback_quiet batch :
  resolvedIds (debouncerCallback p batch) = [].
Proof.
  unfold debouncerCallback. destruct (onPartialReply p); [|done].
  cbn [negb]. by destruct (splitMediaFromOutput _).
Qed.

Lemma runDebouncer_quiet r : resolvedIds (snd (runDebouncer p r)) = [].
Proof.
  unfold runDebouncer. cbn [snd].
  induction (snd r) as [|b bs IH]; [done|].
  cbn [map concat]. by rewrite resolvedIds_app, debouncerCallback_quiet, IH.
Qed.

(** Events that are not about compaction or the end of the agent leave the
    compaction state alone and resolve nothing. *)
Lemma handleEvent_quiet st evt :
  match evt with
  | auto_compaction_start | auto_compaction_end _ | agent_end => True
  | _ => compaction (fst (handleEvent p st evt)) = compaction st
         /\ resolvedIds (snd (handleEvent p st evt)) = []
  end.
Proof.
  destruct evt as [n i a|n i r|n i e r|m a|m| | |[]| |t]; try done;
    cbn [handleEvent].
  - split; [done|]. unfold onToolStart. cbn [snd].
    by destruct (onAgentEvent p).
  - split; [done|]. unfold onToolUpdate. cbn [snd].
    by destruct (onAgentEvent p).
  - unfold onToolEnd. cbv zeta.
    pose proof (runDebouncer_quiet
                  (debouncerPush n (mjoin (toolMetaById (tools st) !! i))
                     (toolDebouncer st))) as Hq.
    destruct (runDebouncer p _) as [d pushed]. cbn [snd fst] in *.
    split; [done|]. rewrite !resolvedIds_app, Hq.
    repeat case_match; done.
  - split; [by destruct (onMessageUpdate_effect p st m a) as (_ & ? & _)|].
    unfold onMessageUpdate, forwardBlock. cbv zeta. repeat case_match; done.
  - split; [by destruct (onMessageEnd_effect p st m) as (_ & ? & _)|].
    unfold onMessageEnd, forwardBlock. cbv zeta. repeat case_match; done.
Qed.

Lemma coordinated_start fl pend res prom made R :
  coordinated
    {| compactionInFlight := fl; pendingCompactionRetry := pend;
       compactionRetryResolve := res; compactionRetryPromise := prom;
       promisesCreated := made |} R ->
  forall fl' pend', (fl' || (0 <? pend')%nat) = true ->
  coordinated
    (ensureCompactionPromise
       {| compactionInFlight := fl'; pendingCompactionRetry := pend';
          compactionRetryResolve := res; compactionRetryPromise := prom;
          promisesCreated := made |}) R.
Proof.
  unfold coordinated, compactionBusy, ensureCompactionPromise. cbn.
  intros (H1 & H2 & H3 & H4 & H5 & H6) fl' pend' Hbusy. subst res.
  destruct prom as [k|]; cbn; rewrite Hbusy.
  - split_and!; try done.
  - split_and!; try done.
    + intros k [= <-]. split; [lia|]. intros Hin%H5. lia.
    + intros k Hk. destruct (decide (k = made)) as [->|]; [by right|].
      left. destruct (H4 k) as [|]; [lia|done|done].
    + intros k Hin%H5. lia.
Qed.

Lemma coordinated_resolve fl pend res prom made R :
  coordinated
    {| compactionInFlight := fl; pendingCompactionRetry := pend;
       compactionRetryResolve := res; compactionRetryPromise := prom;
       promisesCreated := made |} R ->
  let r := resolveAndClear
             {| compactionInFlight := false; pendingCompactionRetry := 0;
                compactionRetryResolve := res; compactionRetryPromise := prom;
                promisesCreated := made |} in
  coordinated (fst r) (R ++ resolvedIds (snd r)).
Proof.
  unfold coordinated, compactionBusy, resolveAndClear. cbn.
  intros (H1 & H2 & H3 & H4 & H5 & H6). subst res.
  destruct prom as [k|]; cbn.
  - destruct (H3 k eq_refl) as [Hk Hnot].
    split_and!; try done.
    + intros j Hj. left. apply elem_of_app.
      destruct (H4 j Hj) as [|[= ->]]; [by left|right; by constructor].
    + intros j [Hin|Hin%list_elem_of_singleton]%elem_of_app;
        [by apply H5|by subst].
    + apply NoDup_app. split_and!; [done| |apply NoDup_singleton].
      by intros j Hin ->%list_elem_of_singleton.
  - rewrite app_nil_r. by split_and!.
Qed.

Lemma coordinated_keep fl pend res prom made R :
  coordinated
    {| compactionInFlight := fl; pendingCompactionRetry := pend;
       compactionRetryResolve := res; compactionRetryPromise := prom;
       promisesCreated := made |} R ->
  (fl || (0 <? pend)%nat) = true ->
  forall fl' pend', (fl' || (0 <? pend')%nat) = true ->
  coordinated
    {| compactionInFlight := fl'; pendingCompactionRetry := pend';
       compactionRetryResolve := res; compactionRetryPromise := prom;
       promisesCreated := made |} R.
Proof.
  unfold coordinated, compactionBusy. cbn.
  intros (H1 & H2 & H3 & H4 & H5 & H6) Hbusy fl' pend' Hbusy'.
  rewrite Hbusy in H2. rewrite Hbusy'. by split_and!.
Qed.

Lemma onAgentEnd_compaction st R :
  coordinated (compaction (fst (handleEvent p st agent_end)))
    (R ++ resolvedIds (snd (handleEvent p st agent_end)))
  = let r := if (0 <? pendingCompactionRetry (compaction st))%nat
             then resolveCompactionRetry (compaction st)
             else maybeResolveCompactionWait (compaction st) in
    coordinated (fst r) (R ++ resolvedIds (snd r)).
Proof.
  cbn [handleEvent]. unfold onAgentEnd. cbv zeta.
  pose proof (runDebouncer_quiet (debouncerFlush (toolDebouncer st))) as Hq.
  destruct (runDebouncer p _) as [d out]. cbn [snd] in Hq.
  cbn [compaction withDebouncer].
  destruct (if (0 <? _)%nat then _ else _) as [c' out'].
  cbn [fst snd compaction withCompaction].
  by rewrite resolvedIds_app, Hq.
Qed.

(** Every event keeps the compaction state in step with the promises
    resolved. *)
Lemma coordinated_step st evt R :
  coordinated (compaction st) R ->
  coordinated (compaction (fst (handleEvent p st evt)))
    (R ++ resolvedIds (snd (handleEvent p st evt))).
Proof.
  intros Hc. pose proof (handleEvent_quiet st evt) as Hq.
  destruct evt as [n i a|n i r|n i e r|m a|m| | |[]| |t];
    try (rewrite (proj1 Hq), (proj2 Hq), app_nil_r; exact Hc).
  - cbn [handleEvent fst snd compaction withCompaction resolvedIds omap
         list_omap]. rewrite app_nil_r.
    destruct (compaction st) as [fl pend res prom made].
    by apply (coordinated_start _ _ _ _ _ _ Hc).
  - cbn [handleEvent]. unfold onCompactionEnd, resetForCompactionRetry.
    cbv zeta. rewrite (surjective_pairing (runDebouncer p _)).
    cbn [fst snd compaction withCompaction]. rewrite runDebouncer_quiet.
    rewrite app_nil_r. unfold noteCompactionRetry.
    destruct (compaction st) as [fl pend res prom made].
    cbn [compactionInFlight pendingCompactionRetry compactionRetryResolve
         compactionRetryPromise promisesCreated].
    apply (coordinated_start _ _ _ _ _ _ Hc). cbn [orb].
    apply Nat.ltb_lt. lia.
  - cbn [handleEvent]. unfold onCompactionEnd, maybeResolveCompactionWait.
    cbv zeta.
    destruct (compaction st) as [fl pend res prom made].
    cbn [compactionInFlight pendingCompactionRetry compactionRetryResolve
         compactionRetryPromise promisesCreated negb andb].
    rewrite andb_true_r. destruct pend as [|pend]; cbn [Nat.eqb].
    + pose proof (coordinated_resolve _ _ _ _ _ _ Hc) as Hr.
      cbv zeta in Hr. by destruct (resolveAndClear _).
    + cbn [fst snd compaction withCompaction resolvedIds omap list_omap].
      rewrite app_nil_r.
      apply (coordinated_keep _ _ _ _ _ _ Hc);
        [by rewrite orb_true_r|done].
  - rewrite onAgentEnd_compaction.
    unfold resolveCompactionRetry, maybeResolveCompactionWait.
    destruct (compaction st) as [fl pend res prom made].
    cbn [compactionInFlight pendingCompactionRetry compactionRetryResolve
         compactionRetryPromise promisesCreated].
    pose proof (coordinated_resolve _ _ _ _ _ _ Hc) as Hr. cbv zeta in Hr.
    destruct pend as [|[|pend]], fl;
      cbn [Nat.ltb Nat.leb Nat.eqb negb andb fst snd];
      try exact Hr;
      cbn [resolvedIds omap list_omap]; rewrite app_nil_r;
      apply (coordinated_keep _ _ _ _ _ _ Hc); done.
Qed.

Lemma coordinated_steps evts : forall st R,
  coordinated (compaction st) R ->
  coordinated (compaction (fst (handleEvents p st evts)))
    (R ++ resolvedIds (snd (handleEvents p st evts))).
Proof.
  induction evts as [|e evts IH]; intros st R Hc.
  - cbn. by rewrite app_nil_r.
  - cbn [handleEvents]. pose proof (coordinated_step st e R Hc) as Hs.
    destruct (handleEvent p st e) as [st1 out1]. cbn [fst snd] in Hs.
    specialize (IH st1 _ Hs).
    destruct (handleEvents p st1 evts) as [st2 out2]. cbn [fst snd] in *.
    by rewrite resolvedIds_app, app_assoc.
Qed.

End CoordinatorFacts.

(** X11. The compaction coordinator keeps its promise in step with the
    events: after any events on a fresh subscription the promise and its
    resolver are set or cleared together; a promise is pending exactly
    while a compaction is in flight or a retry is owed; the pending
    promise has not been resolved, every earlier promise has been, and
    none twice. Hence a call of [waitForCompactionRetry()] makes no
    compaction promise and leaves the state as it is: while a compaction
    is in flight or a retry is owed it hands out the pending promise, and
    otherwise it returns a promise of its own and queues the microtask.
    The microtask, in whatever state the events have led to, changes
    nothing either: it follows the pending compaction promise, or resolves
    the returned promise when nothing is in flight or owed. *)
Theorem compaction_promise_coordinated `{Collaborators}
    (p : SubscribeParams) (evts : list AgentEvent) :
  let st := fst (handleEvents p initialInterp evts) in
  let out := snd (handleEvents p initialInterp evts) in
  coordinated (compaction st) (resolvedIds out)
  /\ waitForCompactionRetry st
     = (st, match compactionRetryPromise (compaction st) with
            | Some k => OnCompaction k
            | None => OnMicrotask
            end)
  /\ (snd (waitForCompactionRetry st) = OnMicrotask
      <-> compactionBusy (compaction st) = false)
  /\ recheckInMicrotask st = (st, compactionRetryPromise (compaction st))
  /\ (snd (recheckInMicrotask st) = None
      <-> compactionBusy (compaction st) = false).
Proof.
  cbv zeta.
  assert (Hc : coordinated (compaction (fst (handleEvents p initialInterp evts)))
                 (resolvedIds (snd (handleEvents p initialInterp evts)))).
  { apply (coordinated_steps p evts initialInterp []).
    unfold coordinated. cbn. split_and!; try done.
    - intros k Hk. lia.
    - intros k Hk. by apply elem_of_nil in Hk.
    - constructor. }
  split; [exact Hc|].
  destruct Hc as (_ & Hbusy & _).
  set (st := fst (handleEvents p initialInterp evts)) in *. clearbody st.
  assert (Hsame : compactionBusy (compaction st) = true ->
            exists k, compactionRetryPromise (compaction st) = Some k
                      /\ withCompaction st
                           (ensureCompactionPromise (compaction st)) = st
                      /\ compactionRetryPromise
                           (ensureCompactionPromise (compaction st)) = Some k).
  { intros Hb. destruct (proj2 Hbusy Hb) as [k Hk]. exists k.
    unfold ensureCompactionPromise. rewrite Hk. split; [done|].
    split; [by destruct st|done]. }
  assert (Hidle : compactionBusy (compaction st) = false ->
                  compactionRetryPromise (compaction st) = None).
  { intros Hb.
    destruct (compactionRetryPromise (compaction st)) as [k|] eqn:Hk; [|done].
    pose proof (proj1 Hbusy (ex_intro _ k eq_refl)). congruence. }
  unfold waitForCompactionRetry, recheckInMicrotask.
  destruct (compactionBusy (compaction st)) eqn:Hb.
  - destruct (Hsame eq_refl) as (k & Hk & -> & ->). rewrite Hk. cbn [snd].
    by split_and!.
  - rewrite (Hidle eq_refl). cbn [snd]. by split_and!.
Qed.

(** ** What the handler hands out *)

Section EmissionFacts.

Context `{Collaborators}.

Variable p : SubscribeParams.

Lemma hasTextOrMedia_nonEmptyUrls text mediaUrls :
  hasTextOrMedia text (nonEmptyUrls mediaUrls) = hasTextOrMedia text mediaUrls.
Proof. by destruct mediaUrls as [[|u us]|]. Qed.

Local Ltac permit :=
  repeat case_match; simplify_eq;
  repeat match goal with
         | H : _ && _ = true |- _ => apply andb_prop in H as [? ?]
         | H : negb _ = false |- _ => apply negb_false_iff in H
         end;
  cbn [app];
  repeat (apply Forall_cons; split); try apply Forall_nil;
  cbn [permitted]; rewrite ?hasTextOrMedia_nonEmptyUrls;
  repeat match goal with
         | H : ?b = true |- context [?b] => rewrite H
         | H : ?x = _ |- context [match ?x with _ => _ end] => rewrite H
         end;
  subst; try done; try by apply bool_decide_eq_true.

Lemma runDebouncer_permitted r :
  Forall (fun e => permitted p e = true) (snd (runDebouncer p r)).
Proof.
  unfold runDebouncer. cbn [snd].
  induction (snd r) as [|b bs IH]; [constructor|].
  cbn [map concat]. apply Forall_app. split; [|exact IH].
  unfold debouncerCallback. permit.
Qed.

Lemma resolveAndClear_permitted c :
  Forall (fun e => permitted p e = true) (snd (resolveAndClear c)).
Proof. unfold resolveAndClear. cbn [snd]. permit. Qed.

Lemma handleEvent_permitted st evt :
  Forall (fun e => permitted p e = true) (snd (handleEvent p st evt)).
Proof.
  destruct evt as [n i a|n i r|n i e r|m a|m| | |[]| |t]; cbn [handleEvent];
    try by constructor.
  - unfold onToolStart. cbn [snd]. permit.
  - unfold onToolUpdate. cbn [snd]. permit.
  - unfold onToolEnd. cbv zeta.
    pose proof (runDebouncer_permitted
                  (debouncerPush n (mjoin (toolMetaById (tools st) !! i))
                     (toolDebouncer st))) as Hq.
    destruct (runDebouncer p _) as [d pushed]. cbn [snd] in *.
    apply Forall_app. split; [exact Hq|]. permit.
  - unfold onMessageUpdate, forwardBlock. cbv zeta. permit.
  - unfold onMessageEnd, forwardBlock. cbv zeta. permit.
  - unfold onCompactionEnd, resetForCompactionRetry. cbv zeta.
    pose proof (runDebouncer_permitted (debouncerFlush (toolDebouncer st)))
      as Hq.
    by destruct (runDebouncer p _).
  - unfold onCompactionEnd, maybeResolveCompactionWait. cbv zeta.
    match goal with
    | |- context [resolveAndClear ?c] =>
        pose proof (resolveAndClear_permitted c) as Hr
    end.
    destruct (_ && _); [by destruct (resolveAndClear _)|by constructor].
  - unfold onAgentEnd. cbv zeta.
    pose proof (runDebouncer_permitted (debouncerFlush (toolDebouncer st)))
      as Hq.
    destruct (runDebouncer p _) as [d out]. cbn [snd] in Hq.
    cbn [compaction withDebouncer].
    assert (Hc : Forall (fun e => permitted p e = true)
                   (snd (if (0 <? pendingCompactionRetry (compaction st))%nat
                         then resolveCompactionRetry (compaction st)
                         else maybeResolveCompactionWait (compaction st)))).
    { unfold resolveCompactionRetry, maybeResolveCompactionWait.
      repeat case_match; try (by constructor);
        apply resolveAndClear_permitted. }
    destruct (if (0 <? _)%nat then _ else _) as [c' out']. cbn [snd] in *.
    by apply Forall_app.
Qed.

End EmissionFacts.

(** X12. The handler hands out only what its parameters permit, whatever
    the events and the state: agent events carry the run id of the
    subscription; an observer that is absent is never called; a block
    reply or a tool result always has text or media; a tool result is
    delivered only when the caller's predicate says so, or, without a
    predicate, when the verbose level is on. *)
Theorem handler_emits_only_permitted `{Collaborators}
    (p : SubscribeParams) (st : Interp) (evts : list AgentEvent) :
  Forall (fun e => permitted p e = true) (snd (handleEvents p st evts)).
Proof.
  revert st. induction evts as [|e evts IH]; intros st; [constructor|].
  cbn [handleEvents].
  pose proof (handleEvent_permitted p st e) as He.
  destruct (handleEvent p st e) as [st1 out1]. cbn [snd] in He.
  specialize (IH st1).
  destruct (handleEvents p st1 evts) as [st2 out2]. cbn [snd] in *.
  by apply Forall_app.
Qed.

(** ** The ways a run ends *)

(** X13. How a call of [runEmbeddedPiAgent] ends, for any prompt result
    and any events around the run. It throws only the value the prompt
    rejected with, only when that value is truthy and the run is not
    aborted. It returns in every other finished case, in particular
    whenever the prompt resolves or rejects with a falsy value, and
    [meta.aborted] of the result is the run's [aborted] flag. Before it
    throws or returns the inner [finally] has run. It is left awaiting
    only when a compaction was in flight or owed at the call of the
    compaction wait or at its microtask; when the session reports no
    compaction start and no retry before the microtask, the call throws
    or returns. *)
Theorem run_ends_by_prompt_and_abort `{Collaborators}
    (h : nat) (p : RunParams) (sc : Script) (w : World) :
  let out := fst (runEmbeddedPiAgent h p sc w) in
  let w' := snd (runEmbeddedPiAgent h p sc w) in
  match out with
  | Threw e =>
      promptResult sc = Rejected e /\ truthyValue e = true
      /\ abortedIn h w' = Some false /\ cleanedUp h (sessionId p) w'
  | Returned res =>
      abortedIn h w' = Some (meta_aborted res)
      /\ (truthyValue (promptErrorOf sc) = true -> meta_aborted res = true)
      /\ cleanedUp h (sessionId p) w'
      /\ exists r st, runs w' !! h = Some r /\ interps w' !! h = Some st
                      /\ res = resultOf (sub p) (messagesSnapshot sc) r st
  | AwaitingCompaction =>
      ~ (compactionIdle h (promptSettled h p sc w)
         /\ compactionIdle h (atMicrotask h p sc w))
  end
  /\ (compactionIdle h (promptSettled h p sc w) ->
      compactionIdle h (atMicrotask h p sc w) ->
      out <> AwaitingCompaction)
  /\ (forallb (fun e => negb (startsCompaction h e))
        (duringPrompt sc ++ beforeMicrotask sc) = true ->
      out <> AwaitingCompaction)
  /\ (truthyValue (promptErrorOf sc) = false -> forall e, out <> Threw e).
Proof.
  cbv zeta.
  destruct (run_cases h p sc w)
    as [[Hout Hbusy]
       |(esA & esB & rest & w4 & w6 & r5 & st5 & r6 & st6 & _ & _ & _ & _
         & _ & _ & _ & Hr6 & Hst6 & Hab & Hclean & ->)].
  - rewrite Hout. split; [done|].
    split; [intros H1 H2 _; by apply Hbusy|].
    split; [intros Hq%(wait_idle h p sc w) _; by apply Hbusy|done].
  - destruct (truthyValue (promptErrorOf sc)) eqn:Etruthy;
      destruct (aborted r5) eqn:Ea; cbn [andb negb fst snd];
      (split; [|by split_and!]).
    + unfold abortedIn. rewrite Hr6. cbn. rewrite Hab.
      split_and!; try done. by exists r6, st6.
    + unfold abortedIn. rewrite Hr6. cbn. rewrite Hab.
      split_and!; try done.
      unfold promptErrorOf in *. by destruct (promptResult sc).
    + unfold abortedIn. rewrite Hr6. cbn. rewrite Hab.
      split_and!; try done. by exists r6, st6.
    + unfold abortedIn. rewrite Hr6. cbn. rewrite Hab.
      split_and!; try done. by exists r6, st6.
Qed.

(** ** Where [aborted] comes from *)

Section AbortFacts.

Context `{Collaborators}.

Lemma abortState_updateRun h h' f (w : World) :
  (forall r, aborted (f r) = aborted r
             /\ abortRequests (session (f r)) = abortRequests (session r)) ->
  abortState h (updateRun h' f w) = abortState h w.
Proof.
  intros Hf. unfold abortState. rewrite updateRun_lookup.
  destruct (decide (h' = h)) as [->|]; [|done].
  destruct (runs w !! h) as [r|]; [|done]. cbn.
  by destruct (Hf r) as [-> ->].
Qed.

Lemma abortState_insert h h' r r' (w w' : World) :
  runs w !! h' = Some r -> runs w' = <[h' := r']> (runs w) ->
  aborted r' = aborted r ->
  abortRequests (session r') = abortRequests (session r) ->
  abortState h w' = abortState h w.
Proof.
  intros Hr Hw' Ha Hn. unfold abortState. rewrite Hw'.
  destruct (decide (h' = h)) as [->|Hne].
  - rewrite lookup_insert_eq, Hr. cbn. by rewrite Ha, Hn.
  - by rewrite lookup_insert_ne.
Qed.

(** An event that is none of the three triggers leaves the abort state of
    the run as it is. *)
Lemma quiet_step e (w : World) h :
  mayAbort h e = false -> abortState h (envStep w e) = abortState h w.
Proof.
  intros Hq. destruct e as [h' evt|h' b|h'|h'|h'|sid txt|sid|sid h'];
    cbn [envStep]; try done.
  - unfold deliver.
    destruct (runs w !! h') as [r0|] eqn:Er0; [|done].
    destruct (interps w !! h') as [st|]; [|done].
    destruct (subscribed r0); [|done].
    destruct (handleEvent _ st evt) as [st' out].
    by eapply abortState_insert.
  - by apply abortState_updateRun.
  - cbn in Hq. apply Nat.eqb_neq in Hq.
    unfold abortState. rewrite updateRun_lookup. by rewrite decide_False.
  - apply abortState_updateRun. intros r. unfold onWarnTimer.
    by destruct (abortWarnTimer r) as [[]|].
  - cbn in Hq. apply Nat.eqb_neq in Hq.
    unfold abortState. rewrite updateRun_lookup. by rewrite decide_False.
  - unfold queueEmbeddedPiMessage.
    destruct (ACTIVE_EMBEDDED_RUNS w !! sid) as [h0|]; [|done].
    destruct (runs w !! h0) as [r0|] eqn:Er0; [|done].
    destruct (negb (handle_isStreaming r0)); [done|]. cbn [snd].
    by eapply abortState_insert.
Qed.

Lemma quiet_steps es : forall (w : World) h,
  forallb (fun e => negb (mayAbort h e)) es = true ->
  abortState h (envSteps w es) = abortState h w.
Proof.
  induction es as [|e es IH]; intros w h Hes; [done|].
  cbn [forallb] in Hes. apply andb_true_iff in Hes as [He Hes].
  apply negb_true_iff in He. cbn [envSteps foldl].
  etrans; [by apply IH|]. by apply quiet_step.
Qed.

(** The inner [finally] leaves the abort state as it is. *)
Lemma cleanup_abortState h p (w : World) :
  abortState h (cleanup h p w) = abortState h w.
Proof.
  unfold cleanup. cbv zeta.
  rewrite !abortState_updateRun by done.
  unfold releaseHandle. case_bool_decide.
  - change (abortState h (withRegistry ?w0 _)) with (abortState h w0).
    unfold flushToolDebouncer.
    destruct (runs _ !! h) as [r0|] eqn:Er0;
      [|by rewrite !abortState_updateRun].
    destruct (interps _ !! h) as [st|]; [|by rewrite !abortState_updateRun].
    destruct (runDebouncer _ _) as [d out].
    etrans; [by eapply abortState_insert|].
    by rewrite !abortState_updateRun.
  - unfold flushToolDebouncer.
    destruct (runs _ !! h) as [r0|] eqn:Er0;
      [|by rewrite !abortState_updateRun].
    destruct (interps _ !! h) as [st|]; [|by rewrite !abortState_updateRun].
    destruct (runDebouncer _ _) as [d out].
    etrans; [by eapply abortState_insert|].
    by rewrite !abortState_updateRun.
Qed.

(** When the prompt call is made the run is aborted only if the signal
    already was. *)
Lemma promptSettled_abortState h p sc (w : World) :
  abortSignal p <> Some true ->
  forallb (fun e => negb (mayAbort h e)) (duringPrompt sc) = true ->
  abortState h (promptSettled h p sc w) = Some (false, 0%nat).
Proof.
  intros Hsig Hes. unfold promptSettled. rewrite quiet_steps by done.
  rewrite abortState_updateRun by done.
  unfold abortState, startRun. cbn [runs]. rewrite lookup_insert_eq.
  by destruct (abortSignal p) as [[]|].
Qed.

End AbortFacts.

(** X14. A run is aborted by nothing but its triggers. When the abort
    signal is not aborted at the start and, while the run lasts, its
    timeout does not fire, its signal does not fire and
    [abortEmbeddedPiRun] is not called, a finished run has [aborted]
    false and its session has received no stop request: a truthy prompt
    error is thrown, and a result is returned, with [meta.aborted] false,
    only when the prompt resolved or rejected with a falsy value. A run
    that has not finished is awaiting a compaction that was in flight or
    owed at the call of the compaction wait or at its microtask. *)
Theorem run_not_aborted_without_trigger `{Collaborators}
    (h : nat) (p : RunParams) (sc : Script) (w : World) :
  abortSignal p <> Some true ->
  forallb (fun e => negb (mayAbort h e))
    (duringPrompt sc ++ beforeMicrotask sc ++ duringWait sc) = true ->
  let out := fst (runEmbeddedPiAgent h p sc w) in
  let w' := snd (runEmbeddedPiAgent h p sc w) in
  match out with
  | Threw e =>
      e = promptErrorOf sc /\ abortState h w' = Some (false, 0%nat)
  | Returned res =>
      meta_aborted res = false /\ truthyValue (promptErrorOf sc) = false
      /\ abortState h w' = Some (false, 0%nat)
  | AwaitingCompaction =>
      ~ (compactionIdle h (promptSettled h p sc w)
         /\ compactionIdle h (atMicrotask h p sc w))
  end.
Proof.
  intros Hsig Hes. cbv zeta.
  rewrite forallb_app in Hes. apply andb_true_iff in Hes as [Hes1 Hes2].
  pose proof (promptSettled_abortState h p sc w Hsig Hes1) as Hsettled.
  destruct (run_cases h p sc w)
    as [[Hout Hbusy]
       |(esA & esB & rest & w4 & w6 & r5 & st5 & r6 & st6 & Hsplit & Hw4 & _
         & Hw6 & _ & Hr5 & _ & Hr6 & _ & Hab & _ & ->)].
  - by rewrite Hout.
  - rewrite Hsplit, !forallb_app in Hes2.
    apply andb_true_iff in Hes2 as [HesA Hes2].
    apply andb_true_iff in Hes2 as [HesB _].
    assert (Hend : abortState h (cleanup h p (envSteps w6 esB))
                   = Some (false, 0%nat)).
    { rewrite cleanup_abortState, quiet_steps by done.
      unfold abortState. rewrite Hw6.
      fold (abortState h (envSteps w4 esA)). rewrite quiet_steps by done.
      unfold abortState. rewrite Hw4. exact Hsettled. }
    assert (Ha5 : aborted r5 = false).
    { rewrite <- Hab. unfold abortState in Hend. rewrite Hr6 in Hend.
      by injection Hend as -> _. }
    rewrite Ha5.
    destruct (truthyValue (promptErrorOf sc)) eqn:Etruthy;
      cbn [andb negb fst snd]; [done|].
    split_and!; try done. cbn. by rewrite Hab.
Qed.

(** The theorem on a run whose prompt rejects while a message is queued
    and the session streams. *)
Lemma run_not_aborted_without_trigger_witness :
  let sc := failingScript [StreamingChanges 0 true;
                           QueueMessageCall (js "s1") (js "more");
                           SessionEmits 0 agent_end] in
  abortSignal (plainRun (js "s1") false) <> Some true
  /\ forallb (fun e => negb (mayAbort 0 e))
       (duringPrompt sc ++ beforeMicrotask sc ++ duringWait sc) = true
  /\ fst (@runEmbeddedPiAgent plainCollaborators 0 (plainRun (js "s1") false)
            sc emptyWorld) = Threw promptFailure.
Proof.
  intros sc.
  assert (H1 : abortSignal (plainRun (js "s1") false) <> Some true)
    by discriminate.
  assert (H2 : forallb (fun e => negb (mayAbort 0 e))
                 (duringPrompt sc ++ beforeMicrotask sc ++ duringWait sc)
               = true) by reflexivity.
  do 2 (split; [assumption|]).
  pose proof (@run_not_aborted_without_trigger plainCollaborators 0
                (plainRun (js "s1") false) sc emptyWorld H1 H2) as Hrun.
  cbv zeta in Hrun.
  assert (Hnot : exists e,
             fst (@runEmbeddedPiAgent plainCollaborators 0
                    (plainRun (js "s1") false) sc emptyWorld) = Threw e)
    by (vm_compute; eexists; reflexivity).
  destruct Hnot as [e He]. rewrite He in Hrun |- *.
  destruct Hrun as [-> _]. reflexivity.
Defined.

(** ** The registry over a run *)

Section RegistryFacts.

Context `{Collaborators}.



End RegistryFacts.



(** ** The OAuth credential store *)

Section StoreFacts.

Context `{Host}.

Lemma uniq_from paths : forall seen,
  NoDup seen ->
  let r := foldl (fun seen x => if bool_decide (x ∈ seen) then seen
                                else seen ++ [x]) seen paths in
  NoDup r /\ (forall x : str, x ∈ r <-> x ∈ seen \/ x ∈ paths)
  /\ exists more, r = seen ++ more.
Proof.
  induction paths as [|y paths IH]; intros seen Hnd; cbn [foldl].
  - split; [done|]. split; [|exists []; by rewrite app_nil_r].
    intros x. rewrite elem_of_nil. tauto.
  - case_bool_decide as Hy.
    + destruct (IH seen Hnd) as (Hr & Hin & more & Hmore).
      split; [done|]. split; [|by exists more].
      intros x. rewrite Hin, elem_of_cons. split; [tauto|].
      intros [?|[->|?]]; auto.
    + assert (Hnd' : NoDup (seen ++ [y])).
      { apply NoDup_app. split_and!; [done| |apply NoDup_singleton].
        by intros x Hx ->%list_elem_of_singleton. }
      destruct (IH (seen ++ [y]) Hnd') as (Hr & Hin & more & Hmore).
      split; [done|]. split.
      * intros x. rewrite Hin, elem_of_app, list_elem_of_singleton, elem_of_cons.
        tauto.
      * exists (y :: more). cbv zeta in Hmore. rewrite Hmore.
        by rewrite <- app_assoc.
Qed.

Lemma uniq_head (x : str) paths : head (uniq (x :: paths)) = Some x.
Proof.
  unfold uniq. cbn [foldl].
  rewrite bool_decide_eq_false_2 by apply not_elem_of_nil. cbn [app].
  destruct (uniq_from paths [x] (NoDup_singleton x)) as (_ & _ & more & Hmore).
  cbv zeta in Hmore. by rewrite Hmore.
Qed.

Lemma importFrom_passed destPath fs before : forall rest,
  Forall (passedOver fs) before ->
  importFrom destPath (before ++ rest) fs = importFrom destPath rest fs.
Proof.
  induction before as [|q before IH]; intros rest Hall; [done|].
  inversion Hall as [|? ? Hq Hrest]; subst.
  cbn [app importFrom]. unfold passedOver in Hq.
  destruct (loadOAuthStorageAt q fs) as [storage|]; [|by apply IH].
  rewrite Hq. by apply IH.
Qed.

Lemma envTrimmed_truthy name v : envTrimmed name = Some v -> v <> [].
Proof.
  unfold envTrimmed. destruct (env name) as [raw|]; [|done].
  destruct (truthy (trim raw)) eqn:Hraw; [|done].
  intros [= <-]. by destruct (trim raw).
Qed.

Lemma ensure_configured s :
  oauthStorageConfigured s = true -> ensureOAuthStorage s = (s, true).
Proof. intros Hflag. unfold ensureOAuthStorage. by rewrite Hflag. Qed.

Lemma ensure_fresh s :
  oauthStorageConfigured s = false ->
  ensureOAuthStorage s
  = ({| oauthStorageConfigured := true;
        files := fst (importLegacyOAuthIfNeeded resolveClawdisOAuthPath
                        (files s)) |},
     snd (importLegacyOAuthIfNeeded resolveClawdisOAuthPath (files s))).
Proof.
  intros Hflag. unfold ensureOAuthStorage. rewrite Hflag.
  by destruct (importLegacyOAuthIfNeeded _ _).
Qed.

Lemma ensure_flag s :
  oauthStorageConfigured (fst (ensureOAuthStorage s)) = true.
Proof.
  destruct (oauthStorageConfigured s) eqn:Hflag.
  - by rewrite ensure_configured.
  - by rewrite ensure_fresh.
Qed.

Lemma import_quiet destPath fs :
  existsSync destPath fs = true \/ Forall (passedOver fs) legacyOAuthPaths ->
  importLegacyOAuthIfNeeded destPath fs = (fs, true).
Proof.
  intros Hquiet. unfold importLegacyOAuthIfNeeded.
  destruct (existsSync _ _) eqn:Hdest; [done|].
  destruct Hquiet as [?|Hall]; [done|].
  rewrite <- (app_nil_r legacyOAuthPaths).
  by rewrite importFrom_passed.
Qed.

End StoreFacts.

(** X16. The legacy import takes the first legacy file that counts. When
    the destination does not exist, the legacy paths before some path are
    passed over (nothing loads from them, or what loads has no Anthropic
    OAuth credentials) and a storage loads from that path: if it holds
    Anthropic OAuth credentials it is what is saved to the destination,
    and the paths after it are not looked at; if looking into it throws
    (a token field that is not a string), the import throws and writes
    nothing. *)
Theorem legacy_import_first_match `{Host}
    (destPath : str) (fs : FS) (before after : list str) (legacyPath : str)
    (storage : value) :
  existsSync destPath fs = false ->
  legacyOAuthPaths = before ++ legacyPath :: after ->
  Forall (passedOver fs) before ->
  loadOAuthStorageAt legacyPath fs = Some storage ->
  hasAnthropicOAuth storage <> Some false ->
  importLegacyOAuthIfNeeded destPath fs
  = match hasAnthropicOAuth storage with
    | Some _ => saveOAuthStorageAt destPath storage fs
    | None => (fs, false)
    end.
Proof.
  intros Hdest Hpaths Hbefore Hload Hcounts.
  unfold importLegacyOAuthIfNeeded. rewrite Hdest, Hpaths.
  rewrite importFrom_passed by done. cbn [importFrom]. rewrite Hload.
  by destruct (hasAnthropicOAuth storage) as [[]|].
Qed.

(** The theorem on a host where the second legacy path holds credentials
    and the first an empty object. *)
Lemma legacy_import_first_match_witness :
  let fs : @FS plainHost :=
    {[ js "/home/.pi/agent/oauth.json" := js "E";
       js "/home/.claude/oauth.json" := js "A";
       js "/home/.config/claude/oauth.json" := js "E" ]} in
  let dest := @resolveClawdisOAuthPath plainHost in
  @existsSync plainHost dest fs = false
  /\ @loadOAuthStorageAt plainHost (js "/home/.claude/oauth.json") fs
     = Some anthropicStorage
  /\ fst (@importLegacyOAuthIfNeeded plainHost dest fs) !! dest = Some (js "A" ++ [10]).
Proof.
  intros fs dest.
  assert (H1 : @existsSync plainHost dest fs = false) by (vm_compute; reflexivity).
  assert (H2 : @legacyOAuthPaths plainHost
               = [js "/home/.pi/agent/oauth.json"]
                 ++ js "/home/.claude/oauth.json"
                    :: [js "/home/.config/claude/oauth.json";
                        js "/home/.config/anthropic/oauth.json"])
    by (vm_compute; reflexivity).
  assert (H3 : Forall (@passedOver plainHost fs)
                 [js "/home/.pi/agent/oauth.json"]).
  { constructor; [|constructor]. vm_compute. reflexivity. }
  assert (H4 : @loadOAuthStorageAt plainHost (js "/home/.claude/oauth.json") fs
               = Some anthropicStorage) by (vm_compute; reflexivity).
  assert (H5 : hasAnthropicOAuth anthropicStorage <> Some false)
    by (vm_compute; discriminate).
  do 2 (split; [assumption|]).
  rewrite (@legacy_import_first_match plainHost dest fs _ _ _ _ H1 H2 H3 H4 H5).
  vm_compute. reflexivity.
Defined.

(** X17. The store is set up at most once per process. A call of
    [ensureOAuthStorage] leaves [oauthStorageConfigured] set, also when
    the import throws; a call that finds it set does nothing and returns,
    so a second call never imports, and a failed import is not tried
    again. When the destination exists, or every legacy path is passed
    over, the first call leaves the files as they are. *)
Theorem oauth_storage_ensured_once `{Host} (s : OAuthState) :
  let s1 := fst (ensureOAuthStorage s) in
  oauthStorageConfigured s1 = true
  /\ ensureOAuthStorage s1 = (s1, true)
  /\ (oauthStorageConfigured s = true -> ensureOAuthStorage s = (s, true))
  /\ (existsSync resolveClawdisOAuthPath (files s) = true
      \/ Forall (passedOver (files s)) legacyOAuthPaths ->
      files s1 = files s /\ snd (ensureOAuthStorage s) = true).
Proof.
  cbv zeta. split; [apply ensure_flag|].
  split; [apply ensure_configured, ensure_flag|].
  split; [apply ensure_configured|].
  intros Hquiet. destruct (oauthStorageConfigured s) eqn:Hflag.
  - by rewrite ensure_configured.
  - rewrite ensure_fresh by done. cbn [fst snd files].
    by rewrite import_quiet.
Qed.

(** X18. The legacy paths are four files under the home directory, and
    before them the file under [PI_CODING_AGENT_DIR] when that is set to
    more than white space; no path is listed twice, and the first path
    looked at is the override when there is one. *)
Theorem legacy_paths_distinct `{Host} :
  NoDup legacyOAuthPaths
  /\ (forall pathname,
        pathname ∈ legacyOAuthPaths <->
        (exists piOverride,
           envTrimmed (js "PI_CODING_AGENT_DIR") = Some piOverride
           /\ pathname = path_join [resolveUserPath piOverride; OAUTH_FILENAME])
        \/ pathname ∈ [path_join [homedir; js ".pi"; js "agent"; OAUTH_FILENAME];
                       path_join [homedir; js ".claude"; OAUTH_FILENAME];
                       path_join [homedir; js ".config"; js "claude";
                                  OAUTH_FILENAME];
                       path_join [homedir; js ".config"; js "anthropic";
                                  OAUTH_FILENAME]])
  /\ head legacyOAuthPaths
     = Some (match envTrimmed (js "PI_CODING_AGENT_DIR") with
             | Some piOverride =>
                 path_join [resolveUserPath piOverride; OAUTH_FILENAME]
             | None => path_join [homedir; js ".pi"; js "agent"; OAUTH_FILENAME]
             end).
Proof.
  unfold legacyOAuthPaths, uniq.
  match goal with
  | |- context [foldl ?f [] ?l] =>
      destruct (uniq_from l [] (NoDup_nil_2)) as (Hnd & Hin & _)
  end.
  cbv zeta in Hnd, Hin. split; [exact Hnd|]. split.
  - intros pathname. rewrite Hin, elem_of_nil, elem_of_app.
    destruct (envTrimmed (js "PI_CODING_AGENT_DIR")) as [piOverride|].
    + rewrite list_elem_of_singleton. split.
      * intros [[]|[->|?]]; [left; by exists piOverride|by right].
      * intros [(? & [= <-] & ->)|?]; right; [by left|by right].
    + rewrite elem_of_nil. split.
      * intros [[]|[[]|?]]. by right.
      * intros [(? & ? & _)|?]; [done|]. right. by right.
  - destruct (envTrimmed (js "PI_CODING_AGENT_DIR")) as [piOverride|];
      cbn [app]; apply uniq_head.
Qed.

(** X19. What [getApiKeyForModel] gives. A key it returns is never empty.
    A stored key that is not empty is returned at once, with the store
    not set up and no file touched. In every other case the store has
    been set up when the call ends. The error for a missing key names the
    provider asked for. For a provider that is no OAuth provider, once
    the store is set up, no file is touched. *)
Theorem api_key_lookup `{Host}
    (provider : str) (storedKey : option str) (s : OAuthState) :
  let s' := fst (getApiKeyForModel provider storedKey s) in
  let out := snd (getApiKeyForModel provider storedKey s) in
  (forall key, out = KeyFound key -> key <> [])
  /\ (forall key, storedKey = Some key -> key <> [] ->
                  s' = s /\ out = KeyFound key)
  /\ (oauthStorageConfigured s' = true
      \/ s' = s /\ exists key, storedKey = Some key /\ out = KeyFound key)
  /\ (forall other, out = NoApiKeyFound other -> other = provider)
  /\ (out = StoreThrew -> oauthStorageConfigured s = false)
  /\ (oauthStorageConfigured s = true -> isOAuthProvider provider = false ->
      files s' = files s).
Proof.
  cbv zeta. unfold getApiKeyForModel.
  assert (Htruthy : forall k : str, truthy k = true -> k <> [])
    by (by intros [|c k]).
  set (stored := match storedKey with
                 | Some k => if truthy k then Some k else None
                 | None => None
                 end).
  assert (Hstored : forall key, storedKey = Some key -> key <> [] ->
                                stored = Some key).
  { intros key -> Hne. unfold stored. by destruct key. }
  assert (Hstored' : forall key, stored = Some key ->
                                 storedKey = Some key /\ key <> []).
  { unfold stored. intros key. destruct storedKey as [[|c k]|]; try done.
    cbn. by intros [= <-]. }
  destruct stored as [key|] eqn:Es.
  { destruct (Hstored' key eq_refl) as [-> Hne]. cbn [fst snd].
    split_and!; try done.
    - by intros ? [= <-].
    - by intros ? [= <-] _.
    - right. split; [done|]. by exists key. }
  assert (Hnone : forall key, storedKey = Some key -> key <> [] -> False).
  { intros key Hk Hne. by specialize (Hstored key Hk Hne). }
  pose proof (ensure_flag s) as Hflag.
  pose proof (ensure_configured s) as Hkeep.
  destruct (ensureOAuthStorage s) as [s1 ok] eqn:Hensure. cbn [fst] in Hflag.
  destruct ok; cbn [negb].
  2: { cbn [fst snd]. split_and!; try done; try (by left).
       - intros key Hk Hne. by destruct (Hnone key Hk Hne).
       - intros _. destruct (oauthStorageConfigured s); [|done].
         by specialize (Hkeep eq_refl).
       - intros Hs _. by specialize (Hkeep Hs). }
  assert (Hfiles : oauthStorageConfigured s = true -> s1 = s).
  { intros Hs. specialize (Hkeep Hs). congruence. }
  repeat case_match; cbn [fst snd oauthStorageConfigured files];
    simplify_eq;
    (split_and!;
     [intros ? [= <-]
     |intros key Hk Hne; by destruct (Hnone key Hk Hne)
     |by left
     |intros ? [= <-]
     |intros [=]
     |intros Hs Hp; try (by rewrite (Hfiles Hs))]);
    try done; try (by apply Htruthy); try (by eapply envTrimmed_truthy);
    try (by apply Htruthy, negb_false_iff);
    match goal with
    | Hno : negb (isOAuthProvider _) = false |- _ =>
        apply negb_false_iff in Hno; congruence
    end.
Qed.


(** ** The registry queries *)

Section QueryFacts.

Context `{Collaborators}.

Lemma streaming_after_update (w : World) sid h r r' :
  runs w !! h = Some r ->
  isStreaming (session r') = isStreaming (session r) ->
  isEmbeddedPiRunStreaming sid (withRuns w (<[h := r']> (runs w)))
  = isEmbeddedPiRunStreaming sid w.
Proof.
  intros Hr Hs. unfold isEmbeddedPiRunStreaming, handle_isStreaming.
  cbn [ACTIVE_EMBEDDED_RUNS runs withRuns].
  destruct (ACTIVE_EMBEDDED_RUNS w !! sid) as [h'|]; [|done].
  destruct (decide (h = h')) as [<-|Hne].
  - by rewrite lookup_insert_eq, Hr.
  - by rewrite lookup_insert_ne.
Qed.

Lemma streaming_after_abort (w : World) sid h :
  isEmbeddedPiRunStreaming sid (withRuns w (alter handle_abort h (runs w)))
  = isEmbeddedPiRunStreaming sid w.
Proof.
  unfold isEmbeddedPiRunStreaming, handle_isStreaming.
  cbn [ACTIVE_EMBEDDED_RUNS runs withRuns].
  destruct (ACTIVE_EMBEDDED_RUNS w !! sid) as [h'|]; [|done].
  rewrite lookup_alter. destruct (decide (h = h')) as [<-|Hne]; [|done].
  by destruct (runs w !! h).
Qed.

End QueryFacts.

(** X20. The four registry functions agree. A message is queued exactly
    when [isEmbeddedPiRunStreaming] answers [true] for the session id, and
    an abort is passed on exactly when [isEmbeddedPiRunActive] does; a
    session id that streams is active. Neither queueing nor aborting
    changes what the two queries answer, for any session id. *)
Theorem registry_queries_agree `{Collaborators}
    (w : World) (sid txt other : str) :
  fst (queueEmbeddedPiMessage sid txt w) = isEmbeddedPiRunStreaming sid w
  /\ fst (abortEmbeddedPiRun sid w) = isEmbeddedPiRunActive sid w
  /\ (isEmbeddedPiRunStreaming sid w = true ->
      isEmbeddedPiRunActive sid w = true)
  /\ isEmbeddedPiRunActive other (snd (queueEmbeddedPiMessage sid txt w))
     = isEmbeddedPiRunActive other w
  /\ isEmbeddedPiRunStreaming other (snd (queueEmbeddedPiMessage sid txt w))
     = isEmbeddedPiRunStreaming other w
  /\ isEmbeddedPiRunActive other (snd (abortEmbeddedPiRun sid w))
     = isEmbeddedPiRunActive other w
  /\ isEmbeddedPiRunStreaming other (snd (abortEmbeddedPiRun sid w))
     = isEmbeddedPiRunStreaming other w.
Proof.
  split_and!.
  - unfold queueEmbeddedPiMessage, isEmbeddedPiRunStreaming.
    destruct (ACTIVE_EMBEDDED_RUNS w !! sid) as [h|]; [|done].
    destruct (runs w !! h) as [r|]; [|done].
    by destruct (handle_isStreaming r).
  - unfold abortEmbeddedPiRun, isEmbeddedPiRunActive.
    destruct (ACTIVE_EMBEDDED_RUNS w !! sid) as [h|]; cbn [fst].
    + symmetry. apply bool_decide_eq_true. eauto.
    + symmetry. apply bool_decide_eq_false. by intros [].
  - unfold isEmbeddedPiRunStreaming, isEmbeddedPiRunActive.
    destruct (ACTIVE_EMBEDDED_RUNS w !! sid) as [h|]; [|done].
    intros _. apply bool_decide_eq_true. eauto.
  - unfold queueEmbeddedPiMessage.
    destruct (ACTIVE_EMBEDDED_RUNS w !! sid) as [h|]; [|done].
    destruct (runs w !! h) as [r|]; [|done].
    by destruct (negb (handle_isStreaming r)).
  - unfold queueEmbeddedPiMessage.
    destruct (ACTIVE_EMBEDDED_RUNS w !! sid) as [h|]; [|done].
    destruct (runs w !! h) as [r|] eqn:Hr; [|done].
    destruct (negb (handle_isStreaming r)); [done|]. cbn [snd].
    by apply (streaming_after_update w other h r).
  - unfold abortEmbeddedPiRun.
    by destruct (ACTIVE_EMBEDDED_RUNS w !! sid) as [h|].
  - unfold abortEmbeddedPiRun.
    destruct (ACTIVE_EMBEDDED_RUNS w !! sid) as [h|]; [|done]. cbn [snd].
    apply streaming_after_abort.
Qed.

(** ** The last assistant message *)

(** X21. The last assistant message of the snapshot: a message is found
    exactly when the snapshot holds an assistant message, and the one
    found is an assistant message with no assistant message after it. *)
Theorem last_assistant_is_last (messages : list AgentMessage) :
  match lastAssistantOf messages with
  | Some m =>
      role m = js "assistant"
      /\ exists before after,
           messages = before ++ m :: after
           /\ Forall (fun m' => role m' <> js "assistant") after
  | None => Forall (fun m' => role m' <> js "assistant") messages
  end.
Proof.
  unfold lastAssistantOf.
  induction messages as [|m0 messages IH] using rev_ind.
  - cbn. constructor.
  - rewrite rev_app_distr. cbn [rev app]. rewrite filter_cons.
    destruct (decide (role m0 = js "assistant")) as [Hm0|Hm0].
    + cbn [head]. split; [done|]. exists messages, []. by split.
    + destruct (head (filter _ (rev messages))) as [m|].
      * destruct IH as (Hm & before & after & -> & Hafter).
        split; [done|]. exists before, (after ++ [m0]).
        split; [by rewrite <- app_assoc|].
        apply Forall_app. split; [done|]. by constructor.
      * apply Forall_app. split; [done|]. by constructor.
Qed.

(** ** The flag and the stop requests *)

Section AccountFacts.

Context `{Collaborators}.

Lemma accounted_abortRun r : accounted r -> accounted (abortRun r).
Proof.
  unfold accounted, abortRun. cbn. intros [Hflag Hwarn]. split.
  - split; [lia|done].
  - intros Hw. by destruct (Hwarn Hw) as [-> _].
Qed.

Lemma accounted_onTimeout r : accounted r -> accounted (onTimeout r).
Proof.
  intros Hacc. unfold onTimeout.
  destruct (abortTimer r) as [[]|] eqn:Htimer; try done.
  destruct (accounted_abortRun r Hacc) as [Hflag _].
  unfold accounted. cbn in *. split; [done|]. by intros _.
Qed.

Lemma accounted_onWarnTimer r : accounted r -> accounted (onWarnTimer r).
Proof.
  intros Hacc. unfold onWarnTimer.
  destruct (abortWarnTimer r) as [[]|] eqn:Hw; try done.
  destruct Hacc as [Hflag Hwarn].
  unfold accounted. cbn. split; [done|]. intros _. apply Hwarn.
  by rewrite Hw.
Qed.

Lemma accounted_onAbortSignal r : accounted r -> accounted (onAbortSignal r).
Proof.
  intros Hacc. unfold onAbortSignal. destruct (abortListener r); [|done].
  by destruct (accounted_abortRun r Hacc).
Qed.

Lemma accounted_updateRun h h' f (w : World) :
  (forall r, accounted r -> accounted (f r)) ->
  (forall r, runs w !! h = Some r -> accounted r) ->
  forall r, runs (updateRun h' f w) !! h = Some r -> accounted r.
Proof.
  intros Hf Hw r. rewrite updateRun_lookup.
  destruct (decide (h' = h)) as [->|]; [|by apply Hw].
  destruct (runs w !! h) as [r0|]; [|done]. cbn. intros [= <-].
  by apply Hf, Hw.
Qed.

Lemma accounted_insert h h' r0 r1 (w : World) (m : gmap nat RunVars) :
  runs w !! h' = Some r0 -> m = <[h' := r1]> (runs w) ->
  (accounted r0 -> accounted r1) ->
  (forall r, runs w !! h = Some r -> accounted r) ->
  forall r, m !! h = Some r -> accounted r.
Proof.
  intros Hr0 -> Hstep Hw r.
  destruct (decide (h' = h)) as [->|Hne].
  - rewrite lookup_insert_eq. intros [= <-]. by apply Hstep, Hw.
  - rewrite lookup_insert_ne by done. apply Hw.
Qed.

(** Whatever happens around a run keeps its flag and its requests in
    step. *)
Lemma accounted_step e (w : World) h :
  (forall r, runs w !! h = Some r -> accounted r) ->
  forall r, runs (envStep w e) !! h = Some r -> accounted r.
Proof.
  intros Hw. destruct e as [h' evt|h' b|h'|h'|h'|sid txt|sid|sid h'];
    cbn [envStep]; try done.
  - unfold deliver.
    destruct (runs w !! h') as [r0|] eqn:Er0; [|done].
    destruct (interps w !! h') as [st|]; [|done].
    destruct (subscribed r0); [|done].
    destruct (handleEvent _ st evt) as [st' out]. cbn [runs].
    by eapply accounted_insert.
  - by apply accounted_updateRun.
  - apply accounted_updateRun; [apply accounted_onTimeout|done].
  - apply accounted_updateRun; [apply accounted_onWarnTimer|done].
  - apply accounted_updateRun; [apply accounted_onAbortSignal|done].
  - unfold queueEmbeddedPiMessage.
    destruct (ACTIVE_EMBEDDED_RUNS w !! sid) as [h0|]; [|done].
    destruct (runs w !! h0) as [r0|] eqn:Er0; [|done].
    destruct (negb (handle_isStreaming r0)); [done|]. cbn [snd runs withRuns].
    by eapply accounted_insert.
  - unfold abortEmbeddedPiRun.
    destruct (ACTIVE_EMBEDDED_RUNS w !! sid) as [h0|]; [|done].
    cbn [snd]. apply (accounted_updateRun h h0 handle_abort w);
      [apply accounted_abortRun|done].
Qed.

Lemma accounted_steps es : forall (w : World) h,
  (forall r, runs w !! h = Some r -> accounted r) ->
  forall r, runs (envSteps w es) !! h = Some r -> accounted r.
Proof.
  induction es as [|e es IH]; intros w h Hw; [done|].
  cbn [envSteps foldl]. apply IH. by apply accounted_step.
Qed.

Lemma accounted_settled h p sc (w : World) :
  forall r, runs (promptSettled h p sc w) !! h = Some r -> accounted r.
Proof.
  unfold promptSettled. apply accounted_steps.
  apply accounted_updateRun; [done|].
  unfold startRun. cbn [runs]. intros r. rewrite lookup_insert_eq.
  intros [= <-]. unfold accounted.
  destruct (abortSignal p) as [[]|]; cbn; split; try done; split; try lia;
    done.
Qed.

End AccountFacts.

(** X22. The flag of a run and the stop requests to its session stay in
    step. When the prompt settles, whatever happened around the run, the
    run is flagged aborted exactly when its session has been asked to
    stop at least once, and a warning timer exists only when the timeout
    has fired and the run is aborted. When the run returns,
    [meta.aborted] is true exactly when the session was asked to stop;
    when it throws, the session was never asked to stop. A run that has
    not finished is awaiting a compaction that was in flight or owed at
    the call of the compaction wait or at its microtask. *)
Theorem abort_flag_matches_stop_requests `{Collaborators}
    (h : nat) (p : RunParams) (sc : Script) (w : World) :
  let out := fst (runEmbeddedPiAgent h p sc w) in
  let w' := snd (runEmbeddedPiAgent h p sc w) in
  (exists r, runs (promptSettled h p sc w) !! h = Some r /\ accounted r)
  /\ match out with
     | Returned res =>
         exists r, runs w' !! h = Some r
                   /\ (meta_aborted res = true
                       <-> (0 < abortRequests (session r))%nat)
     | Threw _ => abortState h w' = Some (false, 0%nat)
     | AwaitingCompaction =>
         ~ (compactionIdle h (promptSettled h p sc w)
            /\ compactionIdle h (atMicrotask h p sc w))
     end.
Proof.
  cbv zeta. split.
  { destruct (promptSettled_entries h p sc w) as (r & _ & Hr & _).
    exists r. split; [done|]. by eapply accounted_settled. }
  destruct (run_cases h p sc w)
    as [[Hout Hbusy]
       |(esA & esB & rest & w4 & w6 & r5 & st5 & r6 & st6 & _ & Hw4 & _
         & Hw6 & _ & Hr5 & _ & Hr6 & _ & Hab & _ & ->)].
  - by rewrite Hout.
  - assert (Hacc5 : accounted r5).
    { eapply (accounted_steps esB w6 h); [|done].
      rewrite Hw6. apply accounted_steps.
      rewrite Hw4. apply accounted_settled. }
    assert (Hstate : abortState h (cleanup h p (envSteps w6 esB))
                     = Some (aborted r5, abortRequests (session r5))).
    { rewrite cleanup_abortState. unfold abortState. by rewrite Hr5. }
    assert (Hreq : abortRequests (session r6) = abortRequests (session r5)).
    { unfold abortState in Hstate. rewrite Hr6 in Hstate.
      by injection Hstate as _ ->. }
    destruct Hacc5 as [Hflag _].
    destruct (truthyValue (promptErrorOf sc)); cbn [andb];
      destruct (aborted r5) eqn:Ea; cbn [negb fst snd].
    + exists r6. split; [done|]. cbn. by rewrite Hab, Hreq.
    + rewrite Hstate. f_equal. f_equal.
      destruct (abortRequests (session r5)); [done|].
      assert (true = false) by (symmetry; apply Hflag; lia). done.
    + exists r6. split; [done|]. cbn. by rewrite Hab, Hreq.
    + exists r6. split; [done|]. cbn. by rewrite Hab, Hreq.
Qed.
